(** * The markdown to Google Docs request compiler (markdownToGoogleDocs.ts)

    A shallow embedding of [convertMarkdownToRequests] and of the helpers
    it calls ([markdownParser.ts], [googleDocsApiHelpers.ts]), followed by
    the properties of the conversion.

    Modelling conventions
    - a JavaScript string is the list of its UTF-16 code units ([jsstring]);
      [text.length] is the length of that list;
    - a JavaScript number used as a document index is an integer ([Z]);
    - a JavaScript array is a list in index order: [push] appends at the
      end, [pop] removes the last element, the top of a stack is [last];
    - an optional field ([x?: T], [T | undefined], [T | null]) is an
      [option];
    - [throw] is the [inl] of a sum; the mutable [ConversionContext] is
      passed explicitly and returned by every handler;
    - the tokenizer (markdown-it) is external: [parseMarkdown] is a
      parameter of [convertMarkdownToRequests]. *)

From Stdlib Require Import ZArith NArith Ascii String Lia Permutation Sorted.
From Stdlib Require Import DecimalString.
From stdpp Require Import base tactics option list.

Local Open Scope Z_scope.

(** ** JavaScript strings *)

Module JS.

Definition jsstring := list N.

(** A string literal, code unit by code unit. *)
Definition js (s : string) : jsstring :=
  List.map N_of_ascii (list_ascii_of_string s).
Arguments js s%_string.

(** [s.length] *)
Definition jslength (s : jsstring) : Z := Z.of_nat (length s).

Definition LF : N := 10%N.
Definition TAB : N := 9%N.

Fixpoint startsWith (s p : jsstring) : bool :=
  match p, s with
  | [], _ => true
  | c :: p', d :: s' => N.eqb c d && startsWith s' p'
  | _ :: _, [] => false
  end.

(** [s.endsWith(p)] *)
Definition endsWith (s p : jsstring) : bool := startsWith (rev s) (rev p).

(** [s === t] on strings *)
Fixpoint jseqb (s t : jsstring) : bool :=
  match s, t with
  | [], [] => true
  | c :: s', d :: t' => N.eqb c d && jseqb s' t'
  | _, _ => false
  end.


(** The code units matched by the regular expression class [\s], which are
    also the ones [String.prototype.trim] removes (WhiteSpace and
    LineTerminator of ECMAScript). *)
Definition isWhiteSpace (c : N) : bool :=
  ((9 <=? c) && (c <=? 13) || (c =? 32) || (c =? 160) || (c =? 5760)
   || (8192 <=? c) && (c <=? 8202) || (c =? 8232) || (c =? 8233)
   || (c =? 8239) || (c =? 8287) || (c =? 12288) || (c =? 65279))%N.

(** The class [\d]. *)
Definition isDigit (c : N) : bool := ((48 <=? c) && (c <=? 57))%N.

Fixpoint dropWhile (f : N -> bool) (s : jsstring) : jsstring :=
  match s with
  | [] => []
  | c :: s' => if f c then dropWhile f s' else s
  end.

Fixpoint takeWhile (f : N -> bool) (s : jsstring) : jsstring :=
  match s with
  | [] => []
  | c :: s' => if f c then c :: takeWhile f s' else []
  end.

(** [s.trim()] *)
Definition trim (s : jsstring) : jsstring :=
  rev (dropWhile isWhiteSpace (rev (dropWhile isWhiteSpace s))).

(** [s.split('\n')] *)
Fixpoint splitLines (s : jsstring) : list jsstring :=
  match s with
  | [] => [[]]
  | c :: s' =>
      if N.eqb c LF then [] :: splitLines s'
      else match splitLines s' with
           | line :: lines => (c :: line) :: lines
           | [] => [[c]]
           end
  end.

(** [c.repeat(n)] for a one-unit string [c] *)
Definition repeatUnit (c : N) (n : nat) : jsstring := replicate n c.

(** [parts.join(',')] *)
Fixpoint join (sep : jsstring) (parts : list jsstring) : jsstring :=
  match parts with
  | [] => []
  | [p] => p
  | p :: rest => p ++ sep ++ join sep rest
  end.

(** Truthiness of a string: it is not empty. *)
Definition truthy (s : jsstring) : bool :=
  match s with [] => false | _ => true end.

End JS.
Export JS.

(** ** Tokens of markdown-it, as the converter reads them *)

#[warnings="-register-all"]
Inductive Token : Type := mkToken {
  type : jsstring;
  tag : jsstring;
  attrs : option (list (jsstring * jsstring));
  content : jsstring;
  children : option (list Token)
}.

(** The arms of the [switch (token.type)] of [processToken]. *)
Inductive TokenKind :=
| heading_open | heading_close
| paragraph_open | paragraph_close
| text | code_inline
| strong_open | strong_close
| em_open | em_close
| s_open | s_close
| link_open | link_close
| bullet_list_open | bullet_list_close
| ordered_list_open | ordered_list_close
| list_item_open | list_item_close
| softbreak | hardbreak
| inline
| table_open
| table_part      (* tbody/thead/tr/th/td open and close, table_close *)
| fence | code_block
| hr
| blockquote_open | blockquote_close
| unhandled.

Definition kindTable : list (string * TokenKind) :=
  [ ("heading_open", heading_open); ("heading_close", heading_close);
    ("paragraph_open", paragraph_open); ("paragraph_close", paragraph_close);
    ("text", text); ("code_inline", code_inline);
    ("strong_open", strong_open); ("strong_close", strong_close);
    ("em_open", em_open); ("em_close", em_close);
    ("s_open", s_open); ("s_close", s_close);
    ("link_open", link_open); ("link_close", link_close);
    ("bullet_list_open", bullet_list_open);
    ("bullet_list_close", bullet_list_close);
    ("ordered_list_open", ordered_list_open);
    ("ordered_list_close", ordered_list_close);
    ("list_item_open", list_item_open); ("list_item_close", list_item_close);
    ("softbreak", softbreak); ("hardbreak", hardbreak);
    ("inline", inline);
    ("table_open", table_open);
    ("tbody_open", table_part); ("tbody_close", table_part);
    ("thead_open", table_part); ("thead_close", table_part);
    ("tr_open", table_part); ("tr_close", table_part);
    ("th_open", table_part); ("th_close", table_part);
    ("td_open", table_part); ("td_close", table_part);
    ("table_close", table_part);
    ("fence", fence); ("code_block", code_block);
    ("hr", hr);
    ("blockquote_open", blockquote_open);
    ("blockquote_close", blockquote_close) ]%string.

Fixpoint lookupKind (tbl : list (string * TokenKind)) (ty : jsstring)
  : TokenKind :=
  match tbl with
  | [] => unhandled
  | (name, k) :: tbl' => if jseqb ty (js name) then k else lookupKind tbl' ty
  end.

(** Which [case] label a [token.type] selects; [unhandled] is [default]. *)
Definition kindOf (ty : jsstring) : TokenKind := lookupKind kindTable ty.

(** ** markdownParser.ts *)

(** [attrs.find(attr => attr[0] === 'href')] *)
Fixpoint findHref (l : list (jsstring * jsstring)) : option (jsstring * jsstring) :=
  match l with
  | [] => None
  | a :: l' => if jseqb (fst a) (js "href") then Some a else findHref l'
  end.

Definition getLinkHref (token : Token) : option jsstring :=
  if negb (jseqb (type token) (js "link_open")) then None
  else match attrs token with
       | None => None
       | Some l => match findHref l with
                   | Some a => Some (snd a)
                   | None => None
                   end
       end.

(** [tag.match(/h(\d)/)] followed by [parseInt(match[1], 10)]: the first
    [h] that a digit follows, and the value of that digit. *)
Fixpoint matchHDigit (s : jsstring) : option Z :=
  match s with
  | c :: s' =>
      match s' with
      | d :: _ =>
          if (c =? 104)%N && isDigit d then Some (Z.of_N d - 48)
          else matchHDigit s'
      | [] => None
      end
  | [] => None
  end.

Definition getHeadingLevel (token : Token) : option Z :=
  if negb (startsWith (type token) (js "heading_")) then None
  else matchHDigit (tag token).

(** ** Requests of the Google Docs API (the fields the converter writes) *)

Record Location := { index : Z; location_tabId : option jsstring }.

Record Range := {
  range_startIndex : Z;
  range_endIndex : Z;
  range_tabId : option jsstring
}.

(** An RGB colour with 8-bit channels, as [hexToRgbColor] reads it from a
    hexadecimal colour string. *)
Record RgbColor := { red : N; green : N; blue : N }.

Record TextStyle := {
  ts_bold : option bool;
  ts_italic : option bool;
  ts_underline : option bool;
  ts_strikethrough : option bool;
  ts_fontSize : option Z;
  ts_weightedFontFamily : option jsstring;
  ts_foregroundColor : option RgbColor;
  ts_backgroundColor : option RgbColor;
  ts_link : option jsstring
}.

(** The bottom border of a horizontal rule: colour in hundredths of the
    full channel (0.75 is 75), width and padding in points. *)
Record BorderBottom := {
  border_rgb : Z * Z * Z;
  border_width : Z;
  border_padding : Z;
  border_dashStyle : jsstring
}.

Record ParagraphStyle := {
  ps_alignment : option jsstring;
  ps_indentStart : option Z;
  ps_indentEnd : option Z;
  ps_spaceAbove : option Z;
  ps_spaceBelow : option Z;
  ps_namedStyleType : option jsstring;
  ps_keepWithNext : option bool;
  ps_borderBottom : option BorderBottom
}.

Inductive BulletPreset :=
| NUMBERED_DECIMAL_ALPHA_ROMAN
| BULLET_DISC_CIRCLE_SQUARE
| BULLET_CHECKBOX.

Inductive Request :=
| insertTextRequest (location : Location) (text : jsstring)
| updateTextStyle (range : Range) (textStyle : TextStyle) (fields : jsstring)
| updateParagraphStyle (range : Range) (paragraphStyle : ParagraphStyle)
    (fields : jsstring)
| createParagraphBullets (range : Range) (bulletPreset : BulletPreset).

(** ** Errors *)

(** The classes of the values the converter and its helpers throw. *)
Inductive JsError :=
| MarkdownConversionError (message : jsstring)
| UserError (message : jsstring)
| TypeError (message : jsstring).

Definition Result (A : Type) : Type := JsError + A.
Definition Ok {A} (a : A) : Result A := inr a.
Definition Throw {A} (e : JsError) : Result A := inl e.

Definition bind {A B} (r : Result A) (k : A -> Result B) : Result B :=
  match r with
  | inl e => inl e
  | inr a => k a
  end.

Notation "'let!' x ':=' r 'in' k" := (bind r (fun x => k))
  (at level 10, x name, r at level 100, k at level 200).

(** [error.message] *)
Definition errorMessage (e : JsError) : jsstring :=
  match e with
  | MarkdownConversionError m | UserError m | TypeError m => m
  end.

(** The class of an error, what [instanceof] and [error.name] observe. *)
Inductive ErrorClass := MarkdownConversionErrorClass | UserErrorClass | TypeErrorClass.

Definition errorClass (e : JsError) : ErrorClass :=
  match e with
  | MarkdownConversionError _ => MarkdownConversionErrorClass
  | UserError _ => UserErrorClass
  | TypeError _ => TypeErrorClass
  end.

(** ** googleDocsApiHelpers.ts: the style request builders *)

Record TextStyleArgs := {
  arg_bold : option bool;
  arg_italic : option bool;
  arg_underline : option bool;
  arg_strikethrough : option bool;
  arg_fontSize : option Z;
  arg_fontFamily : option jsstring;
  arg_foregroundColor : option jsstring;
  arg_backgroundColor : option jsstring;
  arg_linkUrl : option jsstring
}.

Record ParagraphStyleArgs := {
  arg_alignment : option jsstring;
  arg_indentStart : option Z;
  arg_indentEnd : option Z;
  arg_spaceAbove : option Z;
  arg_spaceBelow : option Z;
  arg_namedStyleType : option jsstring;
  arg_keepWithNext : option bool
}.

(** [if (x !== undefined) fieldsToUpdate.push(name)] *)
Definition field {A} (x : option A) (name : string) : list jsstring :=
  match x with Some _ => [js name] | None => [] end.

(** [if (tabId) range.tabId = tabId]: an empty tab id is dropped. *)
Definition keepTabId (tabId : option jsstring) : option jsstring :=
  match tabId with
  | Some t => if truthy t then Some t else None
  | None => None
  end.

Section Helpers.

(** [hexToRgbColor] of [types.ts], which returns [null] on a string that is
    not a hexadecimal colour. *)
Variable hexToRgbColor : jsstring -> option RgbColor.

Definition parseColor (what : string) (hex : option jsstring)
  : Result (option RgbColor) :=
  match hex with
  | None => Ok None
  | Some h =>
      match hexToRgbColor h with
      | Some rgb => Ok (Some rgb)
      | None =>
          Throw (UserError (js "Invalid " ++ js what
                              ++ js " hex color format: " ++ h))
      end
  end.

Definition buildUpdateTextStyleRequest (startIndex endIndex : Z)
    (style : TextStyleArgs) (tabId : option jsstring)
  : Result (option (Request * list jsstring)) :=
  let! fg := parseColor "foreground" (arg_foregroundColor style) in
  let! bg := parseColor "background" (arg_backgroundColor style) in
  let textStyle :=
    {| ts_bold := arg_bold style;
       ts_italic := arg_italic style;
       ts_underline := arg_underline style;
       ts_strikethrough := arg_strikethrough style;
       ts_fontSize := arg_fontSize style;
       ts_weightedFontFamily := arg_fontFamily style;
       ts_foregroundColor := fg;
       ts_backgroundColor := bg;
       ts_link := arg_linkUrl style |} in
  let fieldsToUpdate :=
    field (arg_bold style) "bold" ++ field (arg_italic style) "italic"
    ++ field (arg_underline style) "underline"
    ++ field (arg_strikethrough style) "strikethrough"
    ++ field (arg_fontSize style) "fontSize"
    ++ field (arg_fontFamily style) "weightedFontFamily"
    ++ field (arg_foregroundColor style) "foregroundColor"
    ++ field (arg_backgroundColor style) "backgroundColor"
    ++ field (arg_linkUrl style) "link" in
  match fieldsToUpdate with
  | [] => Ok None
  | _ =>
      let range := {| range_startIndex := startIndex;
                      range_endIndex := endIndex;
                      range_tabId := keepTabId tabId |} in
      Ok (Some (updateTextStyle range textStyle (join (js ",") fieldsToUpdate),
                fieldsToUpdate))
  end.

End Helpers.

Definition buildUpdateParagraphStyleRequest (startIndex endIndex : Z)
    (style : ParagraphStyleArgs) (tabId : option jsstring)
  : option (Request * list jsstring) :=
  let paragraphStyle :=
    {| ps_alignment := arg_alignment style;
       ps_indentStart := arg_indentStart style;
       ps_indentEnd := arg_indentEnd style;
       ps_spaceAbove := arg_spaceAbove style;
       ps_spaceBelow := arg_spaceBelow style;
       ps_namedStyleType := arg_namedStyleType style;
       ps_keepWithNext := arg_keepWithNext style;
       ps_borderBottom := None |} in
  let fieldsToUpdate :=
    field (arg_alignment style) "alignment"
    ++ field (arg_indentStart style) "indentStart"
    ++ field (arg_indentEnd style) "indentEnd"
    ++ field (arg_spaceAbove style) "spaceAbove"
    ++ field (arg_spaceBelow style) "spaceBelow"
    ++ field (arg_namedStyleType style) "namedStyleType"
    ++ field (arg_keepWithNext style) "keepWithNext" in
  match fieldsToUpdate with
  | [] => None
  | _ =>
      let range := {| range_startIndex := startIndex;
                      range_endIndex := endIndex;
                      range_tabId := keepTabId tabId |} in
      Some (updateParagraphStyle range paragraphStyle
              (join (js ",") fieldsToUpdate), fieldsToUpdate)
  end.

(** ** markdownToGoogleDocs.ts: internal types *)

Record FormattingState := {
  bold : option bool;
  italic : option bool;
  strikethrough : option bool;
  link : option jsstring;
  code : option bool
}.

Definition noFormatting : FormattingState :=
  {| bold := None; italic := None; strikethrough := None;
     link := None; code := None |}.

Record TextRange := {
  startIndex : Z;
  endIndex : Z;
  formatting : FormattingState
}.

Record ParagraphRange := {
  para_startIndex : Z;
  para_endIndex : Z;
  namedStyleType : option jsstring
}.

Inductive ListType := bullet | ordered.

Record ListState := { list_type : ListType; level : nat }.

Record PendingListItem := {
  item_startIndex : Z;
  item_endIndex : option Z;
  nestingLevel : nat;
  bulletPreset : BulletPreset;
  taskPrefixProcessed : bool
}.

Record HrRange := { hr_startIndex : Z; hr_endIndex : Z }.

Record ConversionContext := {
  currentIndex : Z;
  insertRequests : list Request;
  formatRequests : list Request;
  textRanges : list TextRange;
  formattingStack : list FormattingState;
  listStack : list ListState;
  paragraphRanges : list ParagraphRange;
  pendingListItems : list PendingListItem;
  openListItemStack : list nat;
  hrRanges : list HrRange;
  tabId : option jsstring;
  currentParagraphStart : option Z;
  currentHeadingLevel : option Z
}.

Definition CODE_FONT_FAMILY : jsstring := js "Roboto Mono".
Definition CODE_TEXT_HEX : jsstring := js "#188038".
Definition CODE_BACKGROUND_HEX : jsstring := js "#F1F3F4".

(** *** Assignments to the fields of the context *)

Definition set_insert (i : Z) (reqs : list Request) (c : ConversionContext) :=
  {| currentIndex := i; insertRequests := reqs;
     formatRequests := formatRequests c; textRanges := textRanges c;
     formattingStack := formattingStack c; listStack := listStack c;
     paragraphRanges := paragraphRanges c;
     pendingListItems := pendingListItems c;
     openListItemStack := openListItemStack c; hrRanges := hrRanges c;
     tabId := tabId c; currentParagraphStart := currentParagraphStart c;
     currentHeadingLevel := currentHeadingLevel c |}.

Definition set_formatRequests (v : list Request) (c : ConversionContext) :=
  {| currentIndex := currentIndex c; insertRequests := insertRequests c;
     formatRequests := v; textRanges := textRanges c;
     formattingStack := formattingStack c; listStack := listStack c;
     paragraphRanges := paragraphRanges c;
     pendingListItems := pendingListItems c;
     openListItemStack := openListItemStack c; hrRanges := hrRanges c;
     tabId := tabId c; currentParagraphStart := currentParagraphStart c;
     currentHeadingLevel := currentHeadingLevel c |}.

Definition set_textRanges (v : list TextRange) (c : ConversionContext) :=
  {| currentIndex := currentIndex c; insertRequests := insertRequests c;
     formatRequests := formatRequests c; textRanges := v;
     formattingStack := formattingStack c; listStack := listStack c;
     paragraphRanges := paragraphRanges c;
     pendingListItems := pendingListItems c;
     openListItemStack := openListItemStack c; hrRanges := hrRanges c;
     tabId := tabId c; currentParagraphStart := currentParagraphStart c;
     currentHeadingLevel := currentHeadingLevel c |}.

Definition set_formattingStack (v : list FormattingState)
    (c : ConversionContext) :=
  {| currentIndex := currentIndex c; insertRequests := insertRequests c;
     formatRequests := formatRequests c; textRanges := textRanges c;
     formattingStack := v; listStack := listStack c;
     paragraphRanges := paragraphRanges c;
     pendingListItems := pendingListItems c;
     openListItemStack := openListItemStack c; hrRanges := hrRanges c;
     tabId := tabId c; currentParagraphStart := currentParagraphStart c;
     currentHeadingLevel := currentHeadingLevel c |}.

Definition set_listStack (v : list ListState) (c : ConversionContext) :=
  {| currentIndex := currentIndex c; insertRequests := insertRequests c;
     formatRequests := formatRequests c; textRanges := textRanges c;
     formattingStack := formattingStack c; listStack := v;
     paragraphRanges := paragraphRanges c;
     pendingListItems := pendingListItems c;
     openListItemStack := openListItemStack c; hrRanges := hrRanges c;
     tabId := tabId c; currentParagraphStart := currentParagraphStart c;
     currentHeadingLevel := currentHeadingLevel c |}.

Definition set_paragraphRanges (v : list ParagraphRange)
    (c : ConversionContext) :=
  {| currentIndex := currentIndex c; insertRequests := insertRequests c;
     formatRequests := formatRequests c; textRanges := textRanges c;
     formattingStack := formattingStack c; listStack := listStack c;
     paragraphRanges := v;
     pendingListItems := pendingListItems c;
     openListItemStack := openListItemStack c; hrRanges := hrRanges c;
     tabId := tabId c; currentParagraphStart := currentParagraphStart c;
     currentHeadingLevel := currentHeadingLevel c |}.

Definition set_pendingListItems (v : list PendingListItem)
    (c : ConversionContext) :=
  {| currentIndex := currentIndex c; insertRequests := insertRequests c;
     formatRequests := formatRequests c; textRanges := textRanges c;
     formattingStack := formattingStack c; listStack := listStack c;
     paragraphRanges := paragraphRanges c;
     pendingListItems := v;
     openListItemStack := openListItemStack c; hrRanges := hrRanges c;
     tabId := tabId c; currentParagraphStart := currentParagraphStart c;
     currentHeadingLevel := currentHeadingLevel c |}.

Definition set_openListItemStack (v : list nat) (c : ConversionContext) :=
  {| currentIndex := currentIndex c; insertRequests := insertRequests c;
     formatRequests := formatRequests c; textRanges := textRanges c;
     formattingStack := formattingStack c; listStack := listStack c;
     paragraphRanges := paragraphRanges c;
     pendingListItems := pendingListItems c;
     openListItemStack := v; hrRanges := hrRanges c;
     tabId := tabId c; currentParagraphStart := currentParagraphStart c;
     currentHeadingLevel := currentHeadingLevel c |}.

Definition set_hrRanges (v : list HrRange) (c : ConversionContext) :=
  {| currentIndex := currentIndex c; insertRequests := insertRequests c;
     formatRequests := formatRequests c; textRanges := textRanges c;
     formattingStack := formattingStack c; listStack := listStack c;
     paragraphRanges := paragraphRanges c;
     pendingListItems := pendingListItems c;
     openListItemStack := openListItemStack c; hrRanges := v;
     tabId := tabId c; currentParagraphStart := currentParagraphStart c;
     currentHeadingLevel := currentHeadingLevel c |}.

Definition set_currentParagraphStart (v : option Z) (c : ConversionContext) :=
  {| currentIndex := currentIndex c; insertRequests := insertRequests c;
     formatRequests := formatRequests c; textRanges := textRanges c;
     formattingStack := formattingStack c; listStack := listStack c;
     paragraphRanges := paragraphRanges c;
     pendingListItems := pendingListItems c;
     openListItemStack := openListItemStack c; hrRanges := hrRanges c;
     tabId := tabId c; currentParagraphStart := v;
     currentHeadingLevel := currentHeadingLevel c |}.

Definition set_currentHeadingLevel (v : option Z) (c : ConversionContext) :=
  {| currentIndex := currentIndex c; insertRequests := insertRequests c;
     formatRequests := formatRequests c; textRanges := textRanges c;
     formattingStack := formattingStack c; listStack := listStack c;
     paragraphRanges := paragraphRanges c;
     pendingListItems := pendingListItems c;
     openListItemStack := openListItemStack c; hrRanges := hrRanges c;
     tabId := tabId c; currentParagraphStart := currentParagraphStart c;
     currentHeadingLevel := v |}.

Definition set_endIndex (v : option Z) (it : PendingListItem) :=
  {| item_startIndex := item_startIndex it; item_endIndex := v;
     nestingLevel := nestingLevel it; bulletPreset := bulletPreset it;
     taskPrefixProcessed := taskPrefixProcessed it |}.

Definition set_bulletPreset (v : BulletPreset) (it : PendingListItem) :=
  {| item_startIndex := item_startIndex it; item_endIndex := item_endIndex it;
     nestingLevel := nestingLevel it; bulletPreset := v;
     taskPrefixProcessed := taskPrefixProcessed it |}.

Definition set_taskPrefixProcessed (v : bool) (it : PendingListItem) :=
  {| item_startIndex := item_startIndex it; item_endIndex := item_endIndex it;
     nestingLevel := nestingLevel it; bulletPreset := bulletPreset it;
     taskPrefixProcessed := v |}.

(** ** markdownToGoogleDocs.ts: helpers on the context *)

Definition insertText (text : jsstring) (context : ConversionContext)
  : ConversionContext :=
  let location := {| index := currentIndex context;
                     location_tabId := keepTabId (tabId context) |} in
  set_insert (currentIndex context + jslength text)
    (insertRequests context ++ [insertTextRequest location text]) context.

(** [context.insertRequests[length - 1]?.insertText?.text] *)
Definition lastInsert (context : ConversionContext) : option jsstring :=
  match last (insertRequests context) with
  | Some (insertTextRequest _ t) => Some t
  | _ => None
  end.

Definition lastInsertEndsWithNewline (context : ConversionContext) : bool :=
  match lastInsert context with
  | Some t => truthy t && endsWith t [LF]
  | None => false
  end.

Definition lastInsertEndsWithDoubleNewline (context : ConversionContext)
  : bool :=
  match lastInsert context with
  | Some t => truthy t && endsWith t [LF; LF]
  | None => false
  end.

(** The open list item is returned with its index in [pendingListItems]:
    the source returns a reference to the array element, and the handlers
    assign to its fields. *)
Definition getCurrentOpenListItem (context : ConversionContext)
  : option (nat * PendingListItem) :=
  match last (openListItemStack context) with
  | None => None
  | Some openIndex =>
      match pendingListItems context !! openIndex with
      | Some listItem => Some (openIndex, listItem)
      | None => None
      end
  end.

(** An assignment through the reference to [pendingListItems[openIndex]]. *)
Definition storeListItem (openIndex : nat) (listItem : PendingListItem)
    (context : ConversionContext) : ConversionContext :=
  set_pendingListItems (<[openIndex := listItem]> (pendingListItems context))
    context.

(** *** Formatting stack management *)

Definition override {A} (new old : option A) : option A :=
  match new with Some _ => new | None => old end.

(** One round of the loop of [mergeFormattingStack]. *)
Definition mergeState (merged state : FormattingState) : FormattingState :=
  {| bold := override (bold state) (bold merged);
     italic := override (italic state) (italic merged);
     strikethrough := override (strikethrough state) (strikethrough merged);
     link := override (link state) (link merged);
     code := override (code state) (code merged) |}.

Definition mergeFormattingStack (stack : list FormattingState)
  : FormattingState :=
  fold_left mergeState stack noFormatting.

Definition isTrue (b : option bool) : bool :=
  match b with Some true => true | _ => false end.

Definition isDefined {A} (x : option A) : bool :=
  match x with Some _ => true | None => false end.

Definition hasFormatting (formatting : FormattingState) : bool :=
  isTrue (bold formatting) || isTrue (italic formatting)
  || isTrue (strikethrough formatting) || isTrue (code formatting)
  || isDefined (link formatting).

(** [keyof FormattingState] *)
Inductive FormattingKey := key_bold | key_italic | key_strikethrough
                         | key_link | key_code.

(** [state[type] !== undefined] *)
Definition definesKey (key : FormattingKey) (state : FormattingState) : bool :=
  match key with
  | key_bold => isDefined (bold state)
  | key_italic => isDefined (italic state)
  | key_strikethrough => isDefined (strikethrough state)
  | key_link => isDefined (link state)
  | key_code => isDefined (code state)
  end.

(** Removes the first element that satisfies [p]. *)
Fixpoint removeFirst {A} (p : A -> bool) (l : list A) : list A :=
  match l with
  | [] => []
  | x :: l' => if p x then l' else x :: removeFirst p l'
  end.

(** The loop of [popFormatting] walks the stack from its last index down
    and splices out the first state it finds with the key defined. *)
Definition popFormatting (context : ConversionContext) (key : FormattingKey)
  : ConversionContext :=
  set_formattingStack
    (rev (removeFirst (definesKey key) (rev (formattingStack context))))
    context.

Definition pushFormatting (state : FormattingState)
    (context : ConversionContext) : ConversionContext :=
  set_formattingStack (formattingStack context ++ [state]) context.

(** ** Heading handlers *)

(** Truthiness of a number that may be absent. *)
Definition truthyNumber (n : option Z) : bool :=
  match n with Some v => negb (v =? 0) | None => false end.

(** The decimal text of an integer, as a template literal prints it. *)
Definition numberToString (n : Z) : jsstring :=
  js (NilEmpty.string_of_int (Z.to_int n)).

Definition handleHeadingOpen (token : Token) (context : ConversionContext)
  : ConversionContext :=
  let level := getHeadingLevel token in
  if truthyNumber level then
    set_currentParagraphStart (Some (currentIndex context))
      (set_currentHeadingLevel level context)
  else context.

Definition handleHeadingClose (context : ConversionContext)
  : ConversionContext :=
  match currentHeadingLevel context, currentParagraphStart context with
  | Some headingLevel, Some paragraphStart =>
      if truthyNumber (Some headingLevel) then
        let headingStyleType := js "HEADING_" ++ numberToString headingLevel in
        let context :=
          set_paragraphRanges
            (paragraphRanges context
               ++ [{| para_startIndex := paragraphStart;
                      para_endIndex := currentIndex context;
                      namedStyleType := Some headingStyleType |}]) context in
        let context := insertText [LF] context in
        set_currentParagraphStart None (set_currentHeadingLevel None context)
      else context
  | _, _ => context
  end.

(** ** Horizontal rule handler *)

Definition handleHorizontalRule (context : ConversionContext)
  : ConversionContext :=
  let context :=
    if negb (lastInsertEndsWithNewline context) then insertText [LF] context
    else context in
  let start := currentIndex context in
  let context := insertText [LF] context in
  set_hrRanges
    (hrRanges context
       ++ [{| hr_startIndex := start; hr_endIndex := currentIndex context |}])
    context.

(** ** Paragraph handlers *)

Definition handleParagraphOpen (context : ConversionContext)
  : ConversionContext :=
  match listStack context with
  | [] => set_currentParagraphStart (Some (currentIndex context)) context
  | _ => context
  end.

Definition handleParagraphClose (context : ConversionContext)
  : ConversionContext :=
  let context :=
    match listStack context with
    | [] => insertText [LF; LF] context
    | _ => if negb (lastInsertEndsWithNewline context)
           then insertText [LF] context else context
    end in
  let context :=
    match getCurrentOpenListItem context with
    | Some (openIndex, currentListItem) =>
        let paragraphEndIndex :=
          if lastInsertEndsWithNewline context
          then currentIndex context - 1 else currentIndex context in
        if item_startIndex currentListItem <? paragraphEndIndex then
          storeListItem openIndex
            (set_endIndex (Some paragraphEndIndex) currentListItem) context
        else context
    | None => context
    end in
  set_currentParagraphStart None context.

(** ** List handlers *)

Definition handleListItemOpen (context : ConversionContext)
  : Result ConversionContext :=
  match last (listStack context) with
  | None =>
      Throw (MarkdownConversionError
               (js "List item found outside of list context"))
  | Some currentList =>
      let itemStart := currentIndex context in
      let context :=
        if (0 <? level currentList)%nat
        then insertText (repeatUnit TAB (level currentList)) context
        else context in
      let listItem :=
        {| item_startIndex := itemStart;
           item_endIndex := None;
           nestingLevel := level currentList;
           bulletPreset :=
             match list_type currentList with
             | ordered => NUMBERED_DECIMAL_ALPHA_ROMAN
             | bullet => BULLET_DISC_CIRCLE_SQUARE
             end;
           taskPrefixProcessed := false |} in
      let context :=
        set_pendingListItems (pendingListItems context ++ [listItem])
          context in
      Ok (set_openListItemStack
            (openListItemStack context
               ++ [(length (pendingListItems context) - 1)%nat]) context)
  end.

Definition handleListItemClose (context : ConversionContext)
  : Result ConversionContext :=
  match last (openListItemStack context) with
  | None => Ok context
  | Some openIndex =>
      let context :=
        set_openListItemStack (removelast (openListItemStack context))
          context in
      match pendingListItems context !! openIndex with
      | None =>
          Throw (TypeError
                   (js "Cannot read properties of undefined (reading 'endIndex')"))
      | Some listItem =>
          let context :=
            match item_endIndex listItem with
            | None =>
                let computedEndIndex :=
                  if lastInsertEndsWithNewline context
                  then currentIndex context - 1 else currentIndex context in
                if item_startIndex listItem <? computedEndIndex then
                  storeListItem openIndex
                    (set_endIndex (Some computedEndIndex) listItem) context
                else context
            | Some _ => context
            end in
          Ok (if negb (lastInsertEndsWithNewline context)
              then insertText [LF] context else context)
      end
  end.

(** ** Text handling *)

(** [text.match(/^\[( |x|X)\]\s+/)]: the length of the match, if any. The
    bracket is unit 91, the closing one 93; [\s+] is greedy. *)
Definition matchTaskPrefix (text : jsstring) : option nat :=
  match text with
  | 91%N :: mark :: 93%N :: space :: rest =>
      if ((mark =? 32) || (mark =? 120) || (mark =? 88))%N
         && isWhiteSpace space
      then Some (4 + length (takeWhile isWhiteSpace rest))%nat
      else None
  | _ => None
  end.

(** The tail of [handleTextToken], from [const startIndex] on: the text is
    inserted and its range recorded with the merged formatting. *)
Definition insertFormattedText (text : jsstring) (context : ConversionContext)
  : ConversionContext :=
  let startIndex := currentIndex context in
  let endIndex := startIndex + jslength text in
  let context := insertText text context in
  let currentFormatting := mergeFormattingStack (formattingStack context) in
  if hasFormatting currentFormatting then
    set_textRanges
      (textRanges context
         ++ [{| startIndex := startIndex; endIndex := endIndex;
                formatting := currentFormatting |}]) context
  else context.

Definition handleTextToken (token : Token) (context : ConversionContext)
  : ConversionContext :=
  let text := content token in
  if negb (truthy text) then context
  else
    match getCurrentOpenListItem context with
    | Some (openIndex, currentListItem) =>
        if negb (taskPrefixProcessed currentListItem) then
          let currentListItem := set_taskPrefixProcessed true currentListItem in
          match matchTaskPrefix text with
          | Some matched =>
              let currentListItem :=
                set_bulletPreset BULLET_CHECKBOX currentListItem in
              let context := storeListItem openIndex currentListItem context in
              let text := drop matched text in
              if negb (truthy text) then context
              else insertFormattedText text context
          | None =>
              insertFormattedText text
                (storeListItem openIndex currentListItem context)
          end
        else insertFormattedText text context
    | None => insertFormattedText text context
    end.

Definition codeFormatting : FormattingState :=
  {| bold := None; italic := None; strikethrough := None;
     link := None; code := Some true |}.

Definition handleCodeInlineToken (token : Token) (context : ConversionContext)
  : ConversionContext :=
  let context := pushFormatting codeFormatting context in
  let context := handleTextToken token context in
  popFormatting context key_code.

(** One round of the [for (const line of lines)] loop. *)
Definition insertCodeLine (context : ConversionContext) (line : jsstring)
  : ConversionContext :=
  let startIndex := currentIndex context in
  let context :=
    match line with
    | _ :: _ => insertText line context
    | [] => insertText (js " ") context
    end in
  let context :=
    set_textRanges
      (textRanges context
         ++ [{| startIndex := startIndex; endIndex := currentIndex context;
                formatting := codeFormatting |}]) context in
  insertText [LF] context.

Definition handleCodeBlockToken (token : Token) (context : ConversionContext)
  : ConversionContext :=
  let normalizedContent :=
    if endsWith (content token) [LF] then removelast (content token)
    else content token in
  let lines :=
    match normalizedContent with
    | _ :: _ => splitLines normalizedContent
    | [] => [[]]
    end in
  let context := fold_left insertCodeLine lines context in
  if negb (lastInsertEndsWithDoubleNewline context)
  then insertText [LF] context else context.

(** ** Token processing *)

Definition boldFormatting : FormattingState :=
  {| bold := Some true; italic := None; strikethrough := None;
     link := None; code := None |}.

Definition italicFormatting : FormattingState :=
  {| bold := None; italic := Some true; strikethrough := None;
     link := None; code := None |}.

Definition strikethroughFormatting : FormattingState :=
  {| bold := None; italic := None; strikethrough := Some true;
     link := None; code := None |}.

Definition linkFormatting (href : jsstring) : FormattingState :=
  {| bold := None; italic := None; strikethrough := None;
     link := Some href; code := None |}.

Definition pushList (ty : ListType) (context : ConversionContext)
  : ConversionContext :=
  set_listStack
    (listStack context
       ++ [{| list_type := ty; level := length (listStack context) |}])
    context.

Definition popList (context : ConversionContext) : ConversionContext :=
  set_listStack (removelast (listStack context)) context.

(** The [switch] of [processToken]. The labels from [tbody_open] to
    [table_close] carry no statement and no [break], so they fall through
    to the statement of [fence] and [code_block]. *)
Fixpoint processToken (token : Token) (context : ConversionContext)
  {struct token} : Result ConversionContext :=
  match kindOf (type token) with
  | heading_open => Ok (handleHeadingOpen token context)
  | heading_close => Ok (handleHeadingClose context)
  | paragraph_open => Ok (handleParagraphOpen context)
  | paragraph_close => Ok (handleParagraphClose context)
  | text => Ok (handleTextToken token context)
  | code_inline => Ok (handleCodeInlineToken token context)
  | strong_open => Ok (pushFormatting boldFormatting context)
  | strong_close => Ok (popFormatting context key_bold)
  | em_open => Ok (pushFormatting italicFormatting context)
  | em_close => Ok (popFormatting context key_italic)
  | s_open => Ok (pushFormatting strikethroughFormatting context)
  | s_close => Ok (popFormatting context key_strikethrough)
  | link_open =>
      match getLinkHref token with
      | Some href =>
          if truthy href
          then Ok (pushFormatting (linkFormatting href) context)
          else Ok context
      | None => Ok context
      end
  | link_close => Ok (popFormatting context key_link)
  | bullet_list_open => Ok (pushList bullet context)
  | bullet_list_close => Ok (popList context)
  | ordered_list_open => Ok (pushList ordered context)
  | ordered_list_close => Ok (popList context)
  | list_item_open => handleListItemOpen context
  | list_item_close => handleListItemClose context
  | softbreak => Ok (insertText (js " ") context)
  | hardbreak => Ok (insertText [LF] context)
  | inline =>
      match token with
      | mkToken _ _ _ _ (Some children) =>
          (fix each (children : list Token) (context : ConversionContext)
             : Result ConversionContext :=
             match children with
             | [] => Ok context
             | child :: rest =>
                 let! context := processToken child context in
                 each rest context
             end) children context
      | mkToken _ _ _ _ None => Ok context
      end
  | table_open => Ok context
  | table_part | fence | code_block => Ok (handleCodeBlockToken token context)
  | hr => Ok (handleHorizontalRule context)
  | blockquote_open | blockquote_close => Ok context
  | unhandled => Ok context
  end.

(** [for (const token of tokens) processToken(token, context)] *)
Fixpoint processTokens (tokens : list Token) (context : ConversionContext)
  : Result ConversionContext :=
  match tokens with
  | [] => Ok context
  | token :: rest =>
      let! context := processToken token context in
      processTokens rest context
  end.

(** ** Finalization *)

(** [list.sort((a, b) => b.startIndex - a.startIndex)]: the sort of the
    language is stable, so its result is the one of this insertion sort,
    which puts an item in front of the first item that does not start
    after it. *)
Fixpoint insertByStartDesc (a : PendingListItem) (l : list PendingListItem)
  : list PendingListItem :=
  match l with
  | [] => [a]
  | b :: l' =>
      if item_startIndex a <? item_startIndex b
      then b :: insertByStartDesc a l'
      else a :: l
  end.

Fixpoint sortByStartDesc (l : list PendingListItem) : list PendingListItem :=
  match l with
  | [] => []
  | a :: l' => insertByStartDesc a (sortByStartDesc l')
  end.

(** [listItem.endIndex !== undefined && listItem.endIndex > listItem.startIndex] *)
Definition hasRange (listItem : PendingListItem) : bool :=
  match item_endIndex listItem with
  | Some e => item_startIndex listItem <? e
  | None => false
  end.

Definition hrBorder : BorderBottom :=
  {| border_rgb := (75, 75, 75); border_width := 1; border_padding := 6;
     border_dashStyle := js "SOLID" |}.

Definition borderRequest (tab : option jsstring) (hrRange : HrRange)
  : Request :=
  updateParagraphStyle
    {| range_startIndex := hr_startIndex hrRange;
       range_endIndex := hr_endIndex hrRange;
       range_tabId := keepTabId tab |}
    {| ps_alignment := None; ps_indentStart := None; ps_indentEnd := None;
       ps_spaceAbove := None; ps_spaceBelow := None;
       ps_namedStyleType := None; ps_keepWithNext := None;
       ps_borderBottom := Some hrBorder |}
    (js "borderBottom").

Definition bulletRequest (tab : option jsstring) (listItem : PendingListItem)
  : list Request :=
  match item_endIndex listItem with
  | Some e =>
      if item_startIndex listItem <? e then
        [createParagraphBullets
           {| range_startIndex := item_startIndex listItem;
              range_endIndex := e;
              range_tabId := keepTabId tab |}
           (bulletPreset listItem)]
      else []
  | None => []
  end.

Definition paragraphRequest (tab : option jsstring) (paraRange : ParagraphRange)
  : list Request :=
  match namedStyleType paraRange with
  | Some name =>
      if truthy name then
        match buildUpdateParagraphStyleRequest
                (para_startIndex paraRange) (para_endIndex paraRange)
                {| arg_alignment := None; arg_indentStart := None;
                   arg_indentEnd := None; arg_spaceAbove := None;
                   arg_spaceBelow := None; arg_namedStyleType := Some name;
                   arg_keepWithNext := None |} tab with
        | Some paraRequest => [fst paraRequest]
        | None => []
        end
      else []
  | None => []
  end.

Definition whenCode (formatting : FormattingState) (v : jsstring)
  : option jsstring :=
  if isTrue (code formatting) then Some v else None.

Section Conversion.

Variable hexToRgbColor : jsstring -> option RgbColor.

(** The requests of one text range: the text style, then the link. *)
Definition textRangeRequests (tab : option jsstring) (range : TextRange)
  : Result (list Request) :=
  let f := formatting range in
  let! style :=
    if isTrue (bold f) || isTrue (italic f) || isTrue (strikethrough f)
       || isTrue (code f)
    then
      let! styleRequest :=
        buildUpdateTextStyleRequest hexToRgbColor
          (startIndex range) (endIndex range)
          {| arg_bold := bold f; arg_italic := italic f;
             arg_underline := None; arg_strikethrough := strikethrough f;
             arg_fontSize := None;
             arg_fontFamily := whenCode f CODE_FONT_FAMILY;
             arg_foregroundColor := whenCode f CODE_TEXT_HEX;
             arg_backgroundColor := whenCode f CODE_BACKGROUND_HEX;
             arg_linkUrl := None |} tab in
      Ok (match styleRequest with Some r => [fst r] | None => [] end)
    else Ok [] in
  let! linkStyle :=
    match link f with
    | Some url =>
        if truthy url then
          let! linkRequest :=
            buildUpdateTextStyleRequest hexToRgbColor
              (startIndex range) (endIndex range)
              {| arg_bold := None; arg_italic := None; arg_underline := None;
                 arg_strikethrough := None; arg_fontSize := None;
                 arg_fontFamily := None; arg_foregroundColor := None;
                 arg_backgroundColor := None; arg_linkUrl := Some url |} tab in
          Ok (match linkRequest with Some r => [fst r] | None => [] end)
        else Ok []
    | None => Ok []
    end in
  Ok (style ++ linkStyle).

(** The first loop of [finalizeFormatting]. *)
Fixpoint textStyleRequests (tab : option jsstring) (ranges : list TextRange)
  : Result (list Request) :=
  match ranges with
  | [] => Ok []
  | range :: rest =>
      let! here := textRangeRequests tab range in
      let! after := textStyleRequests tab rest in
      Ok (here ++ after)
  end.

Definition listItemsForFormatting (context : ConversionContext)
  : list PendingListItem :=
  sortByStartDesc (List.filter hasRange (pendingListItems context)).

Definition finalizeFormatting (context : ConversionContext)
  : Result ConversionContext :=
  let tab := tabId context in
  let! styles := textStyleRequests tab (textRanges context) in
  let paragraphs :=
    concat (List.map (paragraphRequest tab) (paragraphRanges context)) in
  let borders := List.map (borderRequest tab) (hrRanges context) in
  let bullets :=
    concat (List.map (bulletRequest tab) (listItemsForFormatting context)) in
  Ok (set_formatRequests
        (formatRequests context ++ styles ++ paragraphs ++ borders ++ bullets)
        context).

(** ** The main conversion function *)

Definition initialContext (startIndex : Z) (tabId : option jsstring)
  : ConversionContext :=
  {| currentIndex := startIndex; insertRequests := []; formatRequests := [];
     textRanges := []; formattingStack := []; listStack := [];
     paragraphRanges := []; pendingListItems := []; openListItemStack := [];
     hrRanges := []; tabId := tabId; currentParagraphStart := None;
     currentHeadingLevel := None |}.

(** The [catch] clause: a [MarkdownConversionError] is thrown again as it
    is, any other error is replaced. Every error of [JsError] is an
    instance of [Error], so its message is the one used. *)
Definition rethrow (error : JsError) : JsError :=
  match error with
  | MarkdownConversionError _ => error
  | _ =>
      MarkdownConversionError
        (js "Failed to convert markdown: " ++ errorMessage error)
  end.

(** The [try] block and its [catch]. *)
Definition convertTokens (tokens : list Token) (startIndex : Z)
    (tabId : option jsstring) : Result (list Request) :=
  let context := initialContext startIndex tabId in
  match (let! context := processTokens tokens context in
         let! context := finalizeFormatting context in
         Ok (insertRequests context ++ formatRequests context)) with
  | inr requests => Ok requests
  | inl error => Throw (rethrow error)
  end.

Variable parseMarkdown : jsstring -> list Token.

Definition convertMarkdownToRequests (markdown : jsstring) (startIndex : Z)
    (tabId : option jsstring) : Result (list Request) :=
  if negb (truthy markdown) || (length (trim markdown) =? 0)%nat then Ok []
  else convertTokens (parseMarkdown markdown) startIndex tabId.

End Conversion.

(** * Vocabulary of the properties *)

(** The leaves of a token, in the order [processToken] visits them: an
    [inline] token stands for its children, any other token for itself. *)
Fixpoint leaves (token : Token) : list Token :=
  match kindOf (type token) with
  | inline =>
      match token with
      | mkToken _ _ _ _ (Some children) =>
          (fix each (children : list Token) : list Token :=
             match children with
             | [] => []
             | child :: rest => leaves child ++ each rest
             end) children
      | mkToken _ _ _ _ None => []
      end
  | _ => [token]
  end.

Definition allLeaves (tokens : list Token) : list Token :=
  concat (List.map leaves tokens).

Definition isLeaf (token : Token) : Prop := kindOf (type token) <> inline.

(** *** Offsets *)

Definition isInsert (req : Request) : bool :=
  match req with insertTextRequest _ _ => true | _ => false end.

(** The sum of the lengths of the inserted texts of a request list. *)
Fixpoint insertedLength (reqs : list Request) : Z :=
  match reqs with
  | [] => 0
  | insertTextRequest _ t :: rest => jslength t + insertedLength rest
  | _ :: rest => insertedLength rest
  end.

(** Every insertion of the list is located at [offset] plus the lengths of
    the texts inserted before it. *)
Fixpoint insertsChained (offset : Z) (reqs : list Request) : Prop :=
  match reqs with
  | [] => True
  | insertTextRequest loc t :: rest =>
      index loc = offset /\ insertsChained (offset + jslength t) rest
  | _ :: rest => insertsChained offset rest
  end.

(** Every offset a request names lies in [[lo, hi]]. *)
Definition addressesWithin (lo hi : Z) (req : Request) : Prop :=
  match req with
  | insertTextRequest loc _ => lo <= index loc <= hi
  | updateTextStyle r _ _
  | updateParagraphStyle r _ _
  | createParagraphBullets r _ =>
      lo <= range_startIndex r <= hi /\ lo <= range_endIndex r <= hi
  end.

(** *** The invariant of the token walk that started at offset [lo] *)

Definition spanOk (lo hi a b : Z) : Prop := lo <= a /\ a <= b /\ b <= hi.

Definition itemOk (lo hi : Z) (it : PendingListItem) : Prop :=
  lo <= item_startIndex it <= hi
  /\ match item_endIndex it with
     | Some e => item_startIndex it < e < hi
     | None => True
     end.

Record wellFormed (lo : Z) (c : ConversionContext) : Prop := {
  wf_inserts : Forall (fun r => isInsert r = true) (insertRequests c);
  wf_chained : insertsChained lo (insertRequests c);
  wf_current : currentIndex c = lo + insertedLength (insertRequests c);
  wf_format : formatRequests c = [];
  wf_text :
    Forall (fun r => spanOk lo (currentIndex c) (startIndex r) (endIndex r))
      (textRanges c);
  wf_para :
    Forall (fun r => spanOk lo (currentIndex c)
                       (para_startIndex r) (para_endIndex r))
      (paragraphRanges c);
  wf_hr :
    Forall (fun r => spanOk lo (currentIndex c)
                       (hr_startIndex r) (hr_endIndex r)) (hrRanges c);
  wf_items : Forall (itemOk lo (currentIndex c)) (pendingListItems c);
  wf_open :
    Forall (fun i => (i < length (pendingListItems c))%nat)
      (openListItemStack c);
  wf_start :
    forall p, currentParagraphStart c = Some p -> lo <= p <= currentIndex c
}.

(** *** Requests of the finalizer *)

Definition isBullet (req : Request) : bool :=
  match req with createParagraphBullets _ _ => true | _ => false end.

(** The range a request is applied to, for the requests that have one. *)
Definition requestRange (req : Request) : option (Z * Z) :=
  match req with
  | insertTextRequest _ _ => None
  | updateTextStyle r _ _
  | updateParagraphStyle r _ _
  | createParagraphBullets r _ => Some (range_startIndex r, range_endIndex r)
  end.

(** The first offset a request names. *)
Definition requestStart (req : Request) : Z :=
  match req with
  | insertTextRequest loc _ => index loc
  | updateTextStyle r _ _
  | updateParagraphStyle r _ _
  | createParagraphBullets r _ => range_startIndex r
  end.

(** [req] is the bullet request of the list item [it]: it covers the range
    of the item and carries its preset. *)
Definition bulletFor (tab : option jsstring) (it : PendingListItem)
    (req : Request) : Prop :=
  exists e,
    item_endIndex it = Some e /\ item_startIndex it < e
    /\ req = createParagraphBullets
               {| range_startIndex := item_startIndex it;
                  range_endIndex := e;
                  range_tabId := keepTabId tab |} (bulletPreset it).

(** Consecutive requests start at offsets that never increase. *)
Definition startsNonIncreasing (reqs : list Request) : Prop :=
  Sorted (fun q1 q2 => requestStart q2 <= requestStart q1) reqs.

(** Consecutive requests start at strictly decreasing offsets. *)
Definition startsDecreasing (reqs : list Request) : Prop :=
  Sorted (fun q1 q2 => requestStart q2 < requestStart q1) reqs.

(** The order of the items after the sort: starts never increase. *)
Definition startGe (a b : PendingListItem) : Prop :=
  item_startIndex b <= item_startIndex a.

(** [req] is a style request (neither an insertion nor a bullet) applied to
    the range [[a, b)]. *)
Definition styleOn (a b : Z) (req : Request) : Prop :=
  isInsert req = false /\ isBullet req = false
  /\ requestRange req = Some (a, b).

(** The list a successful conversion returns, given the text style
    requests [styles] of the first loop of the finalizer. *)
Definition finalRequests (styles : list Request) (c : ConversionContext)
  : list Request :=
  insertRequests c
    ++ styles
    ++ concat (List.map (paragraphRequest (tabId c)) (paragraphRanges c))
    ++ List.map (borderRequest (tabId c)) (hrRanges c)
    ++ concat (List.map (bulletRequest (tabId c)) (listItemsForFormatting c)).

(** *** Token streams of markdown-it *)

Definition token (ty : string) : Token := mkToken (js ty) [] None [] None.

Definition textToken (s : string) : Token :=
  mkToken (js "text") [] None (js s) None.

Definition inlineToken (children : list Token) : Token :=
  mkToken (js "inline") [] None [] (Some children).

Definition headingToken (ty tg : string) : Token :=
  mkToken (js ty) (js tg) None [] None.

(** The tokens of ["- - foo"]: a list item whose content is a nested list. *)
Definition tokens_nested_items : list Token :=
  [ token "bullet_list_open"; token "list_item_open";
    token "bullet_list_open"; token "list_item_open";
    token "paragraph_open"; inlineToken [textToken "foo"];
    token "paragraph_close";
    token "list_item_close"; token "bullet_list_close";
    token "list_item_close"; token "bullet_list_close" ].

(** A colour reader that accepts no string, and one that accepts all. *)
Definition rejectHex : jsstring -> option RgbColor := fun _ => None.
Definition acceptHex : jsstring -> option RgbColor :=
  fun _ => Some {| red := 0; green := 0; blue := 0 |}.

(** *** The merge of the formatting stack, as the specification words it *)

(** The value a field has in the newest fragment that defines it; the
    stack is given oldest first. *)
Fixpoint lastDefined {A} (get : FormattingState -> option A)
    (stack : list FormattingState) : option A :=
  match stack with
  | [] => None
  | fragment :: newer =>
      match lastDefined get newer with
      | Some v => Some v
      | None => get fragment
      end
  end.

(** Last writer wins, field by field. *)
Definition lastWriterWins (stack : list FormattingState) : FormattingState :=
  {| bold := lastDefined bold stack;
     italic := lastDefined italic stack;
     strikethrough := lastDefined strikethrough stack;
     link := lastDefined link stack;
     code := lastDefined code stack |}.

(** A style set with a field set to [true], or with a link. *)
Definition activeStyle (f : FormattingState) : Prop :=
  bold f = Some true \/ italic f = Some true \/ strikethrough f = Some true
  \/ code f = Some true \/ link f <> None.

(** The tokens of ["**bold text**"]: the delimiter runs leave an empty text
    token on each side of the strong pair. *)
Definition tokens_bold_text : list Token :=
  [ token "paragraph_open";
    inlineToken [ textToken ""; token "strong_open"; textToken "bold text";
                  token "strong_close"; textToken "" ];
    token "paragraph_close" ].

Definition boldOnly : TextStyle :=
  {| ts_bold := Some true; ts_italic := None; ts_underline := None;
     ts_strikethrough := None; ts_fontSize := None;
     ts_weightedFontFamily := None; ts_foregroundColor := None;
     ts_backgroundColor := None; ts_link := None |}.

Definition isTextStyle (req : Request) : bool :=
  match req with updateTextStyle _ _ _ => true | _ => false end.



(** The texts a request list inserts, in order. *)
Definition insertedTexts (reqs : list Request) : list jsstring :=
  flat_map (fun q => match q with
                     | insertTextRequest _ t => [t]
                     | _ => []
                     end) reqs.


(** The context after a bullet list and its first item have been opened
    at offset 1. *)
Definition context_fresh_item : ConversionContext :=
  Eval vm_compute in
    match processTokens [token "bullet_list_open"; token "list_item_open"]
            (initialContext 1 None) with
    | inr c => c
    | inl _ => initialContext 1 None
    end.

(** *** List nesting along the token walk *)

(** The depth of the list stack after one more leaf: an open pushes, a
    close pops, and a pop of the empty stack leaves it empty. *)
Definition listDepthStep (depth : nat) (t : Token) : nat :=
  match kindOf (type t) with
  | bullet_list_open | ordered_list_open => S depth
  | bullet_list_close | ordered_list_close => pred depth
  | _ => depth
  end.

Definition listDepth (depth : nat) (walked : list Token) : nat :=
  fold_left listDepthStep walked depth.

(** The walk over [leavesToWalk], started at list depth [depth], meets a
    [list_item_open] token while no list is open. *)
Definition meetsOrphanItem (depth : nat) (leavesToWalk : list Token) : Prop :=
  exists walked t rest,
    leavesToWalk = walked ++ t :: rest
    /\ kindOf (type t) = list_item_open
    /\ listDepth depth walked = 0%nat.

Definition orphanListItem (tokens : list Token) : Prop :=
  meetsOrphanItem 0 (allLeaves tokens).

(** The error of the caller's input. *)
Definition listItemOutsideList : JsError :=
  MarkdownConversionError (js "List item found outside of list context").

(** *** Line terminators *)

(** No insertion that ends with a line feed is directly followed by an
    insertion that is a lone line feed. *)
Definition noDoubleTerminator (texts : list jsstring) : Prop :=
  forall (i : nat) (a b : jsstring),
    texts !! i = Some a -> texts !! S i = Some b ->
    endsWith a [LF] = true -> b <> [LF].

(** The tokens after which the converter leaves a blank line: the close of
    a paragraph and the code blocks. *)
Definition spacesBlankLine (t : Token) : bool :=
  match kindOf (type t) with
  | paragraph_close | fence | code_block | table_part => true
  | _ => false
  end.

(** The tokens of a level-1 heading followed by a thematic break. *)
Definition tokens_heading_rule : list Token :=
  [ headingToken "heading_open" "h1"; inlineToken [textToken "T"];
    headingToken "heading_close" "h1"; token "hr" ].

(** The insertion of a lone line feed at the current index plus [shift]. *)
Definition lineFeedAt (shift : Z) (c : ConversionContext) : Request :=
  insertTextRequest
    {| index := currentIndex c + shift;
       location_tabId := keepTabId (tabId c) |} [LF].

(** *** End offsets of the pending list items *)

(** From [c] to [c'] every pending item keeps its place, its start and its
    end. *)
Definition endsKept (c c' : ConversionContext) : Prop :=
  forall (i : nat) (it : PendingListItem),
    pendingListItems c !! i = Some it ->
    exists it',
      pendingListItems c' !! i = Some it'
      /\ item_startIndex it' = item_startIndex it
      /\ item_endIndex it' = item_endIndex it.

(** From [c] to [c'] every pending item keeps its place and its start, and
    an end that is set stays set and does not decrease. *)
Definition endsExtended (c c' : ConversionContext) : Prop :=
  forall (i : nat) (it : PendingListItem),
    pendingListItems c !! i = Some it ->
    exists it',
      pendingListItems c' !! i = Some it'
      /\ item_startIndex it' = item_startIndex it
      /\ forall e, item_endIndex it = Some e ->
                   exists e', item_endIndex it' = Some e' /\ e <= e'.

(** The tokens of a list item with two paragraphs, ["- a"], a blank line
    and an indented ["b"], cut after the close of the first paragraph. *)
Definition tokens_item_first_paragraph : list Token :=
  [ token "bullet_list_open"; token "list_item_open";
    token "paragraph_open"; inlineToken [textToken "a"];
    token "paragraph_close" ].

Definition tokens_item_second_paragraph : list Token :=
  [ token "paragraph_open"; inlineToken [textToken "b"];
    token "paragraph_close";
    token "list_item_close"; token "bullet_list_close" ].

(** *** Contexts reached by short walks *)

Definition contextAfter (tokens : list Token) : ConversionContext :=
  match processTokens tokens (initialContext 1 None) with
  | inr c => c
  | inl _ => initialContext 1 None
  end.

(** The context at the end of the walk over [tokens_nested_items]. *)
Definition context_nested_items : ConversionContext :=
  Eval vm_compute in contextAfter tokens_nested_items.

(** The context inside a paragraph, after a strong emphasis is opened. *)
Definition context_bold_open : ConversionContext :=
  Eval vm_compute in
    contextAfter [token "paragraph_open"; token "strong_open"].

(** The context after a fenced code block with the line ["x"]. *)
Definition context_code_block : ConversionContext :=
  Eval vm_compute in
    contextAfter [mkToken (js "fence") [] None (js "x") None].

(** The scenario of the blank input: spaces, two line feeds, spaces. *)
Definition markdown_blank : jsstring := js "   " ++ [LF; LF] ++ js "   ".

(** *** Results of the scenarios *)

Definition requestsOf (hex : jsstring -> option RgbColor)
    (tokens : list Token) : list Request :=
  match convertTokens hex tokens 1 None with
  | inr reqs => reqs
  | inl _ => []
  end.

Definition requests_nested_items : list Request :=
  Eval vm_compute in requestsOf rejectHex tokens_nested_items.


Definition requests_heading_rule : list Request :=
  Eval vm_compute in requestsOf rejectHex tokens_heading_rule.

Definition requests_bold_text : list Request :=
  Eval vm_compute in requestsOf rejectHex tokens_bold_text.


Definition context_first_paragraph : ConversionContext :=
  Eval vm_compute in contextAfter tokens_item_first_paragraph.

Definition context_second_paragraph : ConversionContext :=
  Eval vm_compute in
    contextAfter (tokens_item_first_paragraph ++ tokens_item_second_paragraph).

(** The item of [context_first_paragraph]: its end is set to 2. *)
Definition item_first_paragraph : PendingListItem :=
  {| item_startIndex := 1; item_endIndex := Some 2; nestingLevel := 0;
     bulletPreset := BULLET_DISC_CIRCLE_SQUARE;
     taskPrefixProcessed := true |}.

(** The context reached by the text of [context_bold_open]. *)
Definition context_bold_text : ConversionContext :=
  Eval vm_compute in
    contextAfter [token "paragraph_open"; token "strong_open";
                  textToken "bold text"].

(** *** Order of creation and state of the task prefix check *)

(** The item starts at the offset [s]. *)
Definition startsAt (s : Z) (it : PendingListItem) : bool :=
  item_startIndex it =? s.



(** The context of [tokens_item_first_paragraph] before the close of the
    paragraph. *)
Definition context_item_text : ConversionContext :=
  Eval vm_compute in
    contextAfter [ token "bullet_list_open"; token "list_item_open";
                   token "paragraph_open"; inlineToken [textToken "a"] ].
(** * Further vocabulary *)

(** ** More invariants of the token walk *)

(** [req] inserts a text in the region [region]. *)
Definition insertsIn (region : option jsstring) (req : Request) : Prop :=
  exists i t,
    t <> []
    /\ req = insertTextRequest {| index := i; location_tabId := region |} t.

(** A style set whose link, when there is one, is not the empty string. *)
Definition linkOk (f : FormattingState) : Prop := link f <> Some [].

(** The region a request addresses. *)
Definition requestTabId (req : Request) : option jsstring :=
  match req with
  | insertTextRequest loc _ => location_tabId loc
  | updateTextStyle r _ _
  | updateParagraphStyle r _ _
  | createParagraphBullets r _ => range_tabId r
  end.

(** The spans of a list are not empty, start at [lo] or after, and each
    starts where the one before ends or after. *)
Fixpoint spansFrom (lo : Z) (spans : list TextRange) : Prop :=
  match spans with
  | [] => True
  | r :: rest =>
      lo <= startIndex r /\ startIndex r < endIndex r
      /\ spansFrom (endIndex r) rest
  end.

(** The end of the last span, [lo] when there is none. *)
Definition lastEnd (lo : Z) (spans : list TextRange) : Z :=
  match last spans with
  | Some r => endIndex r
  | None => lo
  end.

(** The name of the heading style of a level. *)
Definition headingStyle (headingLevel : Z) : jsstring :=
  js "HEADING_" ++ numberToString headingLevel.

Record tidy (lo : Z) (region : option jsstring) (c : ConversionContext)
  : Prop := {
  tidy_tabId : tabId c = region;
  tidy_inserts : Forall (insertsIn (keepTabId region)) (insertRequests c);
  tidy_levels :
    forall (i : nat) s, listStack c !! i = Some s -> level s = i;
  tidy_hr :
    Forall (fun r => hr_endIndex r = hr_startIndex r + 1) (hrRanges c);
  tidy_heading :
    forall h, currentHeadingLevel c = Some h -> 1 <= h <= 9;
  tidy_para :
    Forall (fun r => exists h, 1 <= h <= 9
                               /\ namedStyleType r = Some (headingStyle h))
      (paragraphRanges c);
  tidy_stack : Forall linkOk (formattingStack c);
  tidy_styled :
    Forall (fun r => hasFormatting (formatting r) = true
                     /\ linkOk (formatting r)) (textRanges c);
  tidy_spans : spansFrom lo (textRanges c);
  tidy_lastEnd : lastEnd lo (textRanges c) <= currentIndex c
}.

(** ** Order of the returned requests *)

(** The phase of a request in the returned list: insertions, character
    styles, named paragraph styles, borders, bullets. *)
Definition requestRank (req : Request) : nat :=
  match req with
  | insertTextRequest _ _ => 0
  | updateTextStyle _ _ _ => 1
  | updateParagraphStyle _ ps _ =>
      match ps_borderBottom ps with None => 2 | Some _ => 3 end
  | createParagraphBullets _ _ => 4
  end.

Definition rankOrdered (reqs : list Request) : Prop :=
  StronglySorted (fun a b => (requestRank a <= requestRank b)%nat) reqs.

(** ** Ranges of the character style requests *)

(** Of two requests of the list that have a range, the later one has the
    range of the earlier one or starts at its end or after. *)
Definition rangesAscending (reqs : list Request) : Prop :=
  forall (i j : nat) q1 q2 a1 b1 a2 b2,
    (i < j)%nat -> reqs !! i = Some q1 -> reqs !! j = Some q2 ->
    requestRange q1 = Some (a1, b1) -> requestRange q2 = Some (a2, b2) ->
    (a1 = a2 /\ b1 = b2) \/ b1 <= a2.

(** The offsets of the insertions of a request list, in order. *)
Definition insertIndices (reqs : list Request) : list Z :=
  flat_map (fun q => match q with
                     | insertTextRequest loc _ => [index loc]
                     | _ => []
                     end) reqs.

(** ** Code blocks *)

(** The lines [handleCodeBlockToken] walks over: the content without its
    last line feed, split at the line feeds. *)
Definition codeLines (content : jsstring) : list jsstring :=
  let normalizedContent :=
    if endsWith content [LF] then removelast content else content in
  match normalizedContent with
  | _ :: _ => splitLines normalizedContent
  | [] => [[]]
  end.

(** What is inserted for a line: the line, or a space for an empty line. *)
Definition visibleLine (line : jsstring) : jsstring :=
  match line with [] => js " " | _ => line end.

(** The spans of the lines of a code block whose first line is inserted at
    [offset]: each covers its line and leaves out the line feed after it. *)
Fixpoint codeSpans (offset : Z) (lines : list jsstring) : list TextRange :=
  match lines with
  | [] => []
  | line :: rest =>
      {| startIndex := offset;
         endIndex := offset + jslength (visibleLine line);
         formatting := codeFormatting |}
      :: codeSpans (offset + jslength (visibleLine line) + 1) rest
  end.

(** The length of what is inserted for the lines, line feeds included. *)
Fixpoint codeLength (lines : list jsstring) : Z :=
  match lines with
  | [] => 0
  | line :: rest => jslength (visibleLine line) + 1 + codeLength rest
  end.

(** * googleDocsApiHelpers.ts: batches and tabs *)

Definition MAX_BATCH_UPDATE_REQUESTS : nat := 50.

Section Batches.

(** The requests of the API, of which the converter builds four kinds. *)
Variable R : Type.

(** ['deleteContentRange' in r] *)
Variable isDeleteRequest : R -> bool.

(** ['insertText' in r || 'insertTable' in r || 'insertPageBreak' in r ||
    'insertInlineImage' in r || 'insertSectionBreak' in r] *)
Variable isInsertRequest : R -> bool.

(** [executeBatchUpdate] on a batch that is not empty: the call of the API,
    which throws when the batch is refused. *)
Variable executeBatchUpdate : list R -> option JsError.

(** [requests.slice(i, j)] *)
Definition slice (requests : list R) (i j : nat) : list R :=
  take (j - i) (drop i requests).

(** [for (let i = 0; i < requests.length; i += MAX_BATCH)
       await executeBatchUpdate(docs, documentId, requests.slice(i, i + MAX_BATCH))]
    from the index [i] on. The result is the batches passed to
    [executeBatchUpdate], in order, and the error that stopped the loop,
    if any. The loop makes at most [requests.length] rounds, since the
    index advances by 50 each round. *)
Fixpoint sendBatches (rounds i : nat) (requests : list R)
  : list (list R) * option JsError :=
  match rounds with
  | O => ([], None)
  | S rounds' =>
      if (i <? length requests)%nat then
        let batch := slice requests i (i + MAX_BATCH_UPDATE_REQUESTS) in
        match executeBatchUpdate batch with
        | Some error => ([batch], Some error)
        | None =>
            let (sent, error) :=
              sendBatches rounds' (i + MAX_BATCH_UPDATE_REQUESTS) requests in
            (batch :: sent, error)
        end
      else ([], None)
  end.

(** The loop over one kind of requests. On the empty list it makes no
    round, which is what the guard [if (deleteRequests.length > 0)] (and
    the like for the other kinds) gives. *)
Definition sendAll (requests : list R) : list (list R) * option JsError :=
  sendBatches (length requests) 0 requests.

Definition isFormatRequest (r : R) : bool :=
  negb (isDeleteRequest r) && negb (isInsertRequest r).

(** The function returns nothing; what is observed of it is the sequence
    of the calls of [executeBatchUpdate] and the error it lets through,
    which are the result here. An error of a call ends the function. *)
Definition executeBatchUpdateWithSplitting (requests : list R)
  : list (list R) * option JsError :=
  match requests with
  | [] => ([], None)
  | _ =>
      let deleteRequests := List.filter isDeleteRequest requests in
      let insertRequests := List.filter isInsertRequest requests in
      let formatRequests := List.filter isFormatRequest requests in
      match sendAll deleteRequests with
      | (sent1, Some error) => (sent1, Some error)
      | (sent1, None) =>
          match sendAll insertRequests with
          | (sent2, Some error) => (sent1 ++ sent2, Some error)
          | (sent2, None) =>
              let (sent3, error) := sendAll formatRequests in
              (sent1 ++ sent2 ++ sent3, error)
          end
      end
  end.

(** A batch the API takes: not empty, and of at most 50 requests. *)
Definition batchOk (batch : list R) : Prop :=
  batch <> [] /\ (length batch <= MAX_BATCH_UPDATE_REQUESTS)%nat.

(** The outcome of a sequence of calls: without an error every call
    succeeded; with an error the last call raised it and the calls before
    it succeeded. *)
Definition stopsAtFirstError (sent : list (list R)) (error : option JsError)
  : Prop :=
  match error with
  | None => Forall (fun batch => executeBatchUpdate batch = None) sent
  | Some e =>
      exists done batch,
        sent = done ++ [batch]
        /\ Forall (fun b => executeBatchUpdate b = None) done
        /\ executeBatchUpdate batch = Some e
  end.

End Batches.

Arguments slice {R}.
Arguments sendBatches {R}.
Arguments sendAll {R}.
Arguments isFormatRequest {R}.
Arguments executeBatchUpdateWithSplitting {R}.
Arguments batchOk {R}.
Arguments stopsAtFirstError {R}.

(** *** Tabs *)

Record TabProperties := { tp_tabId : option jsstring }.

(** A tab of a document: its properties and its child tabs. *)
#[warnings="-register-all"]
Inductive Tab : Type :=
  mkTab (tabProperties : option TabProperties) (childTabs : option (list Tab)).

Definition tabProperties (tab : Tab) : option TabProperties :=
  let (props, _) := tab in props.

Definition childTabs (tab : Tab) : option (list Tab) :=
  let (_, children) := tab in children.

Record Document := { tabs : option (list Tab) }.

(** [tab.tabProperties?.tabId === tabId] *)
Definition hasTabId (id : jsstring) (tab : Tab) : bool :=
  match tabProperties tab with
  | Some props =>
      match tp_tabId props with
      | Some t => jseqb t id
      | None => false
      end
  | None => false
  end.

(** One round of the loop of [searchTabs]. *)
Fixpoint searchTab (id : jsstring) (tab : Tab) : option Tab :=
  if hasTabId id tab then Some tab
  else
    match tab with
    | mkTab _ (Some children) =>
        (fix searchTabs (tabs : list Tab) : option Tab :=
           match tabs with
           | [] => None
           | child :: rest =>
               match searchTab id child with
               | Some found => Some found
               | None => searchTabs rest
               end
           end) children
    | mkTab _ None => None
    end.

Fixpoint searchTabs (id : jsstring) (tabs : list Tab) : option Tab :=
  match tabs with
  | [] => None
  | tab :: rest =>
      match searchTab id tab with
      | Some found => Some found
      | None => searchTabs id rest
      end
  end.

Definition findTabById (doc : Document) (id : jsstring) : option Tab :=
  match tabs doc with
  | None | Some [] => None
  | Some l => searchTabs id l
  end.

(** [addCurrentAndChildTabs]: the tab with its level, then its descendants;
    the result is what is pushed on [allTabs]. *)
Fixpoint addCurrentAndChildTabs (tab : Tab) (tabLevel : nat)
  : list (Tab * nat) :=
  (tab, tabLevel)
  :: match tab with
     | mkTab _ (Some children) =>
         (fix each (tabs : list Tab) : list (Tab * nat) :=
            match tabs with
            | [] => []
            | child :: rest =>
                addCurrentAndChildTabs child (S tabLevel) ++ each rest
            end) children
     | mkTab _ None => []
     end.

Definition getAllTabs (doc : Document) : list (Tab * nat) :=
  match tabs doc with
  | None => []
  | Some l => flat_map (fun tab => addCurrentAndChildTabs tab 0) l
  end.

(** * Translation of the offsets *)

(** The request with every offset it holds moved by [d]. *)
Definition shiftLocation (d : Z) (l : Location) : Location :=
  {| index := index l + d; location_tabId := location_tabId l |}.

Definition shiftRange (d : Z) (r : Range) : Range :=
  {| range_startIndex := range_startIndex r + d;
     range_endIndex := range_endIndex r + d;
     range_tabId := range_tabId r |}.

Definition shiftRequest (d : Z) (req : Request) : Request :=
  match req with
  | insertTextRequest l t => insertTextRequest (shiftLocation d l) t
  | updateTextStyle r ts f => updateTextStyle (shiftRange d r) ts f
  | updateParagraphStyle r ps f => updateParagraphStyle (shiftRange d r) ps f
  | createParagraphBullets r p => createParagraphBullets (shiftRange d r) p
  end.

(** The same for the records of the context. *)
Definition shiftTextRange (d : Z) (r : TextRange) : TextRange :=
  {| startIndex := startIndex r + d; endIndex := endIndex r + d;
     formatting := formatting r |}.

Definition shiftParagraphRange (d : Z) (r : ParagraphRange) : ParagraphRange :=
  {| para_startIndex := para_startIndex r + d;
     para_endIndex := para_endIndex r + d;
     namedStyleType := namedStyleType r |}.

Definition shiftOffset (d : Z) (v : option Z) : option Z :=
  match v with Some x => Some (x + d) | None => None end.

Definition shiftItem (d : Z) (it : PendingListItem) : PendingListItem :=
  {| item_startIndex := item_startIndex it + d;
     item_endIndex := shiftOffset d (item_endIndex it);
     nestingLevel := nestingLevel it; bulletPreset := bulletPreset it;
     taskPrefixProcessed := taskPrefixProcessed it |}.

Definition shiftOpenItem (d : Z) (p : nat * PendingListItem)
  : nat * PendingListItem :=
  (fst p, shiftItem d (snd p)).

Definition shiftHrRange (d : Z) (r : HrRange) : HrRange :=
  {| hr_startIndex := hr_startIndex r + d; hr_endIndex := hr_endIndex r + d |}.

Definition shiftContext (d : Z) (c : ConversionContext) : ConversionContext :=
  {| currentIndex := currentIndex c + d;
     insertRequests := List.map (shiftRequest d) (insertRequests c);
     formatRequests := List.map (shiftRequest d) (formatRequests c);
     textRanges := List.map (shiftTextRange d) (textRanges c);
     formattingStack := formattingStack c;
     listStack := listStack c;
     paragraphRanges := List.map (shiftParagraphRange d) (paragraphRanges c);
     pendingListItems := List.map (shiftItem d) (pendingListItems c);
     openListItemStack := openListItemStack c;
     hrRanges := List.map (shiftHrRange d) (hrRanges c);
     tabId := tabId c;
     currentParagraphStart := shiftOffset d (currentParagraphStart c);
     currentHeadingLevel := currentHeadingLevel c |}.

(** The result of a computation mapped, its error kept. *)
Definition mapResult {A B} (f : A -> B) (r : Result A) : Result B :=
  match r with
  | inl e => inl e
  | inr a => inr (f a)
  end.

(** * The style request builders *)

Definition noTextStyleArgs : TextStyleArgs :=
  {| arg_bold := None; arg_italic := None; arg_underline := None;
     arg_strikethrough := None; arg_fontSize := None; arg_fontFamily := None;
     arg_foregroundColor := None; arg_backgroundColor := None;
     arg_linkUrl := None |}.

Definition noParagraphStyleArgs : ParagraphStyleArgs :=
  {| arg_alignment := None; arg_indentStart := None; arg_indentEnd := None;
     arg_spaceAbove := None; arg_spaceBelow := None;
     arg_namedStyleType := None; arg_keepWithNext := None |}.

(** * Token streams with parameters *)

(** A heading of level [n] whose text is [t], as the tokenizer gives it:
    the opening token with the tag [h<n>], the text in an inline token,
    the closing token. *)
Definition headingTokens (n : Z) (t : jsstring) : list Token :=
  [ mkToken (js "heading_open") (js "h" ++ numberToString n) None [] None;
    inlineToken [mkToken (js "text") [] None t None];
    mkToken (js "heading_close") (js "h" ++ numberToString n) None [] None ].

(** A paragraph that holds one link with the text [t] and the target
    [url]. *)
Definition linkTokens (url t : jsstring) : list Token :=
  [ token "paragraph_open";
    inlineToken
      [ mkToken (js "link_open") (js "a") (Some [(js "href", url)]) [] None;
        mkToken (js "text") [] None t None;
        mkToken (js "link_close") (js "a") None [] None ];
    token "paragraph_close" ].

Definition namedStyle (name : jsstring) : ParagraphStyle :=
  {| ps_alignment := None; ps_indentStart := None; ps_indentEnd := None;
     ps_spaceAbove := None; ps_spaceBelow := None;
     ps_namedStyleType := Some name; ps_keepWithNext := None;
     ps_borderBottom := None |}.

Definition linkOnly (url : jsstring) : TextStyle :=
  {| ts_bold := None; ts_italic := None; ts_underline := None;
     ts_strikethrough := None; ts_fontSize := None;
     ts_weightedFontFamily := None; ts_foregroundColor := None;
     ts_backgroundColor := None; ts_link := Some url |}.

(** * What the walk leaves in place *)

(** From [c] to [c'] the lists of the emitted insertions and of the
    recorded ranges are extended at their end, no pending item is dropped,
    the current offset does not decrease, and the region and the format
    requests are kept. *)
Record extends (c c' : ConversionContext) : Prop := {
  kept_inserts : insertRequests c `prefix_of` insertRequests c';
  kept_textRanges : textRanges c `prefix_of` textRanges c';
  kept_paragraphRanges : paragraphRanges c `prefix_of` paragraphRanges c';
  kept_hrRanges : hrRanges c `prefix_of` hrRanges c';
  kept_items :
    (length (pendingListItems c) <= length (pendingListItems c'))%nat;
  kept_index : currentIndex c <= currentIndex c';
  kept_tabId : tabId c' = tabId c;
  kept_formatRequests : formatRequests c' = formatRequests c
}.

(** * Inputs and results of short conversions *)

Definition region_tab : option jsstring := Some (js "t.1").

(** The requests of [tokens_heading_rule] in the region [region_tab]. *)
Definition requests_in_tab : list Request :=
  Eval vm_compute in
    match convertTokens rejectHex tokens_heading_rule 1 region_tab with
    | inr reqs => reqs
    | inl _ => []
    end.

(** A list opened inside an item of a list. *)
Definition tokens_two_lists : list Token :=
  [ token "bullet_list_open"; token "list_item_open";
    token "bullet_list_open" ].

Definition context_two_lists : ConversionContext :=
  Eval vm_compute in contextAfter tokens_two_lists.

(** The context after an item is opened in [context_two_lists]. *)
Definition context_two_lists_item : ConversionContext :=
  Eval vm_compute in
    match handleListItemOpen context_two_lists with
    | inr c => c
    | inl _ => context_two_lists
    end.

(** The context at the end of the walk over [tokens_bold_text]. *)
Definition context_bold_paragraph : ConversionContext :=
  Eval vm_compute in contextAfter tokens_bold_text.

(** The batches of [requests_bold_text] when every call succeeds. *)
Definition sent_bold_text : list (list Request) :=
  Eval vm_compute in
    fst (executeBatchUpdateWithSplitting (fun _ => false) isInsert
           (fun _ => None) requests_bold_text).

(** * Properties *)

(** ** Strings *)

Lemma jslength_nonneg (s : jsstring) : 0 <= jslength s.
Proof. unfold jslength. lia. Qed.

Lemma jslength_app (s t : jsstring) :
  jslength (s ++ t) = jslength s + jslength t.
Proof. unfold jslength. rewrite length_app. lia. Qed.

Lemma dropWhile_all (f : N -> bool) (s : jsstring) :
  Forall (fun c => f c = true) s -> dropWhile f s = [].
Proof.
  induction 1 as [|c s Hc _ IH]; simpl; [reflexivity|].
  now rewrite Hc.
Qed.

Lemma trim_whitespace (s : jsstring) :
  Forall (fun c => isWhiteSpace c = true) s -> trim s = [].
Proof.
  intros H. unfold trim. now rewrite (dropWhile_all _ _ H).
Qed.

(** ** The token walk as a walk over the leaves *)

Lemma Token_nested_ind (P : Token -> Prop) :
  (forall ty tg a c, P (mkToken ty tg a c None)) ->
  (forall ty tg a c cs, Forall P cs -> P (mkToken ty tg a c (Some cs))) ->
  forall t, P t.
Proof.
  intros Hleaf Hnode. fix IH 1. intros [ty tg a c [cs|]].
  - apply Hnode. induction cs as [|t cs IHcs]; constructor.
    + apply IH.
    + exact IHcs.
  - apply Hleaf.
Qed.

Lemma processTokens_app (l1 l2 : list Token) (c : ConversionContext) :
  processTokens (l1 ++ l2) c
  = (let! c1 := processTokens l1 c in processTokens l2 c1).
Proof.
  revert c. induction l1 as [|t l1 IH]; intros c; simpl; [reflexivity|].
  destruct (processToken t c) as [e|c1]; simpl; [reflexivity|apply IH].
Qed.

Lemma leaves_isLeaf (t : Token) : Forall isLeaf (leaves t).
Proof.
  induction t as [ty tg a c|ty tg a c cs IH] using Token_nested_ind;
    simpl; destruct (kindOf ty) eqn:K;
    try (constructor; [unfold isLeaf; simpl; congruence|constructor]);
    try constructor.
  induction IH as [|t cs Ht _ IHcs]; [constructor|].
  apply Forall_app; split; assumption.
Qed.

Lemma allLeaves_isLeaf (ts : list Token) : Forall isLeaf (allLeaves ts).
Proof.
  unfold allLeaves. induction ts as [|t ts IH]; simpl; [constructor|].
  apply Forall_app; split; [apply leaves_isLeaf|exact IH].
Qed.

Lemma processToken_leaves (t : Token) (c : ConversionContext) :
  processToken t c = processTokens (leaves t) c.
Proof.
  revert c.
  induction t as [ty tg a ct|ty tg a ct cs IH] using Token_nested_ind;
    intros c; simpl; destruct (kindOf ty) eqn:K; simpl;
    try rewrite K; simpl;
    try (match goal with |- ?x = bind ?y _ => destruct y; reflexivity end);
    try reflexivity.
  revert c. induction IH as [|t cs Ht _ IHcs]; intros c; [reflexivity|].
  rewrite processTokens_app, <- Ht.
  destruct (processToken t c) as [e|c1]; simpl; [reflexivity|apply IHcs].
Qed.

Lemma processTokens_allLeaves (ts : list Token) (c : ConversionContext) :
  processTokens ts c = processTokens (allLeaves ts) c.
Proof.
  revert c. unfold allLeaves.
  induction ts as [|t ts IH]; intros c; simpl; [reflexivity|].
  rewrite processTokens_app, <- processToken_leaves.
  destruct (processToken t c) as [e|c1]; simpl; [reflexivity|apply IH].
Qed.

(** A property of the context that every leaf keeps is kept by the walk. *)
Lemma processTokens_invariant (P : ConversionContext -> Prop) :
  (forall t c c', isLeaf t -> P c -> processToken t c = Ok c' -> P c') ->
  forall ts c c', P c -> processTokens ts c = Ok c' -> P c'.
Proof.
  intros Hstep ts c c' HP. rewrite processTokens_allLeaves.
  pose proof (allLeaves_isLeaf ts) as HL. revert c HP.
  induction HL as [|t l Ht _ IH]; intros c HP; simpl.
  - intros [= <-]. exact HP.
  - destruct (processToken t c) as [e|c1] eqn:E; simpl; [discriminate|].
    apply IH. eapply Hstep; eauto.
Qed.

(** ** Offsets of the insertions *)

Lemma insertedLength_app (l1 l2 : list Request) :
  insertedLength (l1 ++ l2) = insertedLength l1 + insertedLength l2.
Proof.
  induction l1 as [|[loc t| | |] l1 IH]; simpl; lia.
Qed.

Lemma insertedLength_nonneg (l : list Request) : 0 <= insertedLength l.
Proof.
  induction l as [|[loc t| | |] l IH]; simpl;
    try pose proof (jslength_nonneg t); lia.
Qed.

Lemma insertsChained_app (lo : Z) (l1 l2 : list Request) :
  insertsChained lo (l1 ++ l2)
  <-> insertsChained lo l1 /\ insertsChained (lo + insertedLength l1) l2.
Proof.
  revert lo. induction l1 as [|[loc t| | |] l1 IH]; intros lo; simpl.
  - rewrite Z.add_0_r. tauto.
  - rewrite IH, Z.add_assoc. tauto.
  - apply IH.
  - apply IH.
  - apply IH.
Qed.

Lemma insertedLength_noInsert (l : list Request) :
  Forall (fun r => isInsert r = false) l -> insertedLength l = 0.
Proof.
  induction 1 as [|[loc t| | |] l H _ IH]; simpl in *;
    try discriminate; auto.
Qed.

Lemma insertsChained_noInsert (lo : Z) (l : list Request) :
  Forall (fun r => isInsert r = false) l -> insertsChained lo l.
Proof.
  induction 1 as [|[loc t| | |] l H _ IH]; simpl in *;
    try discriminate; auto.
Qed.

Lemma spanOk_mono (lo hi hi' a b : Z) :
  hi <= hi' -> spanOk lo hi a b -> spanOk lo hi' a b.
Proof. unfold spanOk. lia. Qed.

Lemma itemOk_mono (lo hi hi' : Z) (it : PendingListItem) :
  hi <= hi' -> itemOk lo hi it -> itemOk lo hi' it.
Proof. unfold itemOk. destruct (item_endIndex it); lia. Qed.

(** Unfolds the assignments to the context and reduces the projections. *)
Ltac ctx_simpl :=
  unfold insertText, storeListItem, pushFormatting, popFormatting,
    pushList, popList, set_insert, set_formatRequests, set_textRanges,
    set_formattingStack, set_listStack, set_paragraphRanges,
    set_pendingListItems, set_openListItemStack, set_hrRanges,
    set_currentParagraphStart, set_currentHeadingLevel in *;
  cbn [currentIndex insertRequests formatRequests textRanges formattingStack
       listStack paragraphRanges pendingListItems openListItemStack hrRanges
       tabId currentParagraphStart currentHeadingLevel] in *.

Lemma lastInsert_insertText (t : jsstring) (c : ConversionContext) :
  lastInsert (insertText t c) = Some t.
Proof. unfold lastInsert. ctx_simpl. now rewrite last_snoc. Qed.

Lemma wellFormed_insertText (lo : Z) (t : jsstring) (c : ConversionContext) :
  wellFormed lo c -> wellFormed lo (insertText t c).
Proof.
  intros [Hi Hc Hcur Hf Ht Hp Hh Hit Ho Hs].
  pose proof (jslength_nonneg t) as Hlen.
  split; ctx_simpl.
  - apply Forall_app; split; [assumption|]. now repeat constructor.
  - apply insertsChained_app. split; [assumption|]. simpl. split; [lia|exact I].
  - rewrite insertedLength_app. simpl. lia.
  - assumption.
  - eapply Forall_impl; [exact Ht|]. intros r. apply spanOk_mono. lia.
  - eapply Forall_impl; [exact Hp|]. intros r. apply spanOk_mono. lia.
  - eapply Forall_impl; [exact Hh|]. intros r. apply spanOk_mono. lia.
  - eapply Forall_impl; [exact Hit|]. intros r. apply itemOk_mono. lia.
  - assumption.
  - intros p Hp'. specialize (Hs p Hp'). lia.
Qed.

(** *** Each assignment keeps the invariant *)

Lemma wellFormed_formattingStack lo v c :
  wellFormed lo c -> wellFormed lo (set_formattingStack v c).
Proof. intros []. split; ctx_simpl; assumption. Qed.

Lemma wellFormed_listStack lo v c :
  wellFormed lo c -> wellFormed lo (set_listStack v c).
Proof. intros []. split; ctx_simpl; assumption. Qed.

Lemma wellFormed_headingLevel lo v c :
  wellFormed lo c -> wellFormed lo (set_currentHeadingLevel v c).
Proof. intros []. split; ctx_simpl; assumption. Qed.

Lemma wellFormed_noParagraphStart lo c :
  wellFormed lo c -> wellFormed lo (set_currentParagraphStart None c).
Proof. intros []. split; ctx_simpl; try assumption. discriminate. Qed.

Lemma wellFormed_current_ge lo c : wellFormed lo c -> lo <= currentIndex c.
Proof.
  intros [_ _ Hcur _ _ _ _ _ _ _].
  pose proof (insertedLength_nonneg (insertRequests c)). lia.
Qed.

Lemma wellFormed_paragraphStart lo c :
  wellFormed lo c ->
  wellFormed lo (set_currentParagraphStart (Some (currentIndex c)) c).
Proof.
  intros H. pose proof (wellFormed_current_ge _ _ H).
  destruct H. split; ctx_simpl; try assumption.
  intros p [= <-]. lia.
Qed.

Lemma wellFormed_textRange lo c r :
  wellFormed lo c ->
  spanOk lo (currentIndex c) (startIndex r) (endIndex r) ->
  wellFormed lo (set_textRanges (textRanges c ++ [r]) c).
Proof.
  intros [] Hr. split; ctx_simpl; try assumption.
  apply Forall_app; split; [assumption|]. constructor; [assumption|constructor].
Qed.

Lemma wellFormed_paragraphRange lo c r :
  wellFormed lo c ->
  spanOk lo (currentIndex c) (para_startIndex r) (para_endIndex r) ->
  wellFormed lo (set_paragraphRanges (paragraphRanges c ++ [r]) c).
Proof.
  intros [] Hr. split; ctx_simpl; try assumption.
  apply Forall_app; split; [assumption|]. constructor; [assumption|constructor].
Qed.

Lemma wellFormed_hrRange lo c r :
  wellFormed lo c ->
  spanOk lo (currentIndex c) (hr_startIndex r) (hr_endIndex r) ->
  wellFormed lo (set_hrRanges (hrRanges c ++ [r]) c).
Proof.
  intros [] Hr. split; ctx_simpl; try assumption.
  apply Forall_app; split; [assumption|]. constructor; [assumption|constructor].
Qed.

Lemma wellFormed_storeListItem lo c i it :
  wellFormed lo c -> itemOk lo (currentIndex c) it ->
  wellFormed lo (storeListItem i it c).
Proof.
  intros [] Hit. split; ctx_simpl; try assumption.
  - now apply Forall_insert.
  - now rewrite length_insert.
Qed.

Lemma Forall_removelast {A} (P : A -> Prop) (l : list A) :
  Forall P l -> Forall P (removelast l).
Proof.
  induction 1 as [|x l Hx Hl IH]; simpl; [constructor|].
  destruct l; [constructor|]. constructor; assumption.
Qed.

Lemma wellFormed_popOpen lo c :
  wellFormed lo c ->
  wellFormed lo (set_openListItemStack (removelast (openListItemStack c)) c).
Proof.
  intros []. split; ctx_simpl; try assumption.
  now apply Forall_removelast.
Qed.

Lemma wellFormed_current lo c :
  wellFormed lo c -> spanOk lo (currentIndex c) (currentIndex c) (currentIndex c).
Proof. intros H. pose proof (wellFormed_current_ge _ _ H). unfold spanOk. lia. Qed.

Lemma currentIndex_insertText t c :
  currentIndex (insertText t c) = currentIndex c + jslength t.
Proof. reflexivity. Qed.

Lemma lastInsertEndsWithNewline_LF c :
  lastInsertEndsWithNewline (insertText [LF] c) = true.
Proof.
  unfold lastInsertEndsWithNewline. now rewrite lastInsert_insertText.
Qed.

Lemma lastInsertEndsWithNewline_LFLF c :
  lastInsertEndsWithNewline (insertText [LF; LF] c) = true.
Proof.
  unfold lastInsertEndsWithNewline. now rewrite lastInsert_insertText.
Qed.

(** *** Each handler keeps the invariant *)

Lemma wellFormed_handleHeadingOpen lo t c :
  wellFormed lo c -> wellFormed lo (handleHeadingOpen t c).
Proof.
  intros H. unfold handleHeadingOpen. destruct (truthyNumber _); [|exact H].
  apply (wellFormed_paragraphStart lo (set_currentHeadingLevel _ c)).
  now apply wellFormed_headingLevel.
Qed.

Lemma wellFormed_handleHeadingClose lo c :
  wellFormed lo c -> wellFormed lo (handleHeadingClose c).
Proof.
  intros H. unfold handleHeadingClose.
  destruct (currentHeadingLevel c) as [h|]; [|exact H].
  destruct (currentParagraphStart c) as [p|] eqn:Ep; [|exact H].
  destruct (truthyNumber _); [|exact H].
  apply wellFormed_noParagraphStart, wellFormed_headingLevel,
    wellFormed_insertText, wellFormed_paragraphRange; [exact H|].
  pose proof (wf_start _ _ H p Ep). unfold spanOk. simpl. lia.
Qed.

Lemma wellFormed_handleHorizontalRule lo c :
  wellFormed lo c -> wellFormed lo (handleHorizontalRule c).
Proof.
  intros H. unfold handleHorizontalRule.
  set (c1 := if negb _ then _ else _).
  assert (H1 : wellFormed lo c1).
  { subst c1. destruct (negb _); [now apply wellFormed_insertText|exact H]. }
  clearbody c1.
  apply wellFormed_hrRange; [now apply wellFormed_insertText|].
  pose proof (wellFormed_current_ge _ _ H1).
  pose proof (jslength_nonneg [LF]). unfold spanOk. cbn. lia.
Qed.

Lemma wellFormed_handleParagraphOpen lo c :
  wellFormed lo c -> wellFormed lo (handleParagraphOpen c).
Proof.
  intros H. unfold handleParagraphOpen.
  destruct (listStack c); [now apply wellFormed_paragraphStart|exact H].
Qed.

Lemma getCurrentOpenListItem_Some c i it :
  getCurrentOpenListItem c = Some (i, it) ->
  last (openListItemStack c) = Some i /\ pendingListItems c !! i = Some it.
Proof.
  unfold getCurrentOpenListItem.
  destruct (last (openListItemStack c)) as [j|]; [|discriminate].
  destruct (pendingListItems c !! j) as [it'|] eqn:E; [|discriminate].
  intros [= <- <-]. auto.
Qed.

(** After its first statement, [handleParagraphClose] always sees a last
    insertion that ends with a line feed. *)
Lemma paragraphClose_terminated c :
  lastInsertEndsWithNewline
    match listStack c with
    | [] => insertText [LF; LF] c
    | _ => if negb (lastInsertEndsWithNewline c)
           then insertText [LF] c else c
    end = true.
Proof.
  destruct (listStack c).
  - apply lastInsertEndsWithNewline_LFLF.
  - destruct (lastInsertEndsWithNewline c) eqn:E; simpl;
      [exact E|apply lastInsertEndsWithNewline_LF].
Qed.

Lemma wellFormed_handleParagraphClose lo c :
  wellFormed lo c -> wellFormed lo (handleParagraphClose c).
Proof.
  intros H. unfold handleParagraphClose.
  pose proof (paragraphClose_terminated c) as Hnl.
  set (c1 := match listStack c with [] => _ | _ => _ end) in *.
  assert (H1 : wellFormed lo c1).
  { subst c1. destruct (listStack c); [now apply wellFormed_insertText|].
    destruct (negb _); [now apply wellFormed_insertText|exact H]. }
  clearbody c1. apply wellFormed_noParagraphStart.
  destruct (getCurrentOpenListItem c1) as [[i it]|] eqn:G; [|exact H1].
  rewrite Hnl. destruct (_ <? _) eqn:L; [|exact H1].
  apply wellFormed_storeListItem; [exact H1|].
  apply getCurrentOpenListItem_Some in G as [_ G].
  pose proof (wf_items _ _ H1) as Hit.
  rewrite Forall_lookup in Hit. specialize (Hit _ _ G).
  apply Z.ltb_lt in L. unfold itemOk in *. simpl. lia.
Qed.

Lemma wellFormed_pushItem lo c it :
  wellFormed lo c -> itemOk lo (currentIndex c) it ->
  wellFormed lo
    (set_openListItemStack
       (openListItemStack c ++ [(length (pendingListItems c ++ [it]) - 1)%nat])
       (set_pendingListItems (pendingListItems c ++ [it]) c)).
Proof.
  intros [] Hit. split; ctx_simpl; try assumption.
  - apply Forall_app; split; [assumption|]. constructor; [assumption|constructor].
  - rewrite length_app. simpl. apply Forall_app; split.
    + eapply Forall_impl; [eassumption|]. simpl. intros; lia.
    + constructor; [lia|constructor].
Qed.

Lemma wellFormed_handleListItemOpen lo c c' :
  wellFormed lo c -> handleListItemOpen c = Ok c' -> wellFormed lo c'.
Proof.
  intros H. unfold handleListItemOpen.
  destruct (last (listStack c)) as [cl|]; [|discriminate].
  intros [= <-].
  set (c1 := if (0 <? level cl)%nat then _ else c).
  assert (H1 : wellFormed lo c1 /\ currentIndex c <= currentIndex c1).
  { subst c1. destruct (_ <? _)%nat; [|split; [exact H|lia]].
    split; [now apply wellFormed_insertText|].
    rewrite currentIndex_insertText.
    pose proof (jslength_nonneg (repeatUnit TAB (level cl))). lia. }
  destruct H1 as [H1 Hle]. clearbody c1.
  apply (wellFormed_pushItem lo c1); [exact H1|].
  pose proof (wellFormed_current_ge _ _ H). unfold itemOk. simpl. lia.
Qed.

Lemma lastInsert_storeListItem i it c :
  lastInsert (storeListItem i it c) = lastInsert c.
Proof. reflexivity. Qed.

Lemma wellFormed_handleListItemClose lo c c' :
  wellFormed lo c -> handleListItemClose c = Ok c' -> wellFormed lo c'.
Proof.
  intros H. unfold handleListItemClose.
  destruct (last (openListItemStack c)) as [i|]; [|now intros [= <-]].
  apply wellFormed_popOpen in H.
  set (c1 := set_openListItemStack _ c) in *. clearbody c1.
  destruct (pendingListItems c1 !! i) as [it|] eqn:G; [|discriminate].
  intros [= <-].
  pose proof (wf_items _ _ H) as Hit.
  rewrite Forall_lookup in Hit. specialize (Hit _ _ G).
  destruct (item_endIndex it) as [e|] eqn:Ee.
  { destruct (negb _); [now apply wellFormed_insertText|exact H]. }
  destruct (lastInsertEndsWithNewline c1) eqn:Enl.
  - destruct (_ <? _) eqn:L; simpl.
    + unfold lastInsertEndsWithNewline. rewrite lastInsert_storeListItem.
      fold (lastInsertEndsWithNewline c1). rewrite Enl. simpl.
      apply wellFormed_storeListItem; [exact H|].
      apply Z.ltb_lt in L. unfold itemOk in *. simpl. lia.
    + rewrite Enl. exact H.
  - destruct (_ <? _) eqn:L; simpl.
    + unfold lastInsertEndsWithNewline. rewrite lastInsert_storeListItem.
      fold (lastInsertEndsWithNewline c1). rewrite Enl. simpl.
      apply Z.ltb_lt in L.
      pose proof (jslength_nonneg [LF]) as Hlen.
      assert (jslength [LF] = 1) as Hone by reflexivity.
      destruct H. split; ctx_simpl; try assumption.
      * apply Forall_app; split; [assumption|]. now constructor.
      * apply insertsChained_app. split; [assumption|].
        simpl. split; [lia|exact I].
      * rewrite insertedLength_app. simpl. lia.
      * eapply Forall_impl; [eassumption|]. intros r. apply spanOk_mono. lia.
      * eapply Forall_impl; [eassumption|]. intros r. apply spanOk_mono. lia.
      * eapply Forall_impl; [eassumption|]. intros r. apply spanOk_mono. lia.
      * apply Forall_insert.
        -- eapply Forall_impl; [eassumption|]. intros r. apply itemOk_mono. lia.
        -- unfold itemOk in *. simpl. lia.
      * now rewrite length_insert.
      * intros p Hp. specialize (wf_start0 p Hp). lia.
    + rewrite Enl. simpl. now apply wellFormed_insertText.
Qed.

Lemma wellFormed_insertFormattedText lo t c :
  wellFormed lo c -> wellFormed lo (insertFormattedText t c).
Proof.
  intros H. unfold insertFormattedText.
  pose proof (wellFormed_current_ge _ _ H).
  pose proof (jslength_nonneg t).
  destruct (hasFormatting _); [|now apply wellFormed_insertText].
  apply wellFormed_textRange; [now apply wellFormed_insertText|].
  unfold spanOk. cbn. lia.
Qed.

Lemma itemOk_flags lo hi it b p :
  itemOk lo hi it ->
  itemOk lo hi (set_taskPrefixProcessed b it)
  /\ itemOk lo hi (set_bulletPreset p (set_taskPrefixProcessed b it)).
Proof. unfold itemOk. simpl. tauto. Qed.

Lemma wellFormed_handleTextToken lo t c :
  wellFormed lo c -> wellFormed lo (handleTextToken t c).
Proof.
  intros H. unfold handleTextToken.
  destruct (negb (truthy _)); [exact H|].
  destruct (getCurrentOpenListItem c) as [[i it]|] eqn:G;
    [|now apply wellFormed_insertFormattedText].
  apply getCurrentOpenListItem_Some in G as [_ G].
  pose proof (wf_items _ _ H) as Hit.
  rewrite Forall_lookup in Hit. specialize (Hit _ _ G).
  destruct (negb (taskPrefixProcessed it));
    [|now apply wellFormed_insertFormattedText].
  destruct (itemOk_flags _ _ _ true BULLET_CHECKBOX Hit) as [Hf Hp].
  destruct (matchTaskPrefix _) as [n|].
  - destruct (negb (truthy _)).
    + now apply wellFormed_storeListItem.
    + now apply wellFormed_insertFormattedText, wellFormed_storeListItem.
  - now apply wellFormed_insertFormattedText, wellFormed_storeListItem.
Qed.

Lemma wellFormed_handleCodeInlineToken lo t c :
  wellFormed lo c -> wellFormed lo (handleCodeInlineToken t c).
Proof.
  intros H. unfold handleCodeInlineToken, popFormatting, pushFormatting.
  now apply wellFormed_formattingStack, wellFormed_handleTextToken,
    wellFormed_formattingStack.
Qed.

Lemma wellFormed_insertCodeLine lo c line :
  wellFormed lo c -> wellFormed lo (insertCodeLine c line).
Proof.
  intros H. unfold insertCodeLine.
  pose proof (wellFormed_current_ge _ _ H).
  apply wellFormed_insertText.
  destruct line as [|u line].
  - apply wellFormed_textRange; [now apply wellFormed_insertText|].
    assert (jslength (js " ") = 1) as Hone by reflexivity.
    unfold spanOk. cbn [startIndex endIndex]. rewrite currentIndex_insertText. lia.
  - apply wellFormed_textRange; [now apply wellFormed_insertText|].
    pose proof (jslength_nonneg (u :: line)).
    unfold spanOk. cbn [startIndex endIndex]. rewrite currentIndex_insertText. lia.
Qed.

Lemma wellFormed_handleCodeBlockToken lo t c :
  wellFormed lo c -> wellFormed lo (handleCodeBlockToken t c).
Proof.
  intros H. unfold handleCodeBlockToken.
  set (lines := match _ with [] => _ | _ => _ end). clearbody lines.
  assert (H1 : wellFormed lo (fold_left insertCodeLine lines c)).
  { revert c H. induction lines as [|l lines IH]; intros c H; simpl; [exact H|].
    now apply IH, wellFormed_insertCodeLine. }
  destruct (negb _); [now apply wellFormed_insertText|exact H1].
Qed.

(** The invariant is kept by every leaf, hence by the whole walk. *)
Lemma wellFormed_processToken lo t c c' :
  isLeaf t -> wellFormed lo c -> processToken t c = Ok c' -> wellFormed lo c'.
Proof.
  unfold isLeaf. destruct t as [ty tg a ct ch]. cbn [processToken type].
  intros L H. destruct (kindOf ty) eqn:K; try congruence;
    try (intros [= <-]);
    eauto using wellFormed_handleHeadingOpen, wellFormed_handleHeadingClose,
      wellFormed_handleParagraphOpen, wellFormed_handleParagraphClose,
      wellFormed_handleTextToken, wellFormed_handleCodeInlineToken,
      wellFormed_formattingStack, wellFormed_listStack,
      wellFormed_handleListItemOpen, wellFormed_handleListItemClose,
      wellFormed_insertText, wellFormed_handleCodeBlockToken,
      wellFormed_handleHorizontalRule.
  destruct (getLinkHref _) as [href|]; [destruct (truthy href)|];
    intros [= <-]; eauto using wellFormed_formattingStack.
Qed.

Lemma wellFormed_initialContext lo tab : wellFormed lo (initialContext lo tab).
Proof.
  split; simpl; try (now constructor); try lia; try reflexivity;
    try (intros p; discriminate).
Qed.

Lemma wellFormed_processTokens lo tab ts c :
  processTokens ts (initialContext lo tab) = Ok c -> wellFormed lo c.
Proof.
  apply (processTokens_invariant (wellFormed lo)).
  - intros t c0 c'. apply wellFormed_processToken.
  - apply wellFormed_initialContext.
Qed.

(** ** The finalizer *)

Lemma insertByStartDesc_perm a l : Permutation (insertByStartDesc a l) (a :: l).
Proof.
  induction l as [|b l IH]; simpl; [reflexivity|].
  destruct (_ <? _); [|reflexivity].
  rewrite IH. apply perm_swap.
Qed.

Lemma sortByStartDesc_perm l : Permutation (sortByStartDesc l) l.
Proof.
  induction l as [|a l IH]; simpl; [reflexivity|].
  rewrite insertByStartDesc_perm. now constructor.
Qed.

Lemma insertByStartDesc_sorted a l :
  Sorted startGe l -> Sorted startGe (insertByStartDesc a l).
Proof.
  induction 1 as [|b l Hl IH Hb]; simpl; [repeat constructor|].
  destruct (_ <? _) eqn:L.
  - constructor; [exact IH|].
    apply Z.ltb_lt in L.
    destruct Hb as [|b' l' Hb]; simpl.
    + constructor. unfold startGe. lia.
    + destruct (_ <? _) eqn:L'; constructor; [exact Hb|unfold startGe; lia].
  - apply Z.ltb_ge in L. constructor.
    + now constructor.
    + now constructor.
Qed.

Lemma sortByStartDesc_sorted l : Sorted startGe (sortByStartDesc l).
Proof.
  induction l as [|a l IH]; simpl; [constructor|].
  now apply insertByStartDesc_sorted.
Qed.

(** The sort is stable: the items that start at one offset stay in the
    order they have in the list. *)
Lemma insertByStartDesc_stable s a l :
  List.filter (startsAt s) (insertByStartDesc a l)
  = List.filter (startsAt s) (a :: l).
Proof.
  induction l as [|b l IH]; [reflexivity|].
  cbn [insertByStartDesc]. destruct (_ <? _) eqn:L; [|reflexivity].
  apply Z.ltb_lt in L.
  cbn [List.filter]. rewrite IH. cbn [List.filter]. unfold startsAt.
  destruct (Z.eqb_spec (item_startIndex a) s),
    (Z.eqb_spec (item_startIndex b) s); try reflexivity; lia.
Qed.

Lemma sortByStartDesc_stable s l :
  List.filter (startsAt s) (sortByStartDesc l) = List.filter (startsAt s) l.
Proof.
  induction l as [|a l IH]; [reflexivity|].
  cbn [sortByStartDesc]. rewrite insertByStartDesc_stable.
  cbn [List.filter]. now rewrite IH.
Qed.

Lemma bulletRequest_hasRange tab it :
  hasRange it = true ->
  exists q, bulletRequest tab it = [q] /\ bulletFor tab it q.
Proof.
  unfold hasRange, bulletRequest, bulletFor.
  destruct (item_endIndex it) as [e|]; [|discriminate].
  intros L. rewrite L. apply Z.ltb_lt in L.
  eexists. split; [reflexivity|]. exists e. auto.
Qed.

(** The bullet loop emits, item by item, the bullet request of each item
    of a list whose items all have a range. *)
Lemma bulletRequests_Forall2 tab l :
  Forall (fun it => hasRange it = true) l ->
  Forall2 (bulletFor tab) l (concat (List.map (bulletRequest tab) l)).
Proof.
  induction 1 as [|it l Hit _ IH]; simpl; [constructor|].
  destruct (bulletRequest_hasRange tab it Hit) as (q & -> & Hq).
  simpl. now constructor.
Qed.

Lemma listItemsForFormatting_hasRange c :
  Forall (fun it => hasRange it = true) (listItemsForFormatting c).
Proof.
  unfold listItemsForFormatting.
  rewrite sortByStartDesc_perm. apply List.Forall_forall.
  intros it Hin. now apply List.filter_In in Hin.
Qed.

Lemma bulletFor_start tab it q :
  bulletFor tab it q -> requestStart q = item_startIndex it /\ isBullet q = true.
Proof. intros (e & _ & _ & ->). auto. Qed.

Lemma bullets_sorted tab l qs :
  Sorted startGe l -> Forall2 (bulletFor tab) l qs -> startsNonIncreasing qs.
Proof.
  unfold startsNonIncreasing. intros Hs HF. revert Hs.
  induction HF as [|it q l qs Hq HF IH]; intros Hs; [constructor|].
  inversion Hs as [|? ? Hl Hhd]; subst.
  constructor; [now apply IH|].
  destruct HF as [|it' q' l' qs' Hq' _]; constructor.
  inversion Hhd; subst.
  apply bulletFor_start in Hq as [-> _], Hq' as [-> _]. assumption.
Qed.

Lemma buildUpdateTextStyleRequest_styleOn hex a b style tab r :
  buildUpdateTextStyleRequest hex a b style tab = Ok (Some r) ->
  styleOn a b (fst r).
Proof.
  unfold buildUpdateTextStyleRequest, bind.
  destruct (parseColor hex _ _) as [e|fg]; [discriminate|].
  destruct (parseColor hex _ _) as [e|bg]; [discriminate|].
  destruct (_ ++ _); [discriminate|].
  intros [= <-]. now repeat split.
Qed.

Lemma bind_Ok {A B} (r : Result A) (k : A -> Result B) (b : B) :
  bind r k = Ok b -> exists a, r = Ok a /\ k a = Ok b.
Proof. destruct r as [e|a]; simpl; [discriminate|eauto]. Qed.

Lemma styleRequest_styleOn hex a b style tab l :
  (let! request := buildUpdateTextStyleRequest hex a b style tab in
   Ok (match request with Some r => [fst r] | None => [] end)) = Ok l ->
  Forall (styleOn a b) l.
Proof.
  intros H. apply bind_Ok in H as ([r|] & Hr & [= <-]); [|constructor].
  constructor; [|constructor].
  now apply buildUpdateTextStyleRequest_styleOn in Hr.
Qed.

Lemma textRangeRequests_styleOn hex tab r l :
  textRangeRequests hex tab r = Ok l ->
  Forall (styleOn (startIndex r) (endIndex r)) l.
Proof.
  unfold textRangeRequests. intros H.
  apply bind_Ok in H as (styles & Hs & H).
  apply bind_Ok in H as (links & Hl & [= <-]).
  apply Forall_app; split.
  - destruct (_ || _); [|injection Hs as <-; constructor].
    now apply styleRequest_styleOn in Hs.
  - destruct (link (formatting r)) as [url|]; [|injection Hl as <-; constructor].
    destruct (truthy url); [|injection Hl as <-; constructor].
    now apply styleRequest_styleOn in Hl.
Qed.

Lemma textStyleRequests_styleOn hex tab rs l :
  textStyleRequests hex tab rs = Ok l ->
  Forall (fun q => exists r, In r rs /\ styleOn (startIndex r) (endIndex r) q) l.
Proof.
  revert l. induction rs as [|r rs IH]; simpl; intros l.
  - intros [= <-]. constructor.
  - intros H. apply bind_Ok in H as (here & E & H).
    apply bind_Ok in H as (after & E' & [= <-]).
    apply Forall_app; split.
    + apply textRangeRequests_styleOn in E.
      eapply Forall_impl; [exact E|]. simpl. eauto.
    + eapply Forall_impl; [apply IH; exact E'|].
      simpl. intros q (r' & Hin & Hq). eauto.
Qed.

Lemma paragraphRequests_styleOn tab rs :
  Forall (fun q => exists r, In r rs
                   /\ styleOn (para_startIndex r) (para_endIndex r) q)
    (concat (List.map (paragraphRequest tab) rs)).
Proof.
  induction rs as [|r rs IH]; simpl; [constructor|].
  apply Forall_app; split.
  - unfold paragraphRequest.
    destruct (namedStyleType r) as [name|]; [|constructor].
    destruct (truthy name); [|constructor].
    simpl. constructor; [|constructor].
    exists r. split; [now left|]. now repeat split.
  - eapply Forall_impl; [exact IH|].
    simpl. intros q (r' & Hin & Hq). eauto.
Qed.

Lemma borderRequests_styleOn tab rs :
  Forall (fun q => exists r, In r rs
                   /\ styleOn (hr_startIndex r) (hr_endIndex r) q)
    (List.map (borderRequest tab) rs).
Proof.
  induction rs as [|r rs IH]; simpl; constructor.
  - exists r. split; [now left|]. now repeat split.
  - eapply Forall_impl; [exact IH|].
    simpl. intros q (r' & Hin & Hq). eauto.
Qed.

(** The shape of the request list the finalizer adds. *)
Lemma finalizeFormatting_shape hex c c' :
  finalizeFormatting hex c = Ok c' ->
  exists styles,
    textStyleRequests hex (tabId c) (textRanges c) = Ok styles
    /\ c' = set_formatRequests
              (formatRequests c ++ styles
                 ++ concat (List.map (paragraphRequest (tabId c))
                              (paragraphRanges c))
                 ++ List.map (borderRequest (tabId c)) (hrRanges c)
                 ++ concat (List.map (bulletRequest (tabId c))
                              (listItemsForFormatting c))) c.
Proof.
  unfold finalizeFormatting. intros H.
  apply bind_Ok in H as (styles & Hs & [= <-]). eauto.
Qed.

Lemma styleOn_within lo hi a b q :
  spanOk lo hi a b -> styleOn a b q -> addressesWithin lo hi q.
Proof.
  unfold spanOk, styleOn. intros Hs (Hi & _ & Hr).
  destruct q; simpl in *; try discriminate; injection Hr as <- <-; lia.
Qed.

Lemma bulletFor_within tab lo hi it q :
  itemOk lo hi it -> bulletFor tab it q -> addressesWithin lo hi q.
Proof.
  unfold itemOk. intros [Hs He] (e & Ee & _ & ->). rewrite Ee in He.
  simpl. lia.
Qed.

(** ** The result of a successful conversion *)

Lemma convertTokens_Ok hex tokens start tab reqs :
  convertTokens hex tokens start tab = Ok reqs ->
  exists c styles,
    processTokens tokens (initialContext start tab) = Ok c
    /\ wellFormed start c
    /\ textStyleRequests hex (tabId c) (textRanges c) = Ok styles
    /\ reqs = finalRequests styles c.
Proof.
  unfold convertTokens. intros H.
  destruct (bind _ _) as [e|reqs'] eqn:E; [discriminate|].
  injection H as <-.
  apply bind_Ok in E as (c & Hc & E).
  apply bind_Ok in E as (c' & Hf & [= <-]).
  pose proof (wellFormed_processTokens _ _ _ _ Hc) as Hwf.
  apply finalizeFormatting_shape in Hf as (styles & Hs & ->).
  exists c, styles. split; [exact Hc|]. split; [exact Hwf|].
  split; [exact Hs|].
  unfold finalRequests. ctx_simpl. now rewrite (wf_format _ _ Hwf).
Qed.

Lemma finalRequests_format hex c styles :
  textStyleRequests hex (tabId c) (textRanges c) = Ok styles ->
  Forall (fun q => isInsert q = false)
    (styles
       ++ concat (List.map (paragraphRequest (tabId c)) (paragraphRanges c))
       ++ List.map (borderRequest (tabId c)) (hrRanges c)
       ++ concat (List.map (bulletRequest (tabId c))
                    (listItemsForFormatting c))).
Proof.
  intros Hs. repeat (apply Forall_app; split).
  - apply textStyleRequests_styleOn in Hs.
    eapply Forall_impl; [exact Hs|]. simpl. intros q (r & _ & H). apply H.
  - eapply Forall_impl; [apply paragraphRequests_styleOn|].
    simpl. intros q (r & _ & H). apply H.
  - eapply Forall_impl; [apply borderRequests_styleOn|].
    simpl. intros q (r & _ & H). apply H.
  - pose proof (bulletRequests_Forall2 (tabId c) _
                  (listItemsForFormatting_hasRange c)) as HF.
    induction HF as [|it q l qs Hq _ IH]; constructor; [|exact IH].
    destruct Hq as (e & _ & _ & ->). reflexivity.
Qed.

Lemma finalRequests_within hex lo c styles :
  wellFormed lo c ->
  textStyleRequests hex (tabId c) (textRanges c) = Ok styles ->
  Forall (addressesWithin lo (currentIndex c)) (finalRequests styles c).
Proof.
  intros Hwf Hs. unfold finalRequests. repeat (apply Forall_app; split).
  - pose proof (wf_inserts _ _ Hwf) as Hi.
    pose proof (wf_chained _ _ Hwf) as Hc.
    pose proof (wf_current _ _ Hwf) as Hcur. rewrite Hcur. clear Hcur.
    induction (insertRequests c) as [|q l IH] using rev_ind; [constructor|].
    apply Forall_app in Hi as [Hi Hq].
    apply insertsChained_app in Hc as [Hc Hq'].
    rewrite insertedLength_app.
    pose proof (insertedLength_nonneg l).
    inversion Hq as [|? ? Hq1 _]; subst.
    destruct q as [loc t| | |]; try discriminate.
    pose proof (jslength_nonneg t). cbn [insertedLength insertsChained] in *.
    apply Forall_app; split.
    + eapply Forall_impl; [apply IH; assumption|].
      intros [loc' t'| | |]; cbn [addressesWithin]; lia.
    + constructor; [|constructor]. cbn [addressesWithin]. lia.
  - apply textStyleRequests_styleOn in Hs.
    eapply Forall_impl; [exact Hs|]. simpl. intros q (r & Hin & H).
    eapply styleOn_within; [|exact H].
    pose proof (wf_text _ _ Hwf) as HF.
    rewrite List.Forall_forall in HF. now apply HF.
  - eapply Forall_impl; [apply paragraphRequests_styleOn|].
    simpl. intros q (r & Hin & H).
    eapply styleOn_within; [|exact H].
    pose proof (wf_para _ _ Hwf) as HF.
    rewrite List.Forall_forall in HF. now apply HF.
  - eapply Forall_impl; [apply borderRequests_styleOn|].
    simpl. intros q (r & Hin & H).
    eapply styleOn_within; [|exact H].
    pose proof (wf_hr _ _ Hwf) as HF.
    rewrite List.Forall_forall in HF. now apply HF.
  - pose proof (bulletRequests_Forall2 (tabId c) _
                  (listItemsForFormatting_hasRange c)) as HF.
    assert (Hok : Forall (itemOk lo (currentIndex c))
                    (listItemsForFormatting c)).
    { unfold listItemsForFormatting. rewrite sortByStartDesc_perm.
      apply List.Forall_forall. intros it Hin.
      apply List.filter_In in Hin as [Hin _].
      pose proof (wf_items _ _ Hwf) as HI.
      rewrite List.Forall_forall in HI. now apply HI. }
    induction HF as [|it q l qs Hq _ IH]; [constructor|].
    inversion Hok; subst. constructor; [|now apply IH].
    eapply bulletFor_within; eassumption.
Qed.

(** C1. Every insertion is located at [currentIndex] as it is before the
    insertion, and [currentIndex] then advances by the length of the text;
    at the end of the walk [currentIndex] is the start offset plus the
    lengths of all the inserted texts; and every offset named by a request
    of the returned list lies between the start offset and that final
    offset. *)
Theorem offsets_tracked (hexToRgbColor : jsstring -> option RgbColor)
    (parseMarkdown : jsstring -> list Token)
    (startOffset : Z) (region : option jsstring) :
  (forall text c,
     insertRequests (insertText text c)
     = insertRequests c
         ++ [insertTextRequest
               {| index := currentIndex c;
                  location_tabId := keepTabId (tabId c) |} text]
     /\ currentIndex (insertText text c) = currentIndex c + jslength text)
  /\ (forall tokens c,
        processTokens tokens (initialContext startOffset region) = Ok c ->
        insertsChained startOffset (insertRequests c)
        /\ currentIndex c = startOffset + insertedLength (insertRequests c))
  /\ (forall tokens reqs,
        convertTokens hexToRgbColor tokens startOffset region = Ok reqs ->
        exists c,
          processTokens tokens (initialContext startOffset region) = Ok c
          /\ currentIndex c = startOffset + insertedLength reqs
          /\ insertsChained startOffset reqs
          /\ Forall (addressesWithin startOffset (currentIndex c)) reqs)
  /\ (forall markdown reqs,
        convertMarkdownToRequests hexToRgbColor parseMarkdown
          markdown startOffset region = Ok reqs ->
        insertsChained startOffset reqs
        /\ Forall (addressesWithin startOffset
                     (startOffset + insertedLength reqs)) reqs).
Proof.
  assert (H3 : forall tokens reqs,
        convertTokens hexToRgbColor tokens startOffset region = Ok reqs ->
        exists c,
          processTokens tokens (initialContext startOffset region) = Ok c
          /\ currentIndex c = startOffset + insertedLength reqs
          /\ insertsChained startOffset reqs
          /\ Forall (addressesWithin startOffset (currentIndex c)) reqs).
  { intros tokens reqs H.
    apply convertTokens_Ok in H as (c & styles & Hc & Hwf & Hs & ->).
    pose proof (finalRequests_format _ _ _ Hs) as Hfmt.
    exists c. split; [exact Hc|]. repeat split.
    - unfold finalRequests. rewrite insertedLength_app.
      rewrite (insertedLength_noInsert _ Hfmt). rewrite (wf_current _ _ Hwf). lia.
    - unfold finalRequests. apply insertsChained_app. split.
      + apply (wf_chained _ _ Hwf).
      + now apply insertsChained_noInsert.
    - eapply finalRequests_within; eassumption. }
  split; [|split; [|split]].
  - intros text c. split; reflexivity.
  - intros tokens c Hc. apply wellFormed_processTokens in Hc.
    split; [apply (wf_chained _ _ Hc)|apply (wf_current _ _ Hc)].
  - exact H3.
  - intros markdown reqs. unfold convertMarkdownToRequests.
    destruct (_ || _).
    + intros [= <-]. split; simpl; [exact I|constructor].
    + intros H. apply H3 in H as (c & _ & Hcur & Hch & Hw).
      rewrite <- Hcur. auto.
Qed.

(** C2, as stated, fails: a list item whose content is a nested list
    starts at the offset of its first child, and their two bullet requests
    start at the same offset. *)
Lemma bullets_not_strictly_descending :
  ~ (forall hexToRgbColor tokens startOffset region reqs,
       convertTokens hexToRgbColor tokens startOffset region = Ok reqs ->
       startsDecreasing (List.filter isBullet reqs)).
Proof.
  intros H.
  assert (E : convertTokens rejectHex tokens_nested_items 1 None
              = Ok requests_nested_items) by (vm_compute; reflexivity).
  apply H in E. vm_compute in E.
  inversion E as [|q l _ Hhd]; subst.
  inversion Hhd as [|q' l' Hlt]; subst.
  vm_compute in Hlt. discriminate.
Qed.

(** C2, amended. The finalizer emits one bullet request for each pending
    list item whose end is set and greater than its start, and for no other
    item; the bullet requests come after every other request of the
    returned list; from one bullet request to the next the start offset
    never increases (it may stay the same); and the items that start at the
    same offset get their bullet requests in the order in which the items
    were created. *)
Theorem bullets_last_and_descending (hexToRgbColor : jsstring -> option RgbColor)
    (c c' : ConversionContext) :
  Forall (fun q => isBullet q = false) (insertRequests c ++ formatRequests c) ->
  finalizeFormatting hexToRgbColor c = Ok c' ->
  exists others bullets items,
    insertRequests c' ++ formatRequests c' = others ++ bullets
    /\ Forall (fun q => isBullet q = false) others
    /\ Forall (fun q => isBullet q = true) bullets
    /\ Permutation items (List.filter hasRange (pendingListItems c))
    /\ Forall2 (bulletFor (tabId c)) items bullets
    /\ startsNonIncreasing bullets
    /\ forall s,
         List.filter (startsAt s) items
         = List.filter (startsAt s)
             (List.filter hasRange (pendingListItems c)).
Proof.
  intros Hprev H. apply finalizeFormatting_shape in H as (styles & Hs & ->).
  pose proof (bulletRequests_Forall2 (tabId c) _
                (listItemsForFormatting_hasRange c)) as HF.
  apply Forall_app in Hprev as [Hins Hfmt].
  exists (insertRequests c ++ formatRequests c ++ styles
            ++ concat (List.map (paragraphRequest (tabId c)) (paragraphRanges c))
            ++ List.map (borderRequest (tabId c)) (hrRanges c)),
    (concat (List.map (bulletRequest (tabId c)) (listItemsForFormatting c))),
    (listItemsForFormatting c).
  split; [ctx_simpl; now rewrite <- !app_assoc|].
  split.
  { repeat (apply Forall_app; split); try assumption.
    - apply textStyleRequests_styleOn in Hs.
      eapply Forall_impl; [exact Hs|]. simpl. intros q (r & _ & H). apply H.
    - eapply Forall_impl; [apply paragraphRequests_styleOn|].
      simpl. intros q (r & _ & H). apply H.
    - eapply Forall_impl; [apply borderRequests_styleOn|].
      simpl. intros q (r & _ & H). apply H. }
  split.
  { clear -HF. induction HF as [|it q l qs Hq _ IH]; constructor; [|exact IH].
    now apply bulletFor_start in Hq. }
  split; [apply sortByStartDesc_perm|].
  split; [exact HF|].
  split; [eapply bullets_sorted; [|exact HF]; apply sortByStartDesc_sorted|].
  intros s. apply sortByStartDesc_stable.
Qed.

(** ** The formatting accumulator *)

Lemma fold_mergeState (stack : list FormattingState) (acc : FormattingState) :
  fold_left mergeState stack acc
  = {| bold := override (lastDefined bold stack) (bold acc);
       italic := override (lastDefined italic stack) (italic acc);
       strikethrough :=
         override (lastDefined strikethrough stack) (strikethrough acc);
       link := override (lastDefined link stack) (link acc);
       code := override (lastDefined code stack) (code acc) |}.
Proof.
  revert acc. induction stack as [|s stack IH]; intros acc; simpl.
  - now destruct acc.
  - rewrite IH. unfold mergeState. simpl.
    f_equal;
      match goal with
      | |- context [lastDefined ?g stack] => destruct (lastDefined g stack)
      end; reflexivity.
Qed.

Lemma mergeFormattingStack_lastWriterWins (stack : list FormattingState) :
  mergeFormattingStack stack = lastWriterWins stack.
Proof.
  unfold mergeFormattingStack, lastWriterWins. rewrite fold_mergeState.
  simpl. f_equal;
    match goal with
    | |- context [lastDefined ?g stack] => destruct (lastDefined g stack)
    end; reflexivity.
Qed.

Lemma hasFormatting_activeStyle (f : FormattingState) :
  hasFormatting f = true <-> activeStyle f.
Proof.
  unfold hasFormatting, activeStyle.
  destruct (bold f) as [[]|], (italic f) as [[]|],
    (strikethrough f) as [[]|], (code f) as [[]|], (link f) as [u|];
    simpl; split; intros H; try reflexivity; try discriminate;
    try (intuition congruence).
Qed.

(** *** Recorded spans are never altered by later tokens *)

Lemma textRanges_insertFormattedText t c :
  textRanges c `prefix_of` textRanges (insertFormattedText t c).
Proof.
  unfold insertFormattedText. destruct (hasFormatting _); ctx_simpl.
  - now apply prefix_app_r.
  - reflexivity.
Qed.

Lemma textRanges_handleTextToken t c :
  textRanges c `prefix_of` textRanges (handleTextToken t c).
Proof.
  unfold handleTextToken.
  repeat case_match; try reflexivity;
    try apply (textRanges_insertFormattedText _ c);
    apply (textRanges_insertFormattedText _ (storeListItem _ _ c)).
Qed.

Lemma textRanges_insertCodeLines lines c :
  textRanges c `prefix_of` textRanges (fold_left insertCodeLine lines c).
Proof.
  revert c. induction lines as [|l lines IH]; intros c; simpl; [reflexivity|].
  etransitivity; [|apply IH].
  unfold insertCodeLine. destruct l; ctx_simpl; now apply prefix_app_r.
Qed.

Lemma textRanges_processToken t c c' :
  isLeaf t -> processToken t c = Ok c' ->
  textRanges c `prefix_of` textRanges c'.
Proof.
  unfold isLeaf. destruct t as [ty tg a ct ch]. cbn [processToken type].
  intros L. destruct (kindOf ty) eqn:K; try congruence;
    try (intros [= <-]; reflexivity).
  - intros [= <-]. unfold handleHeadingOpen. now case_match.
  - intros [= <-]. unfold handleHeadingClose. now repeat case_match.
  - intros [= <-]. unfold handleParagraphOpen. now case_match.
  - intros [= <-]. unfold handleParagraphClose. now repeat case_match.
  - intros [= <-]. apply textRanges_handleTextToken.
  - intros [= <-]. unfold handleCodeInlineToken.
    apply (textRanges_handleTextToken _ (pushFormatting codeFormatting c)).
  - repeat case_match; now intros [= <-].
  - unfold handleListItemOpen. repeat case_match; now intros [= <-].
  - unfold handleListItemClose. repeat case_match; now intros [= <-].
  - intros [= <-]. unfold handleCodeBlockToken.
    case_match; [|apply textRanges_insertCodeLines].
    apply (textRanges_insertCodeLines _ c).
  - intros [= <-]. unfold handleCodeBlockToken.
    case_match; [|apply textRanges_insertCodeLines].
    apply (textRanges_insertCodeLines _ c).
  - intros [= <-]. unfold handleCodeBlockToken.
    case_match; [|apply textRanges_insertCodeLines].
    apply (textRanges_insertCodeLines _ c).
  - intros [= <-]. unfold handleHorizontalRule. now case_match.
Qed.

Lemma textRanges_processTokens ts c c' :
  processTokens ts c = Ok c' -> textRanges c `prefix_of` textRanges c'.
Proof.
  apply (processTokens_invariant (fun x => textRanges c `prefix_of` textRanges x)).
  - intros t c0 c1 L H E. etransitivity; [exact H|].
    eapply textRanges_processToken; eassumption.
  - reflexivity.
Qed.

(** C3. When [handleTextToken] emits a text, the span it records carries
    the last-writer-wins merge of the formatting stack as it is at that
    moment; when that merge has no field set to [true] and no link, no
    span is recorded; when no text is emitted, no span is recorded; and no
    token processed later, whatever the fragments it closes and in whatever
    order, alters the recorded spans. *)
Theorem merged_style_recorded (token : Token) (c : ConversionContext) :
  let merged := lastWriterWins (formattingStack c) in
  let c' := handleTextToken token c in
  ((insertRequests c' = insertRequests c /\ textRanges c' = textRanges c)
   \/ exists emitted,
        emitted <> []
        /\ insertRequests c'
           = insertRequests c
               ++ [insertTextRequest
                     {| index := currentIndex c;
                        location_tabId := keepTabId (tabId c) |} emitted]
        /\ (activeStyle merged ->
            textRanges c'
            = textRanges c
                ++ [{| startIndex := currentIndex c;
                       endIndex := currentIndex c + jslength emitted;
                       formatting := merged |}])
        /\ (~ activeStyle merged -> textRanges c' = textRanges c))
  /\ mergeFormattingStack (formattingStack c) = merged
  /\ forall later c'',
       processTokens later c' = Ok c'' ->
       textRanges c' `prefix_of` textRanges c''.
Proof.
  intros merged c'. split; [|split].
  - assert (Hemit : forall t c0,
              formattingStack c0 = formattingStack c ->
              t <> [] ->
              exists emitted,
                emitted <> []
                /\ insertRequests (insertFormattedText t c0)
                   = insertRequests c0
                       ++ [insertTextRequest
                             {| index := currentIndex c0;
                                location_tabId := keepTabId (tabId c0) |}
                             emitted]
                /\ (activeStyle merged ->
                    textRanges (insertFormattedText t c0)
                    = textRanges c0
                        ++ [{| startIndex := currentIndex c0;
                               endIndex := currentIndex c0 + jslength emitted;
                               formatting := merged |}])
                /\ (~ activeStyle merged ->
                    textRanges (insertFormattedText t c0) = textRanges c0)).
    { intros t c0 Hst Ht. exists t. split; [exact Ht|].
      unfold insertFormattedText. ctx_simpl. rewrite Hst.
      rewrite mergeFormattingStack_lastWriterWins. fold merged.
      destruct (hasFormatting merged) eqn:Hf; ctx_simpl.
      - split; [reflexivity|]. split; [reflexivity|].
        intros Hn. apply hasFormatting_activeStyle in Hf. contradiction.
      - split; [reflexivity|]. split; [|reflexivity].
        intros Ha. apply hasFormatting_activeStyle in Ha. congruence. }
    subst c'. unfold handleTextToken.
    destruct (content token) as [|u text] eqn:Ec; cbn [truthy negb];
      [now left|].
    destruct (getCurrentOpenListItem c) as [[i it]|].
    + destruct (negb (taskPrefixProcessed it)).
      * destruct (matchTaskPrefix (u :: text)) as [n|].
        -- destruct (drop n (u :: text)) as [|u' text'] eqn:Ed;
             cbn [truthy negb].
           ++ left. split; reflexivity.
           ++ right. apply (Hemit _ (storeListItem i _ c)); [reflexivity|].
              discriminate.
        -- right. apply (Hemit _ (storeListItem i _ c)); [reflexivity|].
           discriminate.
      * right. apply Hemit; [reflexivity|discriminate].
    + right. apply Hemit; [reflexivity|discriminate].
  - apply mergeFormattingStack_lastWriterWins.
  - intros later c''. apply textRanges_processTokens.
Qed.

(** ** Scenarios *)

(** C4, as stated, fails: the conversion of ["**bold text**"] returns two
    insertions, the text and the blank-line spacing of the paragraph. *)
Lemma bold_text_two_insertions :
  ~ (forall hexToRgbColor parseMarkdown,
       parseMarkdown (js "**bold text**") = tokens_bold_text ->
       exists reqs,
         convertMarkdownToRequests hexToRgbColor parseMarkdown
           (js "**bold text**") 1 None = Ok reqs
         /\ List.filter isInsert reqs
            = [insertTextRequest {| index := 1; location_tabId := None |}
                 (js "bold text")]
         /\ List.filter isTextStyle reqs
            = [updateTextStyle
                 {| range_startIndex := 1; range_endIndex := 10;
                    range_tabId := None |} boldOnly (js "bold")]).
Proof.
  intros H.
  destruct (H rejectHex (fun _ => tokens_bold_text) eq_refl)
    as (reqs & Hr & Hi & _).
  vm_compute in Hr. injection Hr as <-. vm_compute in Hi. discriminate.
Qed.

(** C4, amended. The conversion of ["**bold text**"] at offset 1 with no
    region id returns exactly: the insertion of ["bold text"] at offset 1,
    the insertion of the two line feeds that close the paragraph at
    offset 10, and one character style request over [[1, 10)] with bold set
    to true and no other field. *)
Theorem bold_text_scenario (hexToRgbColor : jsstring -> option RgbColor)
    (parseMarkdown : jsstring -> list Token) :
  parseMarkdown (js "**bold text**") = tokens_bold_text ->
  convertMarkdownToRequests hexToRgbColor parseMarkdown
    (js "**bold text**") 1 None
  = Ok [ insertTextRequest {| index := 1; location_tabId := None |}
           (js "bold text");
         insertTextRequest {| index := 10; location_tabId := None |}
           [LF; LF];
         updateTextStyle
           {| range_startIndex := 1; range_endIndex := 10;
              range_tabId := None |} boldOnly (js "bold") ].
Proof.
  intros Hp. unfold convertMarkdownToRequests. rewrite Hp.
  vm_compute. reflexivity.
Qed.




(** ** Failures of the token walk *)

Lemma listStack_insertCodeLines lines c :
  listStack (fold_left insertCodeLine lines c) = listStack c.
Proof.
  revert c. induction lines as [|l lines IH]; intros c; simpl; [reflexivity|].
  rewrite IH. unfold insertCodeLine. now destruct l.
Qed.

Lemma listStack_handleTextToken t c :
  listStack (handleTextToken t c) = listStack c.
Proof.
  unfold handleTextToken, insertFormattedText. now repeat case_match.
Qed.

Lemma listStack_handleCodeBlockToken t c :
  listStack (handleCodeBlockToken t c) = listStack c.
Proof.
  unfold handleCodeBlockToken.
  case_match; ctx_simpl; apply listStack_insertCodeLines.
Qed.

Lemma length_removelast {A} (l : list A) :
  length (removelast l) = pred (length l).
Proof.
  induction l as [|x l IH]; [reflexivity|].
  destruct l; [reflexivity|]. simpl in *. now rewrite IH.
Qed.

Lemma last_None_nil {A} (l : list A) : last l = None -> l = [].
Proof. destruct l using rev_ind; [reflexivity|]. now rewrite last_snoc. Qed.

(** A leaf either is a list item opened outside any list, and the walk
    stops there, or it is processed and leaves the list stack at the depth
    [listDepthStep] tells. *)
Lemma processToken_leaf_step lo t c :
  isLeaf t -> wellFormed lo c ->
  (kindOf (type t) = list_item_open /\ listStack c = []
   /\ processToken t c = Throw listItemOutsideList)
  \/ (~ (kindOf (type t) = list_item_open /\ listStack c = [])
      /\ exists c', processToken t c = Ok c'
                    /\ length (listStack c')
                       = listDepthStep (length (listStack c)) t).
Proof.
  unfold isLeaf, listDepthStep. destruct t as [ty tg a ct ch].
  cbn [processToken type]. intros L H.
  destruct (kindOf ty) eqn:K; try congruence;
    try (right; split; [intros [? ?]; discriminate|];
         eexists; split; [reflexivity|];
         first [ reflexivity
               | apply listStack_handleTextToken
               | now rewrite listStack_handleCodeBlockToken ]).
  - right. split; [intros [? ?]; discriminate|]. eexists. split; [reflexivity|].
    unfold handleHeadingOpen. now case_match.
  - right. split; [intros [? ?]; discriminate|]. eexists. split; [reflexivity|].
    unfold handleHeadingClose. now repeat case_match.
  - right. split; [intros [? ?]; discriminate|]. eexists. split; [reflexivity|].
    unfold handleParagraphOpen.
    destruct (listStack c) eqn:E; ctx_simpl; now rewrite ?E.
  - right. split; [intros [? ?]; discriminate|]. eexists. split; [reflexivity|].
    unfold handleParagraphClose.
    destruct (listStack c) eqn:E; repeat case_match; ctx_simpl; now rewrite ?E.
  - right. split; [intros [? ?]; discriminate|]. eexists. split; [reflexivity|].
    unfold handleTextToken, insertFormattedText. now repeat case_match.
  - right. split; [intros [? ?]; discriminate|]. eexists. split; [reflexivity|].
    unfold handleCodeInlineToken. ctx_simpl.
    now rewrite listStack_handleTextToken.
  - right. split; [intros [? ?]; discriminate|].
    destruct (getLinkHref _) as [href|]; [destruct (truthy href)|];
      eexists; split; reflexivity.
  - right. split; [intros [? ?]; discriminate|]. eexists. split; [reflexivity|].
    ctx_simpl. rewrite length_app. simpl. lia.
  - right. split; [intros [? ?]; discriminate|]. eexists. split; [reflexivity|].
    ctx_simpl. apply length_removelast.
  - right. split; [intros [? ?]; discriminate|]. eexists. split; [reflexivity|].
    ctx_simpl. rewrite length_app. simpl. lia.
  - right. split; [intros [? ?]; discriminate|]. eexists. split; [reflexivity|].
    ctx_simpl. apply length_removelast.
  - unfold handleListItemOpen.
    destruct (last (listStack c)) as [cl|] eqn:El.
    + right. split.
      * intros [_ Hn]. rewrite Hn in El. discriminate.
      * eexists. split; [reflexivity|]. now case_match.
    + left. apply last_None_nil in El. auto.
  - right. split; [intros [? ?]; discriminate|].
    unfold handleListItemClose.
    destruct (last (openListItemStack c)) as [i|] eqn:El;
      [|eexists; split; reflexivity].
    ctx_simpl.
    assert (Hi : (i < length (pendingListItems c))%nat).
    { pose proof (wf_open _ _ H) as Ho. rewrite List.Forall_forall in Ho.
      apply Ho. apply list_elem_of_In. now apply last_Some_elem_of. }
    apply lookup_lt_is_Some_2 in Hi as [it Hit]. rewrite Hit.
    eexists. split; [reflexivity|]. now repeat case_match.
  - right. split; [intros [? ?]; discriminate|]. eexists. split; [reflexivity|].
    unfold handleHorizontalRule. now case_match.
Qed.

Lemma processTokens_leaves_failure lo l :
  Forall isLeaf l ->
  forall c, wellFormed lo c ->
  (forall e, processTokens l c = inl e -> e = listItemOutsideList)
  /\ (processTokens l c = Throw listItemOutsideList
      <-> meetsOrphanItem (length (listStack c)) l).
Proof.
  induction 1 as [|t l Ht _ IH]; intros c Hwf.
  - split; [discriminate|]. split; [discriminate|].
    intros (w & t & r & E & _). now destruct w.
  - simpl.
    destruct (processToken_leaf_step lo t c Ht Hwf)
      as [(K & Hn & ->)|(Hno & c' & Hc' & Hd)].
    + simpl. split; [now intros e [= <-]|]. split; [|reflexivity].
      intros _. exists [], t, l. rewrite Hn. auto.
    + rewrite Hc'. simpl.
      assert (Hwf' : wellFormed lo c')
        by (eapply wellFormed_processToken; eassumption).
      destruct (IH c' Hwf') as [IHe IHo]. split; [exact IHe|].
      rewrite IHo, Hd. split.
      * intros (w & t' & r & E & K & D).
        exists (t :: w), t', r. rewrite E. auto.
      * intros (w & t' & r & E & K & D). destruct w as [|t0 w].
        -- simpl in E. injection E as <- <-. exfalso. apply Hno.
           split; [exact K|]. simpl in D. now apply nil_length_inv.
        -- simpl in E. injection E as <- ->. exists w, t', r. auto.
Qed.

Lemma parseColor_error hex what h e :
  parseColor hex what h = inl e -> exists m, e = UserError m.
Proof.
  unfold parseColor. destruct h as [h|]; [|discriminate].
  destruct (hex h); [discriminate|]. intros [= <-]. eauto.
Qed.

Lemma bind_error {A B} (r : Result A) (k : A -> Result B) (e : JsError) :
  bind r k = inl e -> r = inl e \/ exists a, r = Ok a /\ k a = inl e.
Proof. destruct r as [e'|a]; simpl; [intros [= <-]; auto|eauto]. Qed.

Lemma buildUpdateTextStyleRequest_error hex a b style tab e :
  buildUpdateTextStyleRequest hex a b style tab = inl e ->
  exists m, e = UserError m.
Proof.
  unfold buildUpdateTextStyleRequest. intros H.
  apply bind_error in H as [H|(fg & _ & H)];
    [now apply parseColor_error in H|].
  apply bind_error in H as [H|(bg & _ & H)];
    [now apply parseColor_error in H|].
  now destruct (_ ++ _).
Qed.

Lemma textRangeRequests_error hex tab r e :
  textRangeRequests hex tab r = inl e -> exists m, e = UserError m.
Proof.
  unfold textRangeRequests. intros H.
  apply bind_error in H as [H|(styles & _ & H)].
  - destruct (_ || _); [|discriminate].
    apply bind_error in H as [H|(q & _ & H)]; [|discriminate].
    now apply buildUpdateTextStyleRequest_error in H.
  - apply bind_error in H as [H|(links & _ & H)]; [|discriminate].
    destruct (link _) as [url|]; [|discriminate].
    destruct (truthy url); [|discriminate].
    apply bind_error in H as [H|(q & _ & H)]; [|discriminate].
    now apply buildUpdateTextStyleRequest_error in H.
Qed.

Lemma finalizeFormatting_error hex c e :
  finalizeFormatting hex c = inl e -> exists m, e = UserError m.
Proof.
  unfold finalizeFormatting. intros H.
  apply bind_error in H as [H|(styles & _ & H)]; [|discriminate].
  induction (textRanges c) as [|r rs IH]; simpl in H; [discriminate|].
  apply bind_error in H as [H|(here & _ & H)];
    [now apply textRangeRequests_error in H|].
  apply bind_error in H as [H|(after & _ & H)]; [auto|discriminate].
Qed.

Lemma set_formattingStack_same c :
  set_formattingStack (formattingStack c) c = c.
Proof. now destruct c. Qed.

Lemma removeFirst_none {A} (p : A -> bool) (l : list A) :
  Forall (fun x => p x = false) l -> removeFirst p l = l.
Proof.
  induction 1 as [|x l Hx _ IH]; simpl; [reflexivity|].
  now rewrite Hx, IH.
Qed.

Lemma rethrow_wrapped_ne (e : JsError) :
  errorClass e <> MarkdownConversionErrorClass ->
  rethrow e <> listItemOutsideList.
Proof. destruct e; simpl; intros H; [congruence| |]; discriminate. Qed.

(** C5. A conversion raises the error of the caller's input exactly when
    the token walk meets a [list_item_open] token while no list is open,
    and the walk raises no other error; a [list_item_close] with no open
    item, a [heading_close] with no active heading and a close of an inline
    style that no fragment of the stack carries leave the context as it
    is. *)
Theorem only_orphan_list_item_fails
    (hexToRgbColor : jsstring -> option RgbColor)
    (tokens : list Token) (startOffset : Z) (region : option jsstring) :
  (convertTokens hexToRgbColor tokens startOffset region
   = Throw listItemOutsideList <-> orphanListItem tokens)
  /\ (forall e,
        processTokens tokens (initialContext startOffset region) = inl e ->
        e = listItemOutsideList)
  /\ (forall c, openListItemStack c = [] -> handleListItemClose c = Ok c)
  /\ (forall c,
        currentHeadingLevel c = None \/ currentParagraphStart c = None ->
        handleHeadingClose c = c)
  /\ (forall c key,
        Forall (fun s => definesKey key s = false) (formattingStack c) ->
        popFormatting c key = c).
Proof.
  pose proof (processTokens_leaves_failure startOffset _
                (allLeaves_isLeaf tokens) _
                (wellFormed_initialContext startOffset region)) as [He Ho].
  rewrite <- processTokens_allLeaves in He, Ho.
  split; [|split; [|split; [|split]]].
  - unfold orphanListItem. rewrite <- Ho. clear Ho. unfold convertTokens.
    destruct (processTokens tokens _) as [e|c] eqn:E; simpl.
    + rewrite (He e eq_refl). simpl. tauto.
    + split; [|discriminate].
      destruct (finalizeFormatting hexToRgbColor c) as [e|c'] eqn:F; simpl;
        [|discriminate].
      apply finalizeFormatting_error in F as [m ->]. discriminate.
  - exact He.
  - intros c Hn. unfold handleListItemClose. now rewrite Hn.
  - intros c [Hn|Hn]; unfold handleHeadingClose; rewrite Hn;
      [reflexivity|now destruct (currentHeadingLevel c)].
  - intros c key Hn. unfold popFormatting.
    rewrite removeFirst_none, rev_involutive.
    + apply set_formattingStack_same.
    + apply List.Forall_forall. intros x Hx. apply List.in_rev in Hx.
      rewrite List.Forall_forall in Hn. now apply Hn.
Qed.

(** ** The catch clause *)

(** C6, as stated, fails: whatever the fault, the error that replaces it
    has the class of the error raised for a list item outside any list. *)
Lemma wrapped_fault_same_class :
  ~ (forall fault,
       errorClass fault <> MarkdownConversionErrorClass ->
       errorClass (rethrow fault) <> errorClass (rethrow listItemOutsideList)).
Proof.
  intros H. apply (H (TypeError (js "fault"))); [discriminate|reflexivity].
Qed.

(** C6, amended. A fault of the token walk or of the finalizer that is not
    a [MarkdownConversionError] is replaced by one
    [MarkdownConversionError] whose message is the text
    ["Failed to convert markdown: "] followed by the message of the fault;
    the error of a list item outside any list is raised again unchanged;
    the two have the same class and differ by their message only; and a
    conversion that raises returns no request list. *)
Theorem faults_wrapped (hexToRgbColor : jsstring -> option RgbColor)
    (tokens : list Token) (startOffset : Z) (region : option jsstring) :
  (forall fault,
     errorClass fault <> MarkdownConversionErrorClass ->
     rethrow fault
     = MarkdownConversionError
         (js "Failed to convert markdown: " ++ errorMessage fault)
     /\ errorClass (rethrow fault) = errorClass listItemOutsideList
     /\ rethrow fault <> listItemOutsideList)
  /\ rethrow listItemOutsideList = listItemOutsideList
  /\ (forall c fault,
        processTokens tokens (initialContext startOffset region) = Ok c ->
        finalizeFormatting hexToRgbColor c = inl fault ->
        convertTokens hexToRgbColor tokens startOffset region
        = Throw (MarkdownConversionError
                   (js "Failed to convert markdown: " ++ errorMessage fault)))
  /\ (forall fault,
        processTokens tokens (initialContext startOffset region) = inl fault ->
        convertTokens hexToRgbColor tokens startOffset region
        = Throw (rethrow fault))
  /\ (forall error,
        convertTokens hexToRgbColor tokens startOffset region = Throw error ->
        errorClass error = MarkdownConversionErrorClass
        /\ forall reqs,
             convertTokens hexToRgbColor tokens startOffset region
             <> Ok reqs).
Proof.
  split; [|split; [|split; [|split]]].
  - intros fault Hc. split; [|split].
    + destruct fault; simpl in *; congruence.
    + destruct fault; simpl in *; congruence.
    + now apply rethrow_wrapped_ne.
  - reflexivity.
  - intros c fault Hc Hf. unfold convertTokens. rewrite Hc. simpl.
    rewrite Hf. simpl.
    apply finalizeFormatting_error in Hf as [m ->]. reflexivity.
  - intros fault Hc. unfold convertTokens. now rewrite Hc.
  - intros error H. split.
    + unfold convertTokens in H. destruct (bind _ _) as [e|r]; [|discriminate].
      injection H as <-. now destruct e.
    + intros reqs. rewrite H. discriminate.
Qed.

(** ** Line terminators *)

(** C8, as stated, fails, even on a document with no paragraph and no code
    block, hence with no blank-line spacing: after a heading, whose
    insertion ends with a line feed, the thematic break inserts the lone
    line feed of its own paragraph. *)
Lemma terminator_after_terminator :
  ~ (forall hexToRgbColor tokens startOffset region reqs,
       Forall (fun t => spacesBlankLine t = false) (allLeaves tokens) ->
       convertTokens hexToRgbColor tokens startOffset region = Ok reqs ->
       noDoubleTerminator (insertedTexts reqs)).
Proof.
  intros H.
  assert (L : Forall (fun t => spacesBlankLine t = false)
                (allLeaves tokens_heading_rule))
    by (vm_compute; repeat constructor).
  assert (E : convertTokens rejectHex tokens_heading_rule 1 None
              = Ok requests_heading_rule) by (vm_compute; reflexivity).
  specialize (H _ _ _ _ _ L E).
  apply (H 1%nat [LF] [LF]); vm_compute; reflexivity.
Qed.

Lemma lastInsertEndsWithNewline_same c c' :
  insertRequests c' = insertRequests c ->
  lastInsertEndsWithNewline c' = lastInsertEndsWithNewline c.
Proof.
  intros H. unfold lastInsertEndsWithNewline, lastInsert. now rewrite H.
Qed.

(** C8, amended. The close of a paragraph inside a list and the close of a
    list item insert a line feed only when the last insertion does not end
    with one, and insert nothing otherwise; the thematic break inserts its
    separating line feed under the same condition. The line feed of the
    paragraph of a thematic break, the line feed that closes a heading and
    the two line feeds that close a paragraph outside any list are inserted
    whatever the last insertion is. *)
Theorem terminators_guarded :
  (forall c,
     listStack c <> [] ->
     insertRequests (handleParagraphClose c)
     = insertRequests c
         ++ (if lastInsertEndsWithNewline c then [] else [lineFeedAt 0 c]))
  /\ (forall c c',
        handleListItemClose c = Ok c' ->
        openListItemStack c <> [] ->
        insertRequests c'
        = insertRequests c
            ++ (if lastInsertEndsWithNewline c then [] else [lineFeedAt 0 c]))
  /\ (forall c,
        insertRequests (handleHorizontalRule c)
        = insertRequests c
            ++ (if lastInsertEndsWithNewline c
                then [lineFeedAt 0 c]
                else [lineFeedAt 0 c; lineFeedAt 1 c]))
  /\ (forall c level start,
        currentHeadingLevel c = Some level -> level <> 0 ->
        currentParagraphStart c = Some start ->
        insertRequests (handleHeadingClose c)
        = insertRequests c ++ [lineFeedAt 0 c])
  /\ (forall c,
        listStack c = [] ->
        insertRequests (handleParagraphClose c)
        = insertRequests c
            ++ [insertTextRequest
                  {| index := currentIndex c;
                     location_tabId := keepTabId (tabId c) |} [LF; LF]]).
Proof.
  unfold lineFeedAt. split; [|split; [|split; [|split]]].
  - intros c Hl. unfold handleParagraphClose.
    destruct (listStack c) as [|s l] eqn:El; [contradiction|].
    destruct (lastInsertEndsWithNewline c) eqn:Enl; cbn [negb].
    + rewrite Enl, app_nil_r. now repeat case_match.
    + rewrite lastInsertEndsWithNewline_LF, Z.add_0_r. now repeat case_match.
  - intros c c' H Ho. unfold handleListItemClose in H.
    destruct (last (openListItemStack c)) as [i|] eqn:El;
      [|apply last_None_nil in El; contradiction].
    destruct (_ !! i) as [it|]; [|discriminate]. injection H as <-.
    match goal with
    | |- context [negb (lastInsertEndsWithNewline ?x)] =>
        rewrite (lastInsertEndsWithNewline_same c x)
          by (now repeat case_match)
    end.
    destruct (lastInsertEndsWithNewline c); cbn [negb].
    + rewrite app_nil_r. now repeat case_match.
    + rewrite Z.add_0_r. now repeat case_match.
  - intros c. unfold handleHorizontalRule.
    destruct (lastInsertEndsWithNewline c); cbn [negb]; ctx_simpl.
    + now rewrite Z.add_0_r.
    + rewrite <- app_assoc, Z.add_0_r. reflexivity.
  - intros c level start Hl Hz Hs. unfold handleHeadingClose.
    rewrite Hl, Hs. unfold truthyNumber.
    destruct (Z.eqb_spec level 0); [contradiction|]. cbn [negb]. ctx_simpl.
    now rewrite Z.add_0_r.
  - intros c Hl. unfold handleParagraphClose. rewrite Hl.
    now repeat case_match.
Qed.

(** ** End offsets of the list items *)

(** C9, as stated, fails: the end of a list item with two paragraphs is
    assigned at the close of the first paragraph and assigned again, to a
    greater offset, at the close of the second. *)
Lemma end_offset_assigned_twice :
  ~ (forall tokens later startOffset region c c' i it e,
       processTokens tokens (initialContext startOffset region) = Ok c ->
       pendingListItems c !! i = Some it ->
       item_endIndex it = Some e ->
       processTokens later c = Ok c' ->
       exists it',
         pendingListItems c' !! i = Some it' /\ item_endIndex it' = Some e).
Proof.
  intros H.
  assert (E1 : processTokens tokens_item_first_paragraph (initialContext 1 None)
               = Ok context_first_paragraph) by (vm_compute; reflexivity).
  assert (E2 : processTokens tokens_item_second_paragraph
                 context_first_paragraph
               = Ok context_second_paragraph) by (vm_compute; reflexivity).
  assert (L : pendingListItems context_first_paragraph !! 0%nat
              = Some item_first_paragraph) by (vm_compute; reflexivity).
  destruct (H _ _ _ _ _ _ 0%nat _ 2 E1 L eq_refl E2) as (it' & Hl & He).
  vm_compute in Hl. injection Hl as <-. vm_compute in He. discriminate.
Qed.

Lemma endsKept_refl c c' :
  pendingListItems c' = pendingListItems c -> endsKept c c'.
Proof. intros E i it H. rewrite E. eauto. Qed.

Lemma endsKept_extended c c' : endsKept c c' -> endsExtended c c'.
Proof.
  intros H i it Hi. destruct (H i it Hi) as (it' & Hl & Hs & He).
  exists it'. split; [exact Hl|]. split; [exact Hs|].
  intros e Ee. exists e. rewrite He. split; [exact Ee|lia].
Qed.

Lemma endsExtended_trans c1 c2 c3 :
  endsExtended c1 c2 -> endsExtended c2 c3 -> endsExtended c1 c3.
Proof.
  intros H12 H23 i it Hi.
  destruct (H12 i it Hi) as (it2 & Hl2 & Hs2 & He2).
  destruct (H23 i it2 Hl2) as (it3 & Hl3 & Hs3 & He3).
  exists it3. split; [exact Hl3|]. split; [congruence|].
  intros e Ee. destruct (He2 e Ee) as (e2 & Ee2 & Hle2).
  destruct (He3 e2 Ee2) as (e3 & Ee3 & Hle3).
  exists e3. split; [exact Ee3|lia].
Qed.

Lemma endsKept_trans c1 c2 c3 :
  endsKept c1 c2 -> endsKept c2 c3 -> endsKept c1 c3.
Proof.
  intros H12 H23 i it Hi.
  destruct (H12 i it Hi) as (it2 & Hl2 & Hs2 & He2).
  destruct (H23 i it2 Hl2) as (it3 & Hl3 & Hs3 & He3).
  exists it3. split; [exact Hl3|]. split; congruence.
Qed.

(** A store that changes neither the start nor the end of the item. *)
Lemma endsKept_store c j old new :
  pendingListItems c !! j = Some old ->
  item_startIndex new = item_startIndex old ->
  item_endIndex new = item_endIndex old ->
  endsKept c (storeListItem j new c).
Proof.
  intros Hj Hs He i it Hi. ctx_simpl.
  destruct (decide (i = j)) as [->|Hne].
  - rewrite list_lookup_insert_eq by (now apply lookup_lt_Some in Hj).
    exists new. rewrite Hj in Hi. injection Hi as <-. auto.
  - rewrite list_lookup_insert_ne by congruence. eauto.
Qed.

(** A store that sets the end to an offset not less than the one set. *)
Lemma endsExtended_store c j old e :
  pendingListItems c !! j = Some old ->
  (forall e0, item_endIndex old = Some e0 -> e0 <= e) ->
  endsExtended c (storeListItem j (set_endIndex (Some e) old) c).
Proof.
  intros Hj Hle i it Hi. ctx_simpl.
  destruct (decide (i = j)) as [->|Hne].
  - rewrite list_lookup_insert_eq by (now apply lookup_lt_Some in Hj).
    eexists. split; [reflexivity|]. rewrite Hj in Hi. injection Hi as <-.
    split; [reflexivity|]. intros e0 Ee0. exists e. split; [reflexivity|].
    now apply Hle.
  - rewrite list_lookup_insert_ne by congruence.
    exists it. split; [exact Hi|]. split; [reflexivity|].
    intros e0 Ee0. exists e0. split; [exact Ee0|lia].
Qed.

Lemma pendingListItems_insertCodeLines lines c :
  pendingListItems (fold_left insertCodeLine lines c) = pendingListItems c.
Proof.
  revert c. induction lines as [|l lines IH]; intros c; simpl; [reflexivity|].
  rewrite IH. unfold insertCodeLine. now destruct l.
Qed.

Lemma pendingListItems_insertFormattedText t c :
  pendingListItems (insertFormattedText t c) = pendingListItems c.
Proof. unfold insertFormattedText. now case_match. Qed.

Lemma endsKept_handleTextToken t c : endsKept c (handleTextToken t c).
Proof.
  unfold handleTextToken.
  destruct (negb (truthy _)); [now apply endsKept_refl|].
  destruct (getCurrentOpenListItem c) as [[i it]|] eqn:G;
    [|apply endsKept_refl, pendingListItems_insertFormattedText].
  apply getCurrentOpenListItem_Some in G as [_ G].
  destruct (negb (taskPrefixProcessed it));
    [|apply endsKept_refl, pendingListItems_insertFormattedText].
  destruct (matchTaskPrefix _) as [n|].
  - destruct (negb (truthy _)).
    + now apply (endsKept_store c i it).
    + apply (endsKept_trans _
               (storeListItem i
                  (set_bulletPreset BULLET_CHECKBOX
                     (set_taskPrefixProcessed true it)) c));
        [now apply (endsKept_store c i it)|].
      apply endsKept_refl, pendingListItems_insertFormattedText.
  - apply (endsKept_trans _
             (storeListItem i (set_taskPrefixProcessed true it) c));
      [now apply (endsKept_store c i it)|].
    apply endsKept_refl, pendingListItems_insertFormattedText.
Qed.

Lemma endsKept_handleListItemOpen c c' :
  handleListItemOpen c = Ok c' -> endsKept c c'.
Proof.
  unfold handleListItemOpen.
  destruct (last (listStack c)) as [cl|]; [|discriminate].
  intros [= <-] i it Hi. ctx_simpl. exists it.
  split; [|auto]. apply lookup_app_l_Some. now case_match.
Qed.

(** The close of a list item changes the pending items by at most one
    assignment, of the end of an item whose end is not set. *)
Lemma handleListItemClose_pending c c' :
  handleListItemClose c = Ok c' ->
  pendingListItems c' = pendingListItems c
  \/ exists j old e,
       pendingListItems c !! j = Some old /\ item_endIndex old = None
       /\ pendingListItems c'
          = <[j := set_endIndex (Some e) old]> (pendingListItems c).
Proof.
  unfold handleListItemClose.
  destruct (last (openListItemStack c)) as [j|]; [|intros [= <-]; now left].
  ctx_simpl. destruct (pendingListItems c !! j) as [old|] eqn:Hj;
    [|discriminate].
  intros [= <-].
  assert (Hsame : forall x,
            pendingListItems (if negb (lastInsertEndsWithNewline x)
                              then insertText [LF] x else x)
            = pendingListItems x) by (intros x; now case_match).
  rewrite Hsame.
  destruct (item_endIndex old) eqn:Eo; [now left|].
  case_match; [|now left]. right. ctx_simpl.
  eexists j, old, _. split; [exact Hj|]. split; [exact Eo|reflexivity].
Qed.

(** The close of a list item leaves an end that is set as it is. *)
Lemma handleListItemClose_keeps_set_end c c' i it e :
  handleListItemClose c = Ok c' ->
  pendingListItems c !! i = Some it -> item_endIndex it = Some e ->
  exists it', pendingListItems c' !! i = Some it'
              /\ item_startIndex it' = item_startIndex it
              /\ item_endIndex it' = Some e.
Proof.
  intros H Hi Ee.
  apply handleListItemClose_pending in H as [->|(j & old & e' & Hj & Eo & ->)];
    [eauto|].
  destruct (decide (i = j)) as [->|Hne].
  - rewrite Hj in Hi. injection Hi as <-. congruence.
  - rewrite list_lookup_insert_ne by congruence. eauto.
Qed.

Lemma endsExtended_handleListItemClose c c' :
  handleListItemClose c = Ok c' -> endsExtended c c'.
Proof.
  intros H i it Hi.
  apply handleListItemClose_pending in H as [->|(j & old & e' & Hj & Eo & ->)].
  - exists it. split; [exact Hi|]. split; [reflexivity|].
    intros e Ee. exists e. split; [exact Ee|lia].
  - destruct (decide (i = j)) as [->|Hne].
    + rewrite list_lookup_insert_eq by (now apply lookup_lt_Some in Hj).
      eexists. split; [reflexivity|].
      rewrite Hj in Hi. injection Hi as <-.
      split; [reflexivity|]. intros e Ee. congruence.
    + rewrite list_lookup_insert_ne by congruence.
      exists it. split; [exact Hi|]. split; [reflexivity|].
      intros e Ee. exists e. split; [exact Ee|lia].
Qed.

Lemma endsExtended_handleParagraphClose lo c :
  wellFormed lo c -> endsExtended c (handleParagraphClose c).
Proof.
  intros H. unfold handleParagraphClose.
  pose proof (paragraphClose_terminated c) as Hnl.
  set (c1 := match listStack c with [] => _ | _ => _ end) in *.
  assert (H1 : wellFormed lo c1 /\ pendingListItems c1 = pendingListItems c).
  { subst c1. destruct (listStack c);
      [split; [now apply wellFormed_insertText|reflexivity]|].
    destruct (negb _); split;
      solve [now apply wellFormed_insertText|reflexivity|exact H]. }
  destruct H1 as [H1 Hp]. clearbody c1.
  apply (endsExtended_trans _ c1); [now apply endsKept_extended, endsKept_refl|].
  destruct (getCurrentOpenListItem c1) as [[j old]|] eqn:G;
    [|now apply endsKept_extended, endsKept_refl].
  rewrite Hnl. destruct (_ <? _) eqn:L;
    [|now apply endsKept_extended, endsKept_refl].
  apply getCurrentOpenListItem_Some in G as [_ G].
  apply (endsExtended_trans _ (storeListItem j
           (set_endIndex (Some (currentIndex c1 - 1)) old) c1));
    [|now apply endsKept_extended, endsKept_refl].
  apply endsExtended_store; [exact G|].
  intros e0 Ee0. pose proof (wf_items _ _ H1) as Hit.
  rewrite Forall_lookup in Hit. specialize (Hit _ _ G).
  unfold itemOk in Hit. rewrite Ee0 in Hit. lia.
Qed.

Lemma endsKept_processToken t c c' :
  isLeaf t ->
  kindOf (type t) <> paragraph_close -> kindOf (type t) <> list_item_close ->
  processToken t c = Ok c' -> endsKept c c'.
Proof.
  unfold isLeaf. destruct t as [ty tg a ct ch]. cbn [processToken type].
  intros L Hp Hl. destruct (kindOf ty) eqn:K; try congruence;
    try (intros [= <-]; apply endsKept_refl; reflexivity).
  - intros [= <-]. apply endsKept_refl. unfold handleHeadingOpen. now case_match.
  - intros [= <-]. apply endsKept_refl. unfold handleHeadingClose.
    now repeat case_match.
  - intros [= <-]. apply endsKept_refl. unfold handleParagraphOpen.
    now case_match.
  - intros [= <-]. apply endsKept_handleTextToken.
  - intros [= <-]. unfold handleCodeInlineToken.
    apply (endsKept_trans _ (pushFormatting codeFormatting c));
      [now apply endsKept_refl|].
    apply (endsKept_trans _
             (handleTextToken (mkToken ty tg a ct ch)
                (pushFormatting codeFormatting c)));
      [apply endsKept_handleTextToken|now apply endsKept_refl].
  - repeat case_match; intros [= <-]; now apply endsKept_refl.
  - apply endsKept_handleListItemOpen.
  - intros [= <-]. apply endsKept_refl. unfold handleCodeBlockToken.
    case_match; ctx_simpl; apply pendingListItems_insertCodeLines.
  - intros [= <-]. apply endsKept_refl. unfold handleCodeBlockToken.
    case_match; ctx_simpl; apply pendingListItems_insertCodeLines.
  - intros [= <-]. apply endsKept_refl. unfold handleCodeBlockToken.
    case_match; ctx_simpl; apply pendingListItems_insertCodeLines.
  - intros [= <-]. apply endsKept_refl. unfold handleHorizontalRule.
    now case_match.
Qed.

Lemma endsExtended_processToken lo t c c' :
  isLeaf t -> wellFormed lo c -> processToken t c = Ok c' ->
  endsExtended c c'.
Proof.
  intros L H E.
  destruct (kindOf (type t)) eqn:K;
    try (apply endsKept_extended, (endsKept_processToken t);
         [exact L|congruence|congruence|exact E]).
  - destruct t as [ty tg a ct ch]. cbn [processToken type] in *.
    rewrite K in E. injection E as <-.
    eapply endsExtended_handleParagraphClose; eassumption.
  - destruct t as [ty tg a ct ch]. cbn [processToken type] in *.
    rewrite K in E. now apply endsExtended_handleListItemClose.
Qed.

Lemma endsExtended_processTokens lo ts c c' :
  wellFormed lo c -> processTokens ts c = Ok c' -> endsExtended c c'.
Proof.
  intros H E.
  apply (processTokens_invariant
           (fun x => wellFormed lo x /\ endsExtended c x)) in E.
  - apply E.
  - intros t c0 c1 L [H0 H1] E0. split.
    + eapply wellFormed_processToken; eassumption.
    + eapply endsExtended_trans; [exact H1|].
      eapply endsExtended_processToken; eassumption.
  - split; [exact H|]. now apply endsKept_extended, endsKept_refl.
Qed.

(** *** What the two closes assign *)

Lemma handleParagraphClose_assigns c :
  let c' := handleParagraphClose c in
  lastInsertEndsWithNewline c' = true
  /\ match getCurrentOpenListItem c with
     | Some (i, it) =>
         pendingListItems c'
         = if item_startIndex it <? currentIndex c' - 1
           then <[i := set_endIndex (Some (currentIndex c' - 1)) it]>
                  (pendingListItems c)
           else pendingListItems c
     | None => pendingListItems c' = pendingListItems c
     end.
Proof.
  cbn zeta. unfold handleParagraphClose.
  pose proof (paragraphClose_terminated c) as Hnl.
  set (c1 := match listStack c with [] => _ | _ => _ end) in *.
  assert (H1 : pendingListItems c1 = pendingListItems c
               /\ getCurrentOpenListItem c1 = getCurrentOpenListItem c).
  { subst c1. destruct (listStack c); [split; reflexivity|].
    destruct (negb _); split; reflexivity. }
  destruct H1 as [Hp Hg]. clearbody c1. rewrite Hg, Hnl.
  destruct (getCurrentOpenListItem c) as [[i it]|]; [|split; assumption].
  destruct (item_startIndex it <? currentIndex c1 - 1) eqn:L.
  - split; [exact Hnl|]. ctx_simpl. now rewrite L, Hp.
  - split; [exact Hnl|]. ctx_simpl. now rewrite L.
Qed.

Lemma handleListItemClose_assigns c c' :
  handleListItemClose c = Ok c' ->
  match getCurrentOpenListItem c with
  | Some (i, it) =>
      let e := if lastInsertEndsWithNewline c
               then currentIndex c - 1 else currentIndex c in
      pendingListItems c'
      = match item_endIndex it with
        | Some _ => pendingListItems c
        | None =>
            if item_startIndex it <? e
            then <[i := set_endIndex (Some e) it]> (pendingListItems c)
            else pendingListItems c
        end
  | None => pendingListItems c' = pendingListItems c
  end.
Proof.
  unfold handleListItemClose, getCurrentOpenListItem.
  destruct (last (openListItemStack c)) as [j|]; [|now intros [= <-]].
  ctx_simpl. destruct (pendingListItems c !! j) as [old|] eqn:Hj;
    [|discriminate].
  intros [= <-]. cbn zeta.
  assert (Hsame : forall x,
            pendingListItems (if negb (lastInsertEndsWithNewline x)
                              then insertText [LF] x else x)
            = pendingListItems x).
  { intros x. now destruct (negb _). }
  rewrite Hsame.
  change (lastInsertEndsWithNewline
            (set_openListItemStack (removelast (openListItemStack c)) c))
    with (lastInsertEndsWithNewline c).
  destruct (item_endIndex old) as [e|]; [reflexivity|].
  ctx_simpl. now destruct (_ <? _).
Qed.

(** *** The check of the task prefix along the walk *)
















(** C9, amended. Along a conversion, every pending list item whose end is
    set has its end after its start; whatever is processed later, the item
    keeps its start, and an end that is set stays set and never decreases.
    The close of a paragraph leaves a last insertion that ends in a line
    feed and assigns the end of the innermost open item, set or not, to the
    offset of that line feed, the end of the paragraph, when this is after
    the start of the item; it changes no other item and nothing when no
    item is open. The close of a list item assigns the end of the
    innermost open item only when it is not set, to the current offset less
    the line feed that ends the last insertion, when this is after the
    start of the item, and leaves a set end as it is. No token other than
    the close of a paragraph and the close of a list item assigns an
    end. *)
Theorem end_offsets_extended (startOffset : Z) (region : option jsstring) :
  (forall tokens c,
     processTokens tokens (initialContext startOffset region) = Ok c ->
     Forall (fun it => forall e, item_endIndex it = Some e ->
                                 item_startIndex it < e)
       (pendingListItems c))
  /\ (forall tokens later c c',
        processTokens tokens (initialContext startOffset region) = Ok c ->
        processTokens later c = Ok c' ->
        endsExtended c c')
  /\ (forall c c' i it e,
        handleListItemClose c = Ok c' ->
        pendingListItems c !! i = Some it -> item_endIndex it = Some e ->
        exists it', pendingListItems c' !! i = Some it'
                    /\ item_startIndex it' = item_startIndex it
                    /\ item_endIndex it' = Some e)
  /\ (forall t c c',
        isLeaf t ->
        kindOf (type t) <> paragraph_close ->
        kindOf (type t) <> list_item_close ->
        processToken t c = Ok c' -> endsKept c c')
  /\ (forall c,
        let c' := handleParagraphClose c in
        lastInsertEndsWithNewline c' = true
        /\ match getCurrentOpenListItem c with
           | Some (i, it) =>
               pendingListItems c'
               = if item_startIndex it <? currentIndex c' - 1
                 then <[i := set_endIndex (Some (currentIndex c' - 1)) it]>
                        (pendingListItems c)
                 else pendingListItems c
           | None => pendingListItems c' = pendingListItems c
           end)
  /\ (forall c c',
        handleListItemClose c = Ok c' ->
        match getCurrentOpenListItem c with
        | Some (i, it) =>
            let e := if lastInsertEndsWithNewline c
                     then currentIndex c - 1 else currentIndex c in
            pendingListItems c'
            = match item_endIndex it with
              | Some _ => pendingListItems c
              | None =>
                  if item_startIndex it <? e
                  then <[i := set_endIndex (Some e) it]> (pendingListItems c)
                  else pendingListItems c
              end
        | None => pendingListItems c' = pendingListItems c
        end).
Proof.
  split; [|split; [|split; [|split; [|split]]]].
  - intros tokens c Hc. apply wellFormed_processTokens in Hc.
    eapply Forall_impl; [apply (wf_items _ _ Hc)|].
    intros it [_ Hit] e Ee. rewrite Ee in Hit. lia.
  - intros tokens later c c' Hc. apply wellFormed_processTokens in Hc.
    now apply (endsExtended_processTokens startOffset).
  - intros c c' i it e. apply handleListItemClose_keeps_set_end.
  - apply endsKept_processToken.
  - apply handleParagraphClose_assigns.
  - apply handleListItemClose_assigns.
Qed.

(** ** Empty input *)

(** C10. The conversion of the empty string, and of a string made of white
    space only, returns the empty request list and raises no error. *)
Theorem blank_input_no_requests (hexToRgbColor : jsstring -> option RgbColor)
    (parseMarkdown : jsstring -> list Token)
    (markdown : jsstring) (startOffset : Z) (region : option jsstring) :
  Forall (fun u => isWhiteSpace u = true) markdown ->
  convertMarkdownToRequests hexToRgbColor parseMarkdown
    markdown startOffset region = Ok [].
Proof.
  intros H. unfold convertMarkdownToRequests.
  rewrite (trim_whitespace _ H). simpl. now rewrite orb_true_r.
Qed.


(** ** The theorems at concrete inputs *)

Lemma offsets_tracked_witness :
  convertTokens acceptHex tokens_bold_text 1 None = Ok requests_bold_text
  /\ exists c,
       processTokens tokens_bold_text (initialContext 1 None) = Ok c
       /\ currentIndex c = 1 + insertedLength requests_bold_text
       /\ insertsChained 1 requests_bold_text
       /\ Forall (addressesWithin 1 (currentIndex c)) requests_bold_text.
Proof.
  assert (E : convertTokens acceptHex tokens_bold_text 1 None
              = Ok requests_bold_text) by (vm_compute; reflexivity).
  split; [exact E|].
  destruct (offsets_tracked acceptHex (fun _ => tokens_bold_text) 1 None)
    as (_ & _ & H & _).
  apply H. exact E.
Defined.

Lemma bullets_last_and_descending_witness :
  Forall (fun q => isBullet q = false)
    (insertRequests context_nested_items
       ++ formatRequests context_nested_items)
  /\ exists c',
       finalizeFormatting rejectHex context_nested_items = Ok c'
       /\ exists others bullets items,
            insertRequests c' ++ formatRequests c' = others ++ bullets
            /\ Forall (fun q => isBullet q = false) others
            /\ Forall (fun q => isBullet q = true) bullets
            /\ Permutation items
                 (List.filter hasRange (pendingListItems context_nested_items))
            /\ Forall2 (bulletFor (tabId context_nested_items)) items bullets
            /\ startsNonIncreasing bullets
            /\ forall s,
                 List.filter (startsAt s) items
                 = List.filter (startsAt s)
                     (List.filter hasRange
                        (pendingListItems context_nested_items)).
Proof.
  assert (H : Forall (fun q => isBullet q = false)
                (insertRequests context_nested_items
                   ++ formatRequests context_nested_items))
    by (vm_compute; repeat constructor).
  split; [exact H|].
  destruct (finalizeFormatting rejectHex context_nested_items) as [e|c'] eqn:E;
    [vm_compute in E; discriminate|].
  exists c'. split; [reflexivity|].
  apply (bullets_last_and_descending rejectHex context_nested_items);
    [exact H|exact E].
Defined.

Lemma merged_style_recorded_witness :
  processTokens [token "strong_close"]
    (handleTextToken (textToken "bold text") context_bold_open)
  = Ok (popFormatting
          (handleTextToken (textToken "bold text") context_bold_open)
          key_bold)
  /\ textRanges (handleTextToken (textToken "bold text") context_bold_open)
     `prefix_of`
     textRanges (popFormatting
                   (handleTextToken (textToken "bold text") context_bold_open)
                   key_bold).
Proof.
  assert (E : processTokens [token "strong_close"]
                (handleTextToken (textToken "bold text") context_bold_open)
              = Ok (popFormatting
                      (handleTextToken (textToken "bold text")
                         context_bold_open) key_bold))
    by (vm_compute; reflexivity).
  split; [exact E|].
  destruct (merged_style_recorded (textToken "bold text") context_bold_open)
    as (_ & _ & H).
  apply (H [token "strong_close"]). exact E.
Defined.

Lemma bold_text_scenario_witness :
  (fun _ : jsstring => tokens_bold_text) (js "**bold text**")
  = tokens_bold_text
  /\ convertMarkdownToRequests acceptHex (fun _ => tokens_bold_text)
       (js "**bold text**") 1 None
     = Ok [ insertTextRequest {| index := 1; location_tabId := None |}
              (js "bold text");
            insertTextRequest {| index := 10; location_tabId := None |}
              [LF; LF];
            updateTextStyle
              {| range_startIndex := 1; range_endIndex := 10;
                 range_tabId := None |} boldOnly (js "bold") ].
Proof.
  split; [reflexivity|].
  apply (bold_text_scenario acceptHex (fun _ => tokens_bold_text)).
  reflexivity.
Defined.

Lemma only_orphan_list_item_fails_witness :
  orphanListItem [token "bullet_list_close"; token "list_item_open"]
  /\ convertTokens acceptHex
       [token "bullet_list_close"; token "list_item_open"] 1 None
     = Throw listItemOutsideList.
Proof.
  assert (H : orphanListItem [token "bullet_list_close"; token "list_item_open"]).
  { exists [token "bullet_list_close"], (token "list_item_open"), [].
    split; [vm_compute; reflexivity|]. split; vm_compute; reflexivity. }
  split; [exact H|].
  destruct (only_orphan_list_item_fails acceptHex
              [token "bullet_list_close"; token "list_item_open"] 1 None)
    as ([_ Hif] & _).
  apply Hif. exact H.
Defined.

Lemma faults_wrapped_witness :
  processTokens [mkToken (js "fence") [] None (js "x") None]
    (initialContext 1 None) = Ok context_code_block
  /\ finalizeFormatting rejectHex context_code_block
     = inl (UserError (js "Invalid foreground hex color format: #188038"))
  /\ convertTokens rejectHex [mkToken (js "fence") [] None (js "x") None]
       1 None
     = Throw (MarkdownConversionError
                (js "Failed to convert markdown: "
                   ++ js "Invalid foreground hex color format: #188038")).
Proof.
  assert (E1 : processTokens [mkToken (js "fence") [] None (js "x") None]
                 (initialContext 1 None) = Ok context_code_block)
    by (vm_compute; reflexivity).
  assert (E2 : finalizeFormatting rejectHex context_code_block
               = inl (UserError
                        (js "Invalid foreground hex color format: #188038")))
    by (vm_compute; reflexivity).
  split; [exact E1|]. split; [exact E2|].
  destruct (faults_wrapped rejectHex
              [mkToken (js "fence") [] None (js "x") None] 1 None)
    as (_ & _ & H & _).
  apply (H context_code_block
           (UserError (js "Invalid foreground hex color format: #188038")));
    [exact E1|exact E2].
Defined.


Lemma terminators_guarded_witness :
  listStack context_fresh_item <> []
  /\ insertRequests (handleParagraphClose context_fresh_item)
     = insertRequests context_fresh_item
         ++ (if lastInsertEndsWithNewline context_fresh_item then []
             else [lineFeedAt 0 context_fresh_item]).
Proof.
  assert (H : listStack context_fresh_item <> [])
    by (vm_compute; discriminate).
  split; [exact H|].
  destruct terminators_guarded as (Hp & _).
  apply Hp. exact H.
Defined.

Lemma end_offsets_extended_witness :
  processTokens tokens_item_first_paragraph (initialContext 1 None)
  = Ok context_first_paragraph
  /\ processTokens tokens_item_second_paragraph context_first_paragraph
     = Ok context_second_paragraph
  /\ endsExtended context_first_paragraph context_second_paragraph
  /\ (let c' := handleParagraphClose context_item_text in
      lastInsertEndsWithNewline c' = true
      /\ match getCurrentOpenListItem context_item_text with
         | Some (i, it) =>
             pendingListItems c'
             = if item_startIndex it <? currentIndex c' - 1
               then <[i := set_endIndex (Some (currentIndex c' - 1)) it]>
                      (pendingListItems context_item_text)
               else pendingListItems context_item_text
         | None => pendingListItems c' = pendingListItems context_item_text
         end).
Proof.
  assert (E1 : processTokens tokens_item_first_paragraph (initialContext 1 None)
               = Ok context_first_paragraph) by (vm_compute; reflexivity).
  assert (E2 : processTokens tokens_item_second_paragraph
                 context_first_paragraph
               = Ok context_second_paragraph) by (vm_compute; reflexivity).
  split; [exact E1|]. split; [exact E2|].
  destruct (end_offsets_extended 1 None) as (_ & H & _ & _ & Hp & _).
  split; [|exact (Hp context_item_text)].
  apply (H tokens_item_first_paragraph tokens_item_second_paragraph);
    [exact E1|exact E2].
Defined.

Lemma blank_input_no_requests_witness :
  Forall (fun u => isWhiteSpace u = true) markdown_blank
  /\ convertMarkdownToRequests acceptHex (fun _ => tokens_bold_text)
       markdown_blank 1 None = Ok [].
Proof.
  assert (H : Forall (fun u => isWhiteSpace u = true) markdown_blank)
    by (vm_compute; repeat constructor).
  split; [exact H|].
  apply (blank_input_no_requests acceptHex (fun _ => tokens_bold_text)).
  exact H.
Defined.

(** * Further properties of the conversion *)

(** ** The second invariant of the token walk *)

Lemma lastEnd_cons lo a l : lastEnd lo (a :: l) = lastEnd (endIndex a) l.
Proof. unfold lastEnd. rewrite last_cons. now destruct (last l). Qed.

Lemma spansFrom_snoc lo l r :
  spansFrom lo (l ++ [r])
  <-> spansFrom lo l /\ lastEnd lo l <= startIndex r
      /\ startIndex r < endIndex r.
Proof.
  revert lo. induction l as [|a l IH]; intros lo.
  - unfold lastEnd. simpl. tauto.
  - simpl. rewrite IH, lastEnd_cons. tauto.
Qed.

Lemma lastEnd_snoc lo l r : lastEnd lo (l ++ [r]) = endIndex r.
Proof. unfold lastEnd. now rewrite last_snoc. Qed.

Lemma matchHDigit_range s d : matchHDigit s = Some d -> 0 <= d <= 9.
Proof.
  induction s as [|c s IH]; simpl; [discriminate|].
  destruct s as [|u s']; [discriminate|].
  destruct ((c =? 104)%N && isDigit u) eqn:E; [|exact IH].
  intros [= <-]. apply andb_prop in E as [_ E]. unfold isDigit in E.
  apply andb_prop in E as [E1 E2].
  apply N.leb_le in E1, E2. lia.
Qed.

Lemma tidy_insertText lo tab t c :
  t <> [] -> tidy lo tab c -> tidy lo tab (insertText t c).
Proof.
  intros Ht [Htab Hins Hlev Hhr Hhead Hpara Hstack Hstyled Hspans Hlast]. pose proof (jslength_nonneg t).
  split; ctx_simpl; try assumption.
  - apply Forall_app; split; [assumption|].
    constructor; [|constructor]. rewrite Htab. now eexists _, _.
  - lia.
Qed.

Lemma LF_nonempty : [LF] <> [].
Proof. discriminate. Qed.

Lemma LFLF_nonempty : [LF; LF] <> [].
Proof. discriminate. Qed.

Lemma space_nonempty : js " " <> [].
Proof. discriminate. Qed.

#[local] Hint Resolve LF_nonempty LFLF_nonempty space_nonempty : core.

Lemma tidy_formattingStack lo tab v c :
  Forall linkOk v -> tidy lo tab c -> tidy lo tab (set_formattingStack v c).
Proof. intros Hv [Htab Hins Hlev Hhr Hhead Hpara Hstack Hstyled Hspans Hlast]. split; ctx_simpl; assumption. Qed.

Lemma tidy_pushFormatting lo tab s c :
  linkOk s -> tidy lo tab c -> tidy lo tab (pushFormatting s c).
Proof.
  intros Hs H. apply tidy_formattingStack; [|exact H].
  apply Forall_app; split; [apply (tidy_stack _ _ _ H)|].
  constructor; [exact Hs|constructor].
Qed.

Lemma removeFirst_incl {A} (p : A -> bool) (l : list A) x :
  In x (removeFirst p l) -> In x l.
Proof.
  induction l as [|a l IH]; simpl; [tauto|].
  destruct (p a); simpl; tauto.
Qed.

Lemma tidy_popFormatting lo tab key c :
  tidy lo tab c -> tidy lo tab (popFormatting c key).
Proof.
  intros H. apply tidy_formattingStack; [|exact H].
  pose proof (tidy_stack _ _ _ H) as Hs.
  rewrite List.Forall_forall in *. intros x Hx.
  apply Hs. apply List.in_rev in Hx. apply removeFirst_incl in Hx.
  now apply List.in_rev in Hx.
Qed.

Lemma lastDefined_in {A} (get : FormattingState -> option A) stack v :
  lastDefined get stack = Some v -> exists s, In s stack /\ get s = Some v.
Proof.
  induction stack as [|s stack IH]; simpl; [discriminate|].
  destruct (lastDefined get stack) as [w|].
  - intros [= <-]. destruct (IH eq_refl) as (s' & Hin & Hg). eauto.
  - intros Hg. eauto.
Qed.

Lemma linkOk_merge stack :
  Forall linkOk stack -> linkOk (mergeFormattingStack stack).
Proof.
  intros Hs. rewrite mergeFormattingStack_lastWriterWins.
  unfold linkOk. simpl. intros Hl.
  apply lastDefined_in in Hl as (s & Hin & Hl).
  rewrite List.Forall_forall in Hs. now apply (Hs s Hin).
Qed.

Lemma tidy_paragraphStart lo tab v c :
  tidy lo tab c -> tidy lo tab (set_currentParagraphStart v c).
Proof. intros [Htab Hins Hlev Hhr Hhead Hpara Hstack Hstyled Hspans Hlast]. split; ctx_simpl; assumption. Qed.

Lemma tidy_storeListItem lo tab i it c :
  tidy lo tab c -> tidy lo tab (storeListItem i it c).
Proof. intros [Htab Hins Hlev Hhr Hhead Hpara Hstack Hstyled Hspans Hlast]. split; ctx_simpl; assumption. Qed.

Lemma tidy_openListItemStack lo tab v c :
  tidy lo tab c -> tidy lo tab (set_openListItemStack v c).
Proof. intros [Htab Hins Hlev Hhr Hhead Hpara Hstack Hstyled Hspans Hlast]. split; ctx_simpl; assumption. Qed.

Lemma tidy_pendingListItems lo tab v c :
  tidy lo tab c -> tidy lo tab (set_pendingListItems v c).
Proof. intros [Htab Hins Hlev Hhr Hhead Hpara Hstack Hstyled Hspans Hlast]. split; ctx_simpl; assumption. Qed.

Lemma tidy_pushList lo tab ty c : tidy lo tab c -> tidy lo tab (pushList ty c).
Proof.
  intros [Htab Hins Hlev Hhr Hhead Hpara Hstack Hstyled Hspans Hlast]. split; ctx_simpl; try assumption.
  intros i s Hi. apply lookup_app_Some in Hi as [Hi|[Hle Hi]].
  - now apply Hlev.
  - apply list_lookup_singleton_Some in Hi as [Hi <-]. simpl. lia.
Qed.

Lemma tidy_popList lo tab c : tidy lo tab c -> tidy lo tab (popList c).
Proof.
  intros [Htab Hins Hlev Hhr Hhead Hpara Hstack Hstyled Hspans Hlast]. split; ctx_simpl; try assumption.
  intros i s Hi. apply Hlev.
  destruct (listStack c) as [|a l] using rev_ind; [discriminate|].
  rewrite removelast_last in Hi. now apply lookup_app_l_Some.
Qed.

Lemma tidy_insertFormattedText lo tab t c :
  t <> [] -> tidy lo tab c -> tidy lo tab (insertFormattedText t c).
Proof.
  intros Ht H. unfold insertFormattedText.
  destruct (hasFormatting _) eqn:Ef; [|now apply tidy_insertText].
  apply (tidy_insertText lo tab t _ Ht) in H as H1.
  pose proof (linkOk_merge _ (tidy_stack _ _ _ H)) as Hm.
  assert (0 < jslength t) by (destruct t; [contradiction|unfold jslength; simpl; lia]).
  destruct H as [Htab Hins Hlev Hhr Hhead Hpara Hstack Hstyled Hspans Hlast].
  destruct H1 as [Htab1 Hins1 Hlev1 Hhr1 Hhead1 Hpara1 Hstack1 Hstyled1 Hspans1 Hlast1].
  split; ctx_simpl; try assumption.
  - apply Forall_app; split; [assumption|].
    constructor; [|constructor]. simpl. auto.
  - apply spansFrom_snoc. simpl. split; [assumption|]. lia.
  - rewrite lastEnd_snoc. simpl. lia.
Qed.

Lemma tidy_handleTextToken lo tab t c :
  tidy lo tab c -> tidy lo tab (handleTextToken t c).
Proof.
  intros H. unfold handleTextToken.
  destruct (content t) as [|u s] eqn:E; cbn [truthy negb]; [exact H|].
  destruct (getCurrentOpenListItem c) as [[i it]|];
    [|now apply tidy_insertFormattedText].
  destruct (negb (taskPrefixProcessed it));
    [|now apply tidy_insertFormattedText].
  destruct (matchTaskPrefix _) as [n|].
  - destruct (drop n (u :: s)) as [|u' s'] eqn:Ed; cbn [truthy negb].
    + now apply tidy_storeListItem.
    + apply tidy_insertFormattedText; [discriminate|].
      now apply tidy_storeListItem.
  - apply tidy_insertFormattedText; [discriminate|].
    now apply tidy_storeListItem.
Qed.

Lemma tidy_insertCodeLine lo tab c line :
  tidy lo tab c -> tidy lo tab (insertCodeLine c line).
Proof.
  intros H. unfold insertCodeLine. apply tidy_insertText; [discriminate|].
  set (visible := match line with [] => js " " | _ => line end).
  assert (Hv : 0 < jslength visible)
    by (subst visible; destruct line; unfold jslength; simpl; lia).
  replace (match line with [] => insertText (js " ") c | _ :: _ => insertText line c end)
    with (insertText visible c) by (subst visible; now destruct line).
  assert (Hne : visible <> [])
    by (subst visible; destruct line; discriminate).
  apply (tidy_insertText lo tab visible _ Hne) in H as H1.
  destruct H as [Htab Hins Hlev Hhr Hhead Hpara Hstack Hstyled Hspans Hlast].
  destruct H1 as [Htab1 Hins1 Hlev1 Hhr1 Hhead1 Hpara1 Hstack1 Hstyled1 Hspans1 Hlast1].
  split; ctx_simpl; try assumption.
  - apply Forall_app; split; [assumption|].
    constructor; [|constructor]. simpl. split; [reflexivity|discriminate].
  - apply spansFrom_snoc. simpl. split; [assumption|]. lia.
  - rewrite lastEnd_snoc. simpl. lia.
Qed.

Lemma tidy_handleCodeBlockToken lo tab t c :
  tidy lo tab c -> tidy lo tab (handleCodeBlockToken t c).
Proof.
  intros H. unfold handleCodeBlockToken.
  set (lines := match _ with [] => _ | _ => _ end). clearbody lines.
  assert (H1 : tidy lo tab (fold_left insertCodeLine lines c)).
  { revert c H. induction lines as [|l lines IH]; intros c H; simpl; [exact H|].
    now apply IH, tidy_insertCodeLine. }
  destruct (negb _); [now apply tidy_insertText|exact H1].
Qed.

Lemma tidy_handleHeadingOpen lo tab t c :
  tidy lo tab c -> tidy lo tab (handleHeadingOpen t c).
Proof.
  intros H. unfold handleHeadingOpen.
  destruct (getHeadingLevel t) as [h|] eqn:E; [|exact H].
  unfold truthyNumber. destruct (Z.eqb_spec h 0); [exact H|]. cbn [negb].
  apply tidy_paragraphStart.
  unfold getHeadingLevel in E. destruct (negb _); [discriminate|].
  apply matchHDigit_range in E.
  destruct H as [Htab Hins Hlev Hhr Hhead Hpara Hstack Hstyled Hspans Hlast]. split; ctx_simpl; try assumption.
  intros h' [= <-]. lia.
Qed.

Lemma tidy_handleHeadingClose lo tab c :
  tidy lo tab c -> tidy lo tab (handleHeadingClose c).
Proof.
  intros H. unfold handleHeadingClose.
  destruct (currentHeadingLevel c) as [h|] eqn:Eh; [|exact H].
  destruct (currentParagraphStart c) as [p|]; [|exact H].
  destruct (truthyNumber _); [|exact H].
  apply tidy_paragraphStart.
  pose proof (tidy_heading _ _ _ H h Eh) as Hh.
  assert (H1 : tidy lo tab
                 (set_paragraphRanges
                    (paragraphRanges c
                       ++ [{| para_startIndex := p;
                              para_endIndex := currentIndex c;
                              namedStyleType :=
                                Some (js "HEADING_" ++ numberToString h) |}]) c)).
  { destruct H. split; ctx_simpl; try assumption.
    apply Forall_app; split; [assumption|].
    constructor; [|constructor]. exists h. split; [exact Hh|reflexivity]. }
  apply (tidy_insertText lo tab [LF] _ LF_nonempty) in H1.
  destruct H1 as [Htab Hins Hlev Hhr Hhead Hpara Hstack Hstyled Hspans Hlast].
  split; ctx_simpl; try assumption. discriminate.
Qed.

Lemma tidy_handleHorizontalRule lo tab c :
  tidy lo tab c -> tidy lo tab (handleHorizontalRule c).
Proof.
  intros H. unfold handleHorizontalRule.
  set (c1 := if negb _ then _ else _).
  assert (H1 : tidy lo tab c1)
    by (subst c1; destruct (negb _); [now apply tidy_insertText|exact H]).
  clearbody c1. apply (tidy_insertText lo tab [LF] _ LF_nonempty) in H1 as H2.
  destruct H2 as [Htab Hins Hlev Hhr Hhead Hpara Hstack Hstyled Hspans Hlast]. split; ctx_simpl; try assumption.
  apply Forall_app; split; [assumption|].
  constructor; [|constructor]. reflexivity.
Qed.

Lemma tidy_handleParagraphClose lo tab c :
  tidy lo tab c -> tidy lo tab (handleParagraphClose c).
Proof.
  intros H. unfold handleParagraphClose. apply tidy_paragraphStart.
  set (c1 := match listStack c with [] => _ | _ => _ end).
  assert (H1 : tidy lo tab c1).
  { subst c1. destruct (listStack c); [now apply tidy_insertText|].
    destruct (negb _); [now apply tidy_insertText|exact H]. }
  clearbody c1.
  destruct (getCurrentOpenListItem c1) as [[i it]|]; [|exact H1].
  destruct (_ <? _); [now apply tidy_storeListItem|exact H1].
Qed.

Lemma tidy_handleListItemOpen lo tab c c' :
  tidy lo tab c -> handleListItemOpen c = Ok c' -> tidy lo tab c'.
Proof.
  intros H. unfold handleListItemOpen.
  destruct (last (listStack c)) as [cl|]; [|discriminate].
  intros [= <-]. apply tidy_openListItemStack.
  apply (tidy_pendingListItems lo tab).
  destruct (Nat.ltb_spec 0 (level cl)); [|exact H].
  apply tidy_insertText; [|exact H].
  unfold repeatUnit. destruct (level cl); [lia|discriminate].
Qed.

Lemma tidy_handleListItemClose lo tab c c' :
  tidy lo tab c -> handleListItemClose c = Ok c' -> tidy lo tab c'.
Proof.
  intros H. unfold handleListItemClose.
  destruct (last (openListItemStack c)) as [i|]; [|now intros [= <-]].
  destruct (_ !! i) as [it|]; [|discriminate]. intros [= <-].
  apply (tidy_openListItemStack lo tab (removelast (openListItemStack c)))
    in H.
  repeat case_match;
    repeat first [apply tidy_insertText; [discriminate|]
                 | apply tidy_storeListItem];
    exact H.
Qed.

Lemma tidy_processToken lo tab t c c' :
  isLeaf t -> tidy lo tab c -> processToken t c = Ok c' -> tidy lo tab c'.
Proof.
  unfold isLeaf. destruct t as [ty tg a ct ch]. cbn [processToken type].
  intros L H. destruct (kindOf ty) eqn:K; try congruence;
    try (intros [= <-]);
    try exact H;
    try (apply tidy_popFormatting; exact H);
    try (apply tidy_pushFormatting; [discriminate|exact H]);
    try (apply tidy_insertText; [discriminate|exact H]);
    try (apply tidy_handleCodeBlockToken; exact H).
  - now apply tidy_handleHeadingOpen.
  - now apply tidy_handleHeadingClose.
  - unfold handleParagraphOpen.
    case_match; [now apply tidy_paragraphStart|exact H].
  - now apply tidy_handleParagraphClose.
  - now apply tidy_handleTextToken.
  - unfold handleCodeInlineToken.
    apply tidy_popFormatting, tidy_handleTextToken, tidy_pushFormatting;
      [discriminate|exact H].
  - destruct (getLinkHref _) as [href|]; [destruct href as [|u href]|];
      cbn [truthy]; intros [= <-]; try exact H.
    apply tidy_pushFormatting; [discriminate|exact H].
  - now apply tidy_pushList.
  - now apply tidy_popList.
  - now apply tidy_pushList.
  - now apply tidy_popList.
  - now apply (tidy_handleListItemOpen lo tab c).
  - now apply (tidy_handleListItemClose lo tab c).
  - now apply tidy_handleHorizontalRule.
Qed.

Lemma tidy_initialContext lo tab : tidy lo tab (initialContext lo tab).
Proof.
  split; simpl; try (now constructor); try reflexivity; try lia;
    try (intros; discriminate).
Qed.

Lemma tidy_processTokens lo tab ts c :
  processTokens ts (initialContext lo tab) = Ok c -> tidy lo tab c.
Proof.
  apply (processTokens_invariant (tidy lo tab)).
  - intros t c0 c'. apply tidy_processToken.
  - apply tidy_initialContext.
Qed.

(** ** The region of the requests *)

Lemma buildUpdateTextStyleRequest_tabId hex a b style tab r :
  buildUpdateTextStyleRequest hex a b style tab = Ok (Some r) ->
  requestTabId (fst r) = keepTabId tab /\ requestRank (fst r) = 1%nat.
Proof.
  unfold buildUpdateTextStyleRequest. intros H.
  apply bind_Ok in H as (fg & _ & H). apply bind_Ok in H as (bg & _ & H).
  destruct (_ ++ _); [discriminate|]. injection H as <-. auto.
Qed.

Lemma styleRequest_tabId hex a b style tab l :
  (let! request := buildUpdateTextStyleRequest hex a b style tab in
   Ok (match request with Some r => [fst r] | None => [] end)) = Ok l ->
  Forall (fun q => requestTabId q = keepTabId tab
                   /\ requestRank q = 1%nat) l.
Proof.
  intros H. apply bind_Ok in H as ([r|] & Hr & [= <-]); [|constructor].
  constructor; [|constructor].
  now apply buildUpdateTextStyleRequest_tabId in Hr.
Qed.

Lemma textStyleRequests_tabId hex tab rs l :
  textStyleRequests hex tab rs = Ok l ->
  Forall (fun q => requestTabId q = keepTabId tab
                   /\ requestRank q = 1%nat) l.
Proof.
  revert l. induction rs as [|r rs IH]; simpl; intros l.
  - intros [= <-]. constructor.
  - intros H. apply bind_Ok in H as (here & E & H).
    apply bind_Ok in H as (after & E' & [= <-]).
    apply Forall_app; split; [|now apply IH].
    unfold textRangeRequests in E.
    apply bind_Ok in E as (styles & Hs & E).
    apply bind_Ok in E as (links & Hl & [= <-]).
    apply Forall_app; split.
    + destruct (_ || _); [|injection Hs as <-; constructor].
      now apply styleRequest_tabId in Hs.
    + destruct (link (formatting r)) as [url|];
        [|injection Hl as <-; constructor].
      destruct (truthy url); [|injection Hl as <-; constructor].
      now apply styleRequest_tabId in Hl.
Qed.

Lemma paragraphRequests_tabId tab rs :
  Forall (fun q => requestTabId q = keepTabId tab
                   /\ requestRank q = 2%nat)
    (concat (List.map (paragraphRequest tab) rs)).
Proof.
  induction rs as [|r rs IH]; simpl; [constructor|].
  apply Forall_app; split; [|exact IH].
  unfold paragraphRequest.
  destruct (namedStyleType r) as [name|]; [|constructor].
  destruct (truthy name); [|constructor].
  simpl. constructor; [|constructor]. auto.
Qed.

Lemma borderRequests_tabId tab rs :
  Forall (fun q => requestTabId q = keepTabId tab
                   /\ requestRank q = 3%nat)
    (List.map (borderRequest tab) rs).
Proof. induction rs as [|r rs IH]; simpl; constructor; auto. Qed.

Lemma bulletRequests_tabId tab its :
  Forall (fun q => requestTabId q = keepTabId tab
                   /\ requestRank q = 4%nat)
    (concat (List.map (bulletRequest tab) its)).
Proof.
  induction its as [|it its IH]; simpl; [constructor|].
  apply Forall_app; split; [|exact IH].
  unfold bulletRequest. destruct (item_endIndex it); [|constructor].
  destruct (_ <? _); [|constructor]. constructor; [|constructor]. auto.
Qed.

(** The five blocks of the list a conversion returns. *)
Lemma convertTokens_blocks hex tokens start region reqs :
  convertTokens hex tokens start region = Ok reqs ->
  exists inserts styles paragraphs borders bullets,
    reqs = inserts ++ styles ++ paragraphs ++ borders ++ bullets
    /\ Forall (fun q => requestTabId q = keepTabId region
                        /\ requestRank q = 0%nat) inserts
    /\ Forall (fun q => requestTabId q = keepTabId region
                        /\ requestRank q = 1%nat) styles
    /\ Forall (fun q => requestTabId q = keepTabId region
                        /\ requestRank q = 2%nat) paragraphs
    /\ Forall (fun q => requestTabId q = keepTabId region
                        /\ requestRank q = 3%nat) borders
    /\ Forall (fun q => requestTabId q = keepTabId region
                        /\ requestRank q = 4%nat) bullets.
Proof.
  intros H. apply convertTokens_Ok in H as (c & styles & Hc & _ & Hs & ->).
  apply tidy_processTokens in Hc.
  pose proof (tidy_tabId _ _ _ Hc) as Ht. unfold finalRequests.
  rewrite Ht in *.
  eexists _, _, _, _, _. split; [reflexivity|].
  split; [|split; [|split; [|split]]].
  - eapply Forall_impl; [apply (tidy_inserts _ _ _ Hc)|].
    intros q (i & t & _ & ->). auto.
  - eapply textStyleRequests_tabId, Hs.
  - apply paragraphRequests_tabId.
  - apply borderRequests_tabId.
  - apply bulletRequests_tabId.
Qed.

(** X1. Every request of the list a conversion returns addresses the
    region given to the conversion, and none when the region id is absent
    or empty. *)
Theorem region_on_every_request (hexToRgbColor : jsstring -> option RgbColor)
    (tokens : list Token) (startOffset : Z) (region : option jsstring)
    (reqs : list Request) :
  convertTokens hexToRgbColor tokens startOffset region = Ok reqs ->
  Forall (fun q => requestTabId q = keepTabId region) reqs.
Proof.
  intros H.
  apply convertTokens_blocks in H
    as (l0 & l1 & l2 & l3 & l4 & -> & H0 & H1 & H2 & H3 & H4).
  repeat (apply Forall_app; split);
    (eapply Forall_impl; [eassumption|]); now intros q [Hq _].
Qed.

Lemma rankOrdered_block k l :
  Forall (fun q => requestRank q = k) l -> rankOrdered l.
Proof.
  unfold rankOrdered. induction 1 as [|q l Hq Hl IH]; constructor; [exact IH|].
  eapply Forall_impl; [exact Hl|]. simpl. intros; lia.
Qed.

Lemma rankOrdered_app k l1 l2 :
  rankOrdered l1 -> rankOrdered l2 ->
  Forall (fun q => (requestRank q <= k)%nat) l1 ->
  Forall (fun q => (k <= requestRank q)%nat) l2 ->
  rankOrdered (l1 ++ l2).
Proof.
  unfold rankOrdered. intros H1 H2 Hle Hge.
  induction H1 as [|q l1 Hl1 IH Hq]; simpl; [exact H2|].
  inversion Hle as [|? ? Hqk Hle']; subst.
  constructor; [now apply IH|].
  apply Forall_app; split; [exact Hq|].
  eapply Forall_impl; [exact Hge|]. simpl. intros; lia.
Qed.

(** X2. In the list a conversion returns, the insertions come first, then
    the character style requests, then the named paragraph style requests,
    then the border requests, and the bullet requests last. *)
Theorem requests_in_phase_order (hexToRgbColor : jsstring -> option RgbColor)
    (tokens : list Token) (startOffset : Z) (region : option jsstring)
    (reqs : list Request) :
  convertTokens hexToRgbColor tokens startOffset region = Ok reqs ->
  rankOrdered reqs.
Proof.
  intros H.
  apply convertTokens_blocks in H
    as (l0 & l1 & l2 & l3 & l4 & -> & H0 & H1 & H2 & H3 & H4).
  assert (R : forall k (l : list Request),
             Forall (fun q => requestTabId q = keepTabId region
                              /\ requestRank q = k) l ->
             Forall (fun q => requestRank q = k) l).
  { intros k l Hl. eapply Forall_impl; [exact Hl|]. now intros q [_ Hq]. }
  apply R in H0, H1, H2, H3, H4.
  assert (Wge : forall k k' (l : list Request),
             (k' <= k)%nat ->
             Forall (fun q => requestRank q = k) l ->
             Forall (fun q => (k' <= requestRank q)%nat) l).
  { intros k k' l Hk Hl. eapply Forall_impl; [exact Hl|].
    simpl. intros; lia. }
  assert (Wle : forall k (l : list Request),
             Forall (fun q => requestRank q = k) l ->
             Forall (fun q => (requestRank q <= k)%nat) l).
  { intros k l Hl. eapply Forall_impl; [exact Hl|]. simpl. intros; lia. }
  apply (rankOrdered_app 0);
    [now apply (rankOrdered_block 0%nat)| |now apply Wle|].
  2: { repeat (apply Forall_app; split);
         [apply (Wge 1%nat)|apply (Wge 2%nat)|apply (Wge 3%nat)
         |apply (Wge 4%nat)]; (lia || assumption). }
  apply (rankOrdered_app 1);
    [now apply (rankOrdered_block 1%nat)| |now apply Wle|].
  2: { repeat (apply Forall_app; split);
         [apply (Wge 2%nat)|apply (Wge 3%nat)|apply (Wge 4%nat)];
         (lia || assumption). }
  apply (rankOrdered_app 2);
    [now apply (rankOrdered_block 2%nat)| |now apply Wle|].
  2: { repeat (apply Forall_app; split);
         [apply (Wge 3%nat)|apply (Wge 4%nat)]; (lia || assumption). }
  apply (rankOrdered_app 3);
    [now apply (rankOrdered_block 3%nat)|now apply (rankOrdered_block 4%nat)
    |now apply Wle|apply (Wge 4%nat); (lia || assumption)].
Qed.

(** ** Success of the conversion *)

Lemma convertMarkdownToRequests_cases hex parse markdown start region r :
  convertMarkdownToRequests hex parse markdown start region = r ->
  r = Ok [] \/ r = convertTokens hex (parse markdown) start region.
Proof.
  unfold convertMarkdownToRequests. destruct (_ || _); intros <-; auto.
Qed.

Lemma parseColor_accepts hex what f v :
  hex v <> None -> exists rgb, parseColor hex what (whenCode f v) = Ok rgb.
Proof.
  intros Hv. unfold parseColor, whenCode.
  destruct (isTrue (code f)); [|eauto].
  destruct (hex v); [eauto|contradiction].
Qed.

Lemma textRangeRequests_succeeds hex tab r :
  hex CODE_TEXT_HEX <> None -> hex CODE_BACKGROUND_HEX <> None ->
  exists l, textRangeRequests hex tab r = Ok l.
Proof.
  intros Hfg Hbg. unfold textRangeRequests, buildUpdateTextStyleRequest.
  cbn [arg_foregroundColor arg_backgroundColor].
  destruct (parseColor_accepts hex "foreground" (formatting r) _ Hfg)
    as (fg & ->).
  destruct (parseColor_accepts hex "background" (formatting r) _ Hbg)
    as (bg & ->).
  cbn [bind parseColor].
  destruct (_ || _); cbn [bind];
    repeat (match goal with
            | |- context [match ?x ++ ?y with [] => _ | _ :: _ => _ end] =>
                destruct (x ++ y)
            end; cbn [bind]);
    destruct (link (formatting r)) as [url|]; try destruct (truthy url);
    cbn [bind field app]; eauto.
Qed.

Lemma textStyleRequests_succeeds hex tab rs :
  hex CODE_TEXT_HEX <> None -> hex CODE_BACKGROUND_HEX <> None ->
  exists l, textStyleRequests hex tab rs = Ok l.
Proof.
  intros Hfg Hbg. induction rs as [|r rs [after IH]]; simpl; [eauto|].
  destruct (textRangeRequests_succeeds hex tab r Hfg Hbg) as (here & ->).
  rewrite IH. simpl. eauto.
Qed.

Lemma finalizeFormatting_succeeds hex c :
  hex CODE_TEXT_HEX <> None -> hex CODE_BACKGROUND_HEX <> None ->
  exists c', finalizeFormatting hex c = Ok c'.
Proof.
  intros Hfg Hbg. unfold finalizeFormatting.
  destruct (textStyleRequests_succeeds hex (tabId c) (textRanges c) Hfg Hbg)
    as (styles & ->).
  simpl. eauto.
Qed.

(** X3. When the two colours of the code style are read by
    [hexToRgbColor], a conversion either returns a request list or raises
    the error of a list item outside any list, which it does exactly when
    the token walk meets such an item: no other token, supported or not,
    makes it fail. *)
Theorem fails_only_on_orphan_item (hexToRgbColor : jsstring -> option RgbColor)
    (tokens : list Token) (startOffset : Z) (region : option jsstring) :
  hexToRgbColor CODE_TEXT_HEX <> None ->
  hexToRgbColor CODE_BACKGROUND_HEX <> None ->
  (orphanListItem tokens
   /\ convertTokens hexToRgbColor tokens startOffset region
      = Throw listItemOutsideList)
  \/ (~ orphanListItem tokens
      /\ exists reqs,
           convertTokens hexToRgbColor tokens startOffset region = Ok reqs).
Proof.
  intros Hfg Hbg.
  pose proof (processTokens_leaves_failure startOffset _
                (allLeaves_isLeaf tokens) _
                (wellFormed_initialContext startOffset region)) as [He Ho].
  rewrite <- processTokens_allLeaves in He, Ho.
  unfold convertTokens, orphanListItem.
  destruct (processTokens tokens _) as [e|c] eqn:E; simpl.
  - left. rewrite (He e eq_refl) in *. split; [now apply Ho|reflexivity].
  - right. split.
    + intros Hor. apply Ho in Hor. discriminate.
    + destruct (finalizeFormatting_succeeds hexToRgbColor c Hfg Hbg)
        as (c' & ->).
      simpl. eauto.
Qed.

(** ** Nesting of the list items *)

Lemma last_lookup_length {A} (l : list A) x :
  last l = Some x -> l !! (length l - 1)%nat = Some x.
Proof.
  destruct l as [|a l] using rev_ind; [discriminate|].
  rewrite last_snoc. intros [= <-].
  rewrite length_app. simpl.
  replace (length l + 1 - 1)%nat with (length l) by lia.
  now apply list_lookup_middle.
Qed.

(** X4. At any point of a conversion, a list item opened while [d] lists
    are open gets the nesting level [d - 1]; its range starts at the
    current index, and [d - 1] tab characters are inserted there, in one
    insertion, when [d > 1] and nothing is inserted when [d = 1]. *)
Theorem item_nesting_is_list_depth (tokens : list Token) (startOffset : Z)
    (region : option jsstring) (c c' : ConversionContext) :
  processTokens tokens (initialContext startOffset region) = Ok c ->
  handleListItemOpen c = Ok c' ->
  let depth := length (listStack c) in
  exists it,
    pendingListItems c' = pendingListItems c ++ [it]
    /\ nestingLevel it = (depth - 1)%nat
    /\ item_startIndex it = currentIndex c
    /\ item_endIndex it = None
    /\ currentIndex c' = currentIndex c + Z.of_nat (depth - 1)
    /\ insertedTexts (insertRequests c')
       = insertedTexts (insertRequests c)
           ++ (if (1 <? depth)%nat then [repeatUnit TAB (depth - 1)] else []).
Proof.
  intros Hc Ho depth. apply tidy_processTokens in Hc.
  unfold handleListItemOpen in Ho.
  destruct (last (listStack c)) as [cl|] eqn:El; [|discriminate].
  pose proof (tidy_levels _ _ _ Hc _ _ (last_lookup_length _ _ El)) as Hl.
  fold depth in Hl. injection Ho as <-. rewrite Hl.
  eexists. ctx_simpl. split.
  { f_equal. now destruct (0 <? depth - 1)%nat. }
  split; [reflexivity|]. split; [reflexivity|]. split; [reflexivity|].
  destruct (Nat.ltb_spec 0 (depth - 1)) as [Hp|Hp].
  - destruct (Nat.ltb_spec 1 depth) as [_|Hq]; [|lia]. ctx_simpl.
    unfold insertedTexts. rewrite flat_map_app. simpl.
    unfold jslength, repeatUnit. rewrite length_replicate. auto.
  - destruct (Nat.ltb_spec 1 depth) as [Hq|_]; [lia|].
    replace (depth - 1)%nat with 0%nat by lia. simpl.
    rewrite app_nil_r. split; [lia|reflexivity].
Qed.

(** ** Ranges of the style requests *)

Lemma Forall_concat_map {A B} (P : B -> Prop) (f : A -> list B) (l : list A) :
  (forall a, In a l -> Forall P (f a)) -> Forall P (concat (List.map f l)).
Proof.
  induction l as [|a l IH]; simpl; intros H; [constructor|].
  apply Forall_app; split; [apply H; now left|].
  apply IH. intros a' Ha'. apply H. now right.
Qed.

(** X5. Every border request of a conversion covers one character, the
    line feed of the empty paragraph of its thematic break, and every named
    paragraph style request carries a heading style, from [HEADING_1] to
    [HEADING_9], and nothing else. *)
Theorem paragraph_requests_shape (hexToRgbColor : jsstring -> option RgbColor)
    (tokens : list Token) (startOffset : Z) (region : option jsstring)
    (reqs : list Request) :
  convertTokens hexToRgbColor tokens startOffset region = Ok reqs ->
  Forall (fun q =>
            match q with
            | updateParagraphStyle r ps fields =>
                match ps_borderBottom ps with
                | Some border =>
                    range_endIndex r = range_startIndex r + 1
                    /\ border = hrBorder /\ ps_namedStyleType ps = None
                    /\ fields = js "borderBottom"
                | None =>
                    (exists h, 1 <= h <= 9
                               /\ ps_namedStyleType ps = Some (headingStyle h))
                    /\ fields = js "namedStyleType"
                end
            | _ => True
            end) reqs.
Proof.
  intros H. apply convertTokens_Ok in H as (c & styles & Hc & _ & Hs & ->).
  apply tidy_processTokens in Hc. unfold finalRequests.
  repeat (apply Forall_app; split).
  - eapply Forall_impl; [apply (tidy_inserts _ _ _ Hc)|].
    now intros q (i & t & _ & ->).
  - apply textStyleRequests_tabId in Hs.
    eapply Forall_impl; [exact Hs|]. intros [ | | |]; simpl; try tauto.
    intros [_ Hr]. destruct (ps_borderBottom _); discriminate.
  - apply Forall_concat_map. intros r Hr.
    pose proof (tidy_para _ _ _ Hc) as Hp.
    rewrite List.Forall_forall in Hp. destruct (Hp r Hr) as (h & Hh & Hn).
    unfold paragraphRequest. rewrite Hn.
    destruct (truthy _); [|constructor].
    simpl. constructor; [|constructor]. simpl. split; [eauto|reflexivity].
  - pose proof (tidy_hr _ _ _ Hc) as Hh.
    induction Hh as [|r rs Hr _ IH]; simpl; constructor; [|exact IH].
    simpl. auto.
  - eapply Forall_impl; [apply (bulletRequests_tabId (tabId c))|].
    intros [ | | |]; simpl; try tauto.
    intros [_ Hr]. destruct (ps_borderBottom _); discriminate.
Qed.

Lemma rangesAscending_nil : rangesAscending [].
Proof. intros i j q1 q2 a1 b1 a2 b2 _ H. now rewrite lookup_nil in H. Qed.

(** The requests of a span have its range; the requests of the spans after
    it start at its end or after. *)
Lemma rangesAscending_app (a b : Z) (here after : list Request) :
  Forall (fun q => requestRange q = Some (a, b)) here ->
  Forall (fun q => forall a' b', requestRange q = Some (a', b') -> b <= a')
    after ->
  rangesAscending after -> rangesAscending (here ++ after).
Proof.
  intros Hh Ha Hasc i j q1 q2 a1 b1 a2 b2 Hij H1 H2 R1 R2.
  rewrite List.Forall_forall in Hh, Ha.
  apply lookup_app_Some in H1 as [H1|[Hle1 H1]].
  - apply list_elem_of_lookup_2, list_elem_of_In, Hh in H1.
    rewrite H1 in R1. injection R1 as <- <-.
    apply lookup_app_Some in H2 as [H2|[Hle2 H2]].
    + apply list_elem_of_lookup_2, list_elem_of_In, Hh in H2.
      rewrite H2 in R2. injection R2 as <- <-. now left.
    + right. apply list_elem_of_lookup_2, list_elem_of_In in H2.
      now apply (Ha _ H2 _ b2).
  - apply lookup_app_Some in H2 as [H2|[Hle2 H2]].
    + apply lookup_lt_Some in H2. lia.
    + apply (Hasc (i - length here)%nat (j - length here)%nat q1 q2);
        try assumption. lia.
Qed.

Lemma textStyleRequests_ascending hex tab lo rs l :
  spansFrom lo rs -> textStyleRequests hex tab rs = Ok l ->
  Forall (fun q => forall a b, requestRange q = Some (a, b) ->
                               lo <= a /\ a < b) l
  /\ rangesAscending l.
Proof.
  revert lo l. induction rs as [|r rs IH]; simpl; intros lo l Hsp H.
  - injection H as <-. split; [constructor|apply rangesAscending_nil].
  - apply bind_Ok in H as (here & E & H).
    apply bind_Ok in H as (after & E' & [= <-]).
    destruct Hsp as (Hlo & Hne & Hsp).
    destruct (IH _ _ Hsp E') as [IHb IHa].
    apply textRangeRequests_styleOn in E.
    assert (Hhere : Forall (fun q => requestRange q
                                     = Some (startIndex r, endIndex r)) here).
    { eapply Forall_impl; [exact E|]. now intros q (_ & _ & Hq). }
    split.
    + apply Forall_app; split.
      * eapply Forall_impl; [exact Hhere|]. simpl.
        intros q Hq a b Hab. rewrite Hq in Hab. injection Hab as <- <-. lia.
      * eapply Forall_impl; [exact IHb|]. simpl.
        intros q Hq a b Hab. specialize (Hq a b Hab). lia.
    + apply (rangesAscending_app (startIndex r) (endIndex r));
        [exact Hhere| |exact IHa].
      eapply Forall_impl; [exact IHb|]. simpl.
      intros q Hq a b Hab. now apply (Hq a b).
Qed.

(** X6. Along a conversion the styled spans are recorded in increasing
    order: no span is empty and each starts where the one before ends or
    after. In the returned list, a character style request has a range
    that is not empty, and of two character style requests the later one
    has the range of the earlier one (the link request of the same span) or
    starts at its end or after: the ranges never overlap in part. *)
Theorem style_ranges_ascending (hexToRgbColor : jsstring -> option RgbColor)
    (tokens : list Token) (startOffset : Z) (region : option jsstring) :
  (forall c,
     processTokens tokens (initialContext startOffset region) = Ok c ->
     spansFrom startOffset (textRanges c))
  /\ (forall reqs,
        convertTokens hexToRgbColor tokens startOffset region = Ok reqs ->
        rangesAscending (List.filter isTextStyle reqs)
        /\ Forall (fun q => forall a b,
                     requestRange q = Some (a, b) -> a < b)
             (List.filter isTextStyle reqs)).
Proof.
  split.
  - intros c Hc. apply tidy_processTokens in Hc. apply (tidy_spans _ _ _ Hc).
  - intros reqs H.
    apply convertTokens_Ok in H as (c & styles & Hc & _ & Hs & ->).
    apply tidy_processTokens in Hc as Ht.
    unfold finalRequests.
    assert (Hf : forall (l : list Request) k,
               k <> 1%nat ->
               Forall (fun q => requestRank q = k) l ->
               List.filter isTextStyle l = []).
    { intros l k Hk Hl. induction Hl as [|q l Hq _ IH]; [reflexivity|].
      simpl. rewrite IH. destruct q; simpl in *; try reflexivity.
      congruence. }
    assert (Hs1 : List.filter isTextStyle styles = styles).
    { apply textStyleRequests_tabId in Hs.
      induction Hs as [|q l [_ Hq] _ IH]; [reflexivity|].
      simpl. rewrite IH. destruct q; simpl in *; try discriminate.
      - reflexivity.
      - destruct (ps_borderBottom _); discriminate. }
    rewrite !List.filter_app, Hs1.
    rewrite (Hf (insertRequests c) 0%nat), (Hf (concat _) 2%nat),
      (Hf (List.map _ _) 3%nat), (Hf (concat _) 4%nat); try lia.
    + simpl. rewrite app_nil_r.
      destruct (textStyleRequests_ascending _ _ _ _ _ (tidy_spans _ _ _ Ht) Hs)
        as [Hb Ha].
      split; [exact Ha|].
      eapply Forall_impl; [exact Hb|]. simpl.
      intros q Hq a b Hab. now apply (Hq a b).
    + eapply Forall_impl; [apply (bulletRequests_tabId (tabId c))|].
      now intros q [_ Hq].
    + eapply Forall_impl; [apply (borderRequests_tabId (tabId c))|].
      now intros q [_ Hq].
    + eapply Forall_impl; [apply (paragraphRequests_tabId (tabId c))|].
      now intros q [_ Hq].
    + eapply Forall_impl; [apply (tidy_inserts _ _ _ Ht)|].
      now intros q (i & t & _ & ->).
Qed.

(** ** Insertions *)

Lemma insertIndices_chained lo l :
  insertsChained lo l ->
  Forall (fun t => t <> []) (insertedTexts l) ->
  Forall (fun i => lo <= i) (insertIndices l)
  /\ StronglySorted Z.lt (insertIndices l).
Proof.
  revert lo. induction l as [|[loc t| | |] l IH]; simpl; intros lo Hc Hn;
    try (now apply IH).
  - split; constructor.
  - destruct Hc as [Hi Hc]. inversion Hn as [|? ? Ht Hn']; subst.
    assert (0 < jslength t)
      by (destruct t; [contradiction|unfold jslength; simpl; lia]).
    destruct (IH _ Hc Hn') as [Hb Hs]. split.
    + constructor; [lia|]. eapply Forall_impl; [exact Hb|]. simpl. intros; lia.
    + constructor; [exact Hs|].
      eapply Forall_impl; [exact Hb|]. simpl. intros; lia.
Qed.

Lemma insertedTexts_app l1 l2 :
  insertedTexts (l1 ++ l2) = insertedTexts l1 ++ insertedTexts l2.
Proof. unfold insertedTexts. apply flat_map_app. Qed.

Lemma insertedTexts_noInsert l :
  Forall (fun q => isInsert q = false) l -> insertedTexts l = [].
Proof.
  induction 1 as [|[loc t| | |] l H _ IH]; simpl in *;
    try discriminate; auto.
Qed.

(** X7. A conversion never returns an insertion of the empty string, and
    the offsets of its insertions are strictly increasing. *)
Theorem insertions_nonempty_increasing
    (hexToRgbColor : jsstring -> option RgbColor)
    (tokens : list Token) (startOffset : Z) (region : option jsstring)
    (reqs : list Request) :
  convertTokens hexToRgbColor tokens startOffset region = Ok reqs ->
  Forall (fun t => t <> []) (insertedTexts reqs)
  /\ StronglySorted Z.lt (insertIndices reqs).
Proof.
  intros H.
  assert (Hch : insertsChained startOffset reqs).
  { apply convertTokens_Ok in H as (c & styles & Hc & Hwf & Hs & ->).
    unfold finalRequests. apply insertsChained_app. split.
    - apply (wf_chained _ _ Hwf).
    - apply insertsChained_noInsert. eapply finalRequests_format, Hs. }
  assert (Hne : Forall (fun t => t <> []) (insertedTexts reqs)).
  { apply convertTokens_Ok in H as (c & styles & Hc & Hwf & Hs & ->).
    apply tidy_processTokens in Hc. unfold finalRequests.
    rewrite insertedTexts_app.
    rewrite (insertedTexts_noInsert _ (finalRequests_format _ _ _ Hs)).
    rewrite app_nil_r.
    pose proof (tidy_inserts _ _ _ Hc) as Hi.
    induction Hi as [|q l (i & t & Ht & ->) _ IH]; simpl; constructor;
      assumption. }
  split; [exact Hne|].
  now apply (insertIndices_chained startOffset).
Qed.

(** ** Every styled span is styled *)

Lemma field_Some {A} (x : A) name rest :
  field (Some x) name ++ rest <> [].
Proof. discriminate. Qed.

Lemma textRangeRequests_nonempty hex tab r l :
  hasFormatting (formatting r) = true -> linkOk (formatting r) ->
  textRangeRequests hex tab r = Ok l ->
  exists q rest, l = q :: rest.
Proof.
  unfold hasFormatting, linkOk, textRangeRequests.
  set (f := formatting r). intros Hf Hl H.
  apply bind_Ok in H as (styles & Hs & H).
  apply bind_Ok in H as (links & Hk & [= <-]).
  destruct (isTrue (bold f) || isTrue (italic f) || isTrue (strikethrough f)
            || isTrue (code f)) eqn:E.
  - unfold buildUpdateTextStyleRequest in Hs.
    apply bind_Ok in Hs as (q & Hq & [= <-]).
    apply bind_Ok in Hq as (fg & _ & Hq). apply bind_Ok in Hq as (bg & _ & Hq).
    cbn [arg_bold arg_italic arg_underline arg_strikethrough arg_fontSize
         arg_fontFamily arg_foregroundColor arg_backgroundColor arg_linkUrl]
      in Hq.
    assert (Hfields :
              field (bold f) "bold" ++ field (italic f) "italic"
              ++ field (@None bool) "underline"
              ++ field (strikethrough f) "strikethrough"
              ++ field (@None Z) "fontSize"
              ++ field (whenCode f CODE_FONT_FAMILY) "weightedFontFamily"
              ++ field (whenCode f CODE_TEXT_HEX) "foregroundColor"
              ++ field (whenCode f CODE_BACKGROUND_HEX) "backgroundColor"
              ++ field (@None jsstring) "link" <> []).
    { unfold whenCode.
      destruct (bold f) as [[]|]; try discriminate;
        destruct (italic f) as [[]|]; try discriminate;
        destruct (strikethrough f) as [[]|]; try discriminate;
        destruct (code f) as [[]|]; try discriminate. }
    destruct (_ ++ _); [contradiction|]. injection Hq as <-. simpl. eauto.
  - simpl in Hf.
    destruct (link f) as [url|]; [|discriminate].
    destruct url as [|u url]; [contradiction|]. cbn [truthy] in Hk.
    unfold buildUpdateTextStyleRequest in Hk.
    apply bind_Ok in Hk as (q & Hq & [= <-]).
    apply bind_Ok in Hq as (fg & _ & Hq). apply bind_Ok in Hq as (bg & _ & Hq).
    simpl in Hq. injection Hq as <-. injection Hs as <-. simpl. eauto.
Qed.

(** X8. Every styled span recorded by a conversion that succeeds is styled
    by at least one character style request of the returned list, over
    exactly the range of the span. *)
Theorem every_span_styled (hexToRgbColor : jsstring -> option RgbColor)
    (tokens : list Token) (startOffset : Z) (region : option jsstring)
    (reqs : list Request) (c : ConversionContext) (span : TextRange) :
  processTokens tokens (initialContext startOffset region) = Ok c ->
  convertTokens hexToRgbColor tokens startOffset region = Ok reqs ->
  In span (textRanges c) ->
  exists q,
    In q reqs /\ isTextStyle q = true
    /\ requestRange q = Some (startIndex span, endIndex span).
Proof.
  intros Hc H Hin.
  apply convertTokens_Ok in H as (c0 & styles & Hc0 & _ & Hs & ->).
  rewrite Hc in Hc0. injection Hc0 as <-.
  apply tidy_processTokens in Hc.
  pose proof (tidy_styled _ _ _ Hc) as Hst.
  rewrite List.Forall_forall in Hst. specialize (Hst span Hin).
  clear Hc. revert styles Hs Hin.
  induction (textRanges c) as [|r rs IH]; intros styles Hs Hin; [contradiction|].
  pose proof (textStyleRequests_tabId _ _ _ _ Hs) as Hrank.
  simpl in Hs. apply bind_Ok in Hs as (here & E & Hs).
  apply bind_Ok in Hs as (after & E' & [= <-]).
  destruct Hin as [->|Hin].
  - destruct Hst as [Hf Hl].
    destruct (textRangeRequests_nonempty _ _ _ _ Hf Hl E) as (q & rest & ->).
    apply textRangeRequests_styleOn in E.
    inversion E as [|? ? (Hi & Hb & Hr) _]; subst.
    inversion Hrank as [|? ? [_ Hq1] _]; subst.
    exists q. unfold finalRequests. split; [|split; [|exact Hr]].
    + apply in_or_app. right. apply in_or_app. left. now left.
    + destruct q; simpl in *; try discriminate; try reflexivity.
      destruct (ps_borderBottom _); discriminate.
  - destruct (IH after E' Hin) as (q & Hq & Ht & Hr).
    exists q. split; [|auto]. unfold finalRequests in *.
    apply in_app_or in Hq as [Hq|Hq]; [apply in_or_app; now left|].
    apply in_or_app. right.
    apply in_app_or in Hq as [Hq|Hq].
    + apply in_or_app. left. apply in_or_app. now right.
    + apply in_or_app. now right.
Qed.

(** ** The formatting stack *)

Lemma removeFirst_app {A} (p : A -> bool) (l1 l2 : list A) x :
  Forall (fun y => p y = false) l1 -> p x = true ->
  removeFirst p (l1 ++ x :: l2) = l1 ++ l2.
Proof.
  intros H Hx. induction H as [|y l1 Hy _ IH]; simpl.
  - now rewrite Hx.
  - now rewrite Hy, IH.
Qed.

(** X9. Closing an inline style removes from the formatting stack the
    newest fragment that carries the key of the style, and only that one:
    the fragments opened before and after it stay, in their order, and
    nothing else of the context changes. In particular a close that
    directly follows its open restores the context. *)
Theorem popFormatting_removes_newest (c : ConversionContext)
    (key : FormattingKey) (older newer : list FormattingState)
    (s : FormattingState) :
  formattingStack c = older ++ s :: newer ->
  definesKey key s = true ->
  Forall (fun x => definesKey key x = false) newer ->
  popFormatting c key = set_formattingStack (older ++ newer) c
  /\ (newer = [] -> popFormatting (pushFormatting s c) key = c).
Proof.
  intros Hst Hs Hn. split.
  - unfold popFormatting. rewrite Hst, rev_app_distr. simpl.
    rewrite <- app_assoc. simpl.
    rewrite removeFirst_app; [|now apply Forall_rev|exact Hs].
    now rewrite rev_app_distr, !rev_involutive.
  - intros _. unfold popFormatting, pushFormatting. ctx_simpl.
    rewrite rev_app_distr. simpl. rewrite Hs, rev_involutive.
    now destruct c.
Qed.

(** ** Code blocks *)

Lemma insertCodeLines_effect lines c :
  let c' := fold_left insertCodeLine lines c in
  insertedTexts (insertRequests c')
  = insertedTexts (insertRequests c)
      ++ flat_map (fun l => [visibleLine l; [LF]]) lines
  /\ textRanges c' = textRanges c ++ codeSpans (currentIndex c) lines
  /\ currentIndex c' = currentIndex c + codeLength lines
  /\ (lines <> [] -> lastInsert c' = Some [LF]).
Proof.
  revert c. induction lines as [|l lines IH]; intros c; simpl.
  - rewrite !app_nil_r, Z.add_0_r. repeat split. contradiction.
  - destruct (IH (insertCodeLine c l)) as (Hi & Ht & Hc & Hl).
    assert (E : insertCodeLine c l
                = insertText [LF]
                    (set_textRanges
                       (textRanges c
                          ++ [{| startIndex := currentIndex c;
                                 endIndex := currentIndex c
                                             + jslength (visibleLine l);
                                 formatting := codeFormatting |}])
                       (insertText (visibleLine l) c)))
      by (unfold insertCodeLine; now destruct l).
    split; [|split; [|split]].
    + rewrite Hi, E. ctx_simpl. rewrite !insertedTexts_app. simpl.
      now rewrite <- !app_assoc.
    + rewrite Ht, E. ctx_simpl. rewrite <- app_assoc. simpl.
      repeat f_equal.
    + rewrite Hc, E. ctx_simpl. unfold jslength. simpl. lia.
    + intros _. destruct lines as [|l' lines]; [|apply Hl; discriminate].
      simpl. rewrite E. apply lastInsert_insertText.
Qed.

Lemma handleCodeBlockToken_lines (token : Token) (c : ConversionContext) :
  handleCodeBlockToken token c
  = if negb (lastInsertEndsWithDoubleNewline
               (fold_left insertCodeLine (codeLines (content token)) c))
    then insertText [LF]
           (fold_left insertCodeLine (codeLines (content token)) c)
    else fold_left insertCodeLine (codeLines (content token)) c.
Proof. reflexivity. Qed.

Lemma handleCodeBlockToken_effect (token : Token) (c : ConversionContext) :
  let lines := codeLines (content token) in
  let c' := handleCodeBlockToken token c in
  insertedTexts (insertRequests c')
  = insertedTexts (insertRequests c)
      ++ flat_map (fun l => [visibleLine l; [LF]]) lines ++ [[LF]]
  /\ textRanges c' = textRanges c ++ codeSpans (currentIndex c) lines
  /\ currentIndex c' = currentIndex c + codeLength lines + 1
  /\ formattingStack c' = formattingStack c.
Proof.
  intros lines c'. subst c'. rewrite handleCodeBlockToken_lines.
  fold lines.
  assert (Hne : lines <> []).
  { subst lines. unfold codeLines.
    destruct (if endsWith _ _ then _ else _) as [|u s]; [discriminate|].
    simpl. destruct (N.eqb u LF); [discriminate|].
    destruct (splitLines s); discriminate. }
  destruct (insertCodeLines_effect lines c) as (Hi & Ht & Hc & Hl).
  specialize (Hl Hne).
  assert (Hd : lastInsertEndsWithDoubleNewline (fold_left insertCodeLine lines c)
               = false).
  { unfold lastInsertEndsWithDoubleNewline. now rewrite Hl. }
  rewrite Hd. cbn [negb]. ctx_simpl. rewrite insertedTexts_app, Hi, Ht, Hc.
  simpl. rewrite <- app_assoc.
  split; [reflexivity|]. split; [reflexivity|].
  split; [unfold jslength; simpl; lia|].
  clear. revert c. induction lines as [|l lines IH]; intros c; simpl;
    [reflexivity|].
  rewrite IH. unfold insertCodeLine. now destruct l.
Qed.

(** X10. For a code block, the converter inserts each line of the content
    (a space in place of an empty line) followed by a line feed, then one
    more line feed; it records one code span for each line, which covers
    the line and not its line feed, whatever the formatting stack holds;
    and the current index advances by the length of all that is
    inserted. *)
Theorem code_block_emission (token : Token) (c : ConversionContext) :
  let lines := codeLines (content token) in
  let c' := handleCodeBlockToken token c in
  insertedTexts (insertRequests c')
  = insertedTexts (insertRequests c)
      ++ flat_map (fun l => [visibleLine l; [LF]]) lines ++ [[LF]]
  /\ textRanges c' = textRanges c ++ codeSpans (currentIndex c) lines
  /\ currentIndex c' = currentIndex c + codeLength lines + 1
  /\ formattingStack c' = formattingStack c.
Proof. apply handleCodeBlockToken_effect. Qed.

(** X11. The tokens of the structure of a table, from [tbody_open] to
    [table_close], are processed as code blocks: with the empty content
    they carry, each inserts a space and two line feeds and records a code
    span over the space. *)
Theorem table_tokens_processed_as_code (token : Token)
    (c : ConversionContext) :
  kindOf (type token) = table_part ->
  content token = [] ->
  exists c',
    processToken token c = Ok c'
    /\ insertedTexts (insertRequests c')
       = insertedTexts (insertRequests c) ++ [js " "; [LF]; [LF]]
    /\ textRanges c'
       = textRanges c
           ++ [{| startIndex := currentIndex c;
                  endIndex := currentIndex c + 1;
                  formatting := codeFormatting |}]
    /\ currentIndex c' = currentIndex c + 3.
Proof.
  intros K Hc. exists (handleCodeBlockToken token c).
  split.
  { destruct token as [ty tg a ct ch]. cbn [processToken type] in *.
    now rewrite K. }
  destruct (handleCodeBlockToken_effect token c) as (Hi & Ht & Hcur & _).
  rewrite Hc in *. split; [exact Hi|]. split; [exact Ht|].
  rewrite Hcur. change (codeLength (codeLines [])) with 2. lia.
Qed.
(** ** Batches *)

Section BatchProofs.

Context {R : Type}.
Variables (isDeleteRequest isInsertRequest : R -> bool).
Variable executeBatchUpdate : list R -> option JsError.

Lemma sendBatches_spec rounds : forall i requests sent error,
  (length requests <= i + rounds * MAX_BATCH_UPDATE_REQUESTS)%nat ->
  sendBatches executeBatchUpdate rounds i requests = (sent, error) ->
  Forall batchOk sent
  /\ (exists rest, drop i requests = concat sent ++ rest
                   /\ (error = None -> rest = []))
  /\ stopsAtFirstError executeBatchUpdate sent error.
Proof.
  unfold batchOk, MAX_BATCH_UPDATE_REQUESTS.
  induction rounds as [|rounds IH]; intros i requests sent error Hlen; simpl.
  - intros [= <- <-]. split; [constructor|]. split; [|constructor].
    exists []. split; [|reflexivity]. simpl. apply drop_ge. lia.
  - destruct (Nat.ltb_spec i (length requests)) as [Hi|Hi].
    2:{ intros [= <- <-]. split; [constructor|]. split; [|constructor].
        exists []. split; [|reflexivity]. simpl. apply drop_ge. lia. }
    unfold slice, MAX_BATCH_UPDATE_REQUESTS.
    replace (i + 50 - i)%nat with 50%nat by lia.
    assert (Hb : take 50 (drop i requests) <> []).
    { intros E. apply (f_equal length) in E.
      rewrite length_take, length_drop in E.
      change (length (@nil R)) with 0%nat in E. lia. }
    assert (Hl : (length (take 50 (drop i requests)) <= 50)%nat).
    { rewrite length_take. lia. }
    assert (Hd : drop i requests
                 = take 50 (drop i requests) ++ drop (i + 50) requests).
    { rewrite <- drop_drop. now rewrite take_drop. }
    destruct (executeBatchUpdate (take 50 (drop i requests))) as [e|] eqn:E.
    + intros [= <- <-].
      split; [constructor; [split; assumption|constructor]|].
      split.
      * exists (drop (i + 50) requests). simpl. rewrite app_nil_r.
        split; [exact Hd|discriminate].
      * exists [], (take 50 (drop i requests)). repeat split; auto.
    + destruct (sendBatches executeBatchUpdate rounds (i + 50) requests)
        as [sent' error'] eqn:Es.
      intros [= <- <-].
      apply IH in Es as (Hok & (rest & Hrest & Hnone) & Hstop); [|lia].
      split; [constructor; [split; assumption|exact Hok]|].
      split.
      * exists rest. simpl. rewrite <- app_assoc, <- Hrest. split; auto.
      * destruct error' as [e|]; simpl in *.
        -- destruct Hstop as (done & b & -> & Hdone & Hb').
           exists (take 50 (drop i requests) :: done), b.
           repeat split; auto.
        -- constructor; assumption.
Qed.

Lemma sendAll_spec requests sent error :
  sendAll executeBatchUpdate requests = (sent, error) ->
  Forall batchOk sent
  /\ (exists rest, requests = concat sent ++ rest
                   /\ (error = None -> rest = []))
  /\ stopsAtFirstError executeBatchUpdate sent error.
Proof.
  intros H. apply sendBatches_spec in H; [exact H|].
  unfold MAX_BATCH_UPDATE_REQUESTS. lia.
Qed.

Lemma stopsAtFirstError_app sent1 sent2 error :
  Forall (fun b => executeBatchUpdate b = None) sent1 ->
  stopsAtFirstError executeBatchUpdate sent2 error ->
  stopsAtFirstError executeBatchUpdate (sent1 ++ sent2) error.
Proof.
  intros H1 H2. destruct error as [e|]; simpl in *.
  - destruct H2 as (done & b & -> & Hd & Hb).
    exists (sent1 ++ done), b. rewrite app_assoc. repeat split; auto.
    apply Forall_app; auto.
  - apply Forall_app; auto.
Qed.

Lemma executeBatchUpdateWithSplitting_spec requests sent error :
  executeBatchUpdateWithSplitting isDeleteRequest isInsertRequest
    executeBatchUpdate requests = (sent, error) ->
  Forall batchOk sent
  /\ (exists rest,
        List.filter isDeleteRequest requests
          ++ List.filter isInsertRequest requests
          ++ List.filter (isFormatRequest isDeleteRequest isInsertRequest)
               requests
        = concat sent ++ rest
        /\ (error = None -> rest = []))
  /\ stopsAtFirstError executeBatchUpdate sent error.
Proof.
  unfold executeBatchUpdateWithSplitting.
  destruct requests as [|r requests'] eqn:Er.
  { intros [= <- <-]. split; [constructor|]. split; [|constructor].
    exists []. now split. }
  rewrite <- Er. clear Er r requests'.
  destruct (sendAll executeBatchUpdate (List.filter isDeleteRequest requests))
    as [sent1 error1] eqn:E1.
  apply sendAll_spec in E1 as (Hok1 & (rest1 & Hr1 & Hn1) & Hs1).
  destruct error1 as [e1|].
  { intros [= <- <-]. split; [exact Hok1|]. split; [|exact Hs1].
    eexists. rewrite Hr1 at 1. rewrite <- app_assoc.
    split; [reflexivity|discriminate]. }
  specialize (Hn1 eq_refl). subst rest1. rewrite app_nil_r in Hr1.
  destruct (sendAll executeBatchUpdate (List.filter isInsertRequest requests))
    as [sent2 error2] eqn:E2.
  apply sendAll_spec in E2 as (Hok2 & (rest2 & Hr2 & Hn2) & Hs2).
  destruct error2 as [e2|].
  { intros [= <- <-]. split; [apply Forall_app; auto|].
    split; [|apply stopsAtFirstError_app; assumption].
    eexists. rewrite Hr1 at 1. rewrite Hr2 at 1.
    rewrite concat_app, <- !app_assoc.
    split; [reflexivity|discriminate]. }
  specialize (Hn2 eq_refl). subst rest2. rewrite app_nil_r in Hr2.
  destruct (sendAll executeBatchUpdate
              (List.filter (isFormatRequest isDeleteRequest isInsertRequest)
                 requests))
    as [sent3 error3] eqn:E3.
  apply sendAll_spec in E3 as (Hok3 & (rest3 & Hr3 & Hn3) & Hs3).
  intros [= <- <-]. split; [repeat (apply Forall_app; split); auto|].
  split.
  - exists rest3. rewrite Hr1 at 1. rewrite Hr2 at 1. rewrite Hr3 at 1.
    rewrite !concat_app, <- !app_assoc. split; [reflexivity|exact Hn3].
  - apply stopsAtFirstError_app; [exact Hs1|].
    apply stopsAtFirstError_app; assumption.
Qed.

End BatchProofs.

(** X12. [executeBatchUpdateWithSplitting] passes to the API only batches
    that are not empty and hold at most 50 requests; the batches, one after
    the other, are a prefix of the delete requests followed by the insert
    requests followed by the remaining requests, each kind in its order in
    the argument; the prefix is the whole when no call fails, and the first
    call that fails is the last call made. *)
Theorem batches_bounded_ordered_until_error {R : Type}
    (isDeleteRequest isInsertRequest : R -> bool)
    (executeBatchUpdate : list R -> option JsError)
    (requests : list R) (sent : list (list R)) (error : option JsError) :
  executeBatchUpdateWithSplitting isDeleteRequest isInsertRequest
    executeBatchUpdate requests = (sent, error) ->
  Forall (fun batch => batch <> [] /\ (length batch <= 50)%nat) sent
  /\ concat sent
       `prefix_of` (List.filter isDeleteRequest requests
                      ++ List.filter isInsertRequest requests
                      ++ List.filter
                           (fun r => negb (isDeleteRequest r)
                                     && negb (isInsertRequest r)) requests)
  /\ (error = None ->
      concat sent
      = List.filter isDeleteRequest requests
          ++ List.filter isInsertRequest requests
          ++ List.filter (fun r => negb (isDeleteRequest r)
                                   && negb (isInsertRequest r)) requests)
  /\ match error with
     | None => Forall (fun batch => executeBatchUpdate batch = None) sent
     | Some e =>
         exists done batch,
           sent = done ++ [batch]
           /\ Forall (fun b => executeBatchUpdate b = None) done
           /\ executeBatchUpdate batch = Some e
     end.
Proof.
  intros H.
  apply executeBatchUpdateWithSplitting_spec
    in H as (Hok & (rest & Hr & Hn) & Hs).
  unfold isFormatRequest in Hr.
  split; [exact Hok|]. split; [|split; [|exact Hs]].
  - exists rest. exact Hr.
  - intros E. rewrite Hr, (Hn E). now rewrite app_nil_r.
Qed.

Lemma filter_all {A} (p : A -> bool) (l : list A) :
  Forall (fun x => p x = true) l -> List.filter p l = l.
Proof.
  induction 1 as [|x l Hx _ IH]; simpl; [reflexivity|].
  now rewrite Hx, IH.
Qed.

Lemma filter_none {A} (p : A -> bool) (l : list A) :
  Forall (fun x => p x = false) l -> List.filter p l = [].
Proof.
  induction 1 as [|x l Hx _ IH]; simpl; [reflexivity|].
  now rewrite Hx, IH.
Qed.

(** X13. When the list a conversion returns is passed to
    [executeBatchUpdateWithSplitting], the batches sent to the API, one
    after the other, are a prefix of that list in its own order (the whole
    list when no call fails), and no batch mixes insertions with other
    requests. *)
Theorem converted_requests_sent_in_order
    (hexToRgbColor : jsstring -> option RgbColor)
    (executeBatchUpdate : list Request -> option JsError)
    (tokens : list Token) (startOffset : Z) (region : option jsstring)
    (reqs : list Request) (sent : list (list Request))
    (error : option JsError) :
  convertTokens hexToRgbColor tokens startOffset region = Ok reqs ->
  executeBatchUpdateWithSplitting (fun _ => false) isInsert
    executeBatchUpdate reqs = (sent, error) ->
  concat sent `prefix_of` reqs
  /\ (error = None -> concat sent = reqs)
  /\ Forall (fun batch => Forall (fun q => isInsert q = true) batch
                          \/ Forall (fun q => isInsert q = false) batch)
       sent.
Proof.
  intros Hc Hs.
  apply convertTokens_blocks in Hc
    as (l0 & l1 & l2 & l3 & l4 & -> & H0 & H1 & H2 & H3 & H4).
  set (others := l1 ++ l2 ++ l3 ++ l4) in *.
  assert (Hi : Forall (fun q => isInsert q = true) l0).
  { eapply Forall_impl; [exact H0|]. intros [] [_ Hq]; simpl in *;
      try discriminate; auto. destruct (ps_borderBottom _); discriminate. }
  assert (Ho : Forall (fun q => isInsert q = false) others).
  { unfold others. repeat (apply Forall_app; split);
      (eapply Forall_impl; [eassumption|]);
      intros [] [_ Hq]; simpl in *; try discriminate; auto. }
  assert (Ef : List.filter isInsert (l0 ++ others) = l0).
  { rewrite List.filter_app, (filter_all _ _ Hi), (filter_none _ _ Ho).
    apply app_nil_r. }
  assert (Eg : List.filter (isFormatRequest (fun _ => false) isInsert)
                 (l0 ++ others) = others).
  { rewrite List.filter_app. rewrite filter_none, filter_all; auto.
    - eapply Forall_impl; [exact Ho|]. unfold isFormatRequest.
      now intros q ->.
    - eapply Forall_impl; [exact Hi|]. unfold isFormatRequest.
      now intros q ->. }
  assert (Ed : List.filter (fun _ : Request => false) (l0 ++ others) = []).
  { apply filter_none, Forall_forall. auto. }
  unfold executeBatchUpdateWithSplitting in Hs.
  destruct (l0 ++ others) as [|q qs] eqn:El.
  { injection Hs as <- <-. split; [now exists []|]. split; auto. }
  rewrite <- El in *. clear El q qs.
  rewrite Ed, Ef, Eg in Hs.
  change (sendAll executeBatchUpdate []) with (@nil (list Request), @None JsError) in Hs.
  destruct (sendAll executeBatchUpdate l0) as [sent2 error2] eqn:E2.
  apply sendAll_spec in E2 as (_ & (rest2 & Hr2 & Hn2) & _).
  assert (P2 : Forall (fun batch => Forall (fun q => isInsert q = true) batch)
                 sent2).
  { rewrite Hr2 in Hi. apply Forall_app in Hi as [Hi _].
    clear -Hi. induction sent2 as [|b sent2 IH]; [constructor|].
    simpl in Hi. apply Forall_app in Hi as [Hb Hi].
    constructor; auto. }
  destruct error2 as [e2|].
  { injection Hs as <- <-. simpl. split; [|split; [discriminate|]].
    - exists (rest2 ++ others). rewrite Hr2 at 1. now rewrite <- app_assoc.
    - eapply Forall_impl; [exact P2|]. auto. }
  specialize (Hn2 eq_refl). subst rest2. rewrite app_nil_r in Hr2.
  destruct (sendAll executeBatchUpdate others) as [sent3 error3] eqn:E3.
  apply sendAll_spec in E3 as (_ & (rest3 & Hr3 & Hn3) & _).
  assert (P3 : Forall (fun batch => Forall (fun q => isInsert q = false) batch)
                 sent3).
  { rewrite Hr3 in Ho. apply Forall_app in Ho as [Ho _].
    clear -Ho. induction sent3 as [|b sent3 IH]; [constructor|].
    simpl in Ho. apply Forall_app in Ho as [Hb Ho].
    constructor; auto. }
  injection Hs as <- <-. simpl. rewrite concat_app.
  split; [|split].
  - exists rest3. rewrite Hr2 at 1. rewrite Hr3 at 1.
    now rewrite <- app_assoc.
  - intros E. rewrite (Hn3 E), app_nil_r in Hr3.
    now rewrite <- Hr2, <- Hr3.
  - apply Forall_app; split.
    + eapply Forall_impl; [exact P2|]. auto.
    + eapply Forall_impl; [exact P3|]. auto.
Qed.
(** ** Tabs *)

Lemma searchTabs_find (id : jsstring) (f : Tab -> list Tab) (tabs : list Tab) :
  Forall (fun tab => searchTab id tab = List.find (hasTabId id) (f tab)) tabs ->
  searchTabs id tabs = List.find (hasTabId id) (flat_map f tabs).
Proof.
  induction 1 as [|tab rest Ht _ IH]; simpl; [reflexivity|].
  rewrite Ht, IH. clear.
  induction (f tab) as [|x l IHl]; simpl; [reflexivity|].
  destruct (hasTabId id x); [reflexivity|exact IHl].
Qed.

Lemma searchTab_preorder (id : jsstring) :
  forall (tab : Tab) (tabLevel : nat),
    searchTab id tab
    = List.find (hasTabId id)
        (List.map fst (addCurrentAndChildTabs tab tabLevel)).
Proof.
  fix IH 1. intros [props children] tabLevel.
  cbn [addCurrentAndChildTabs List.map fst List.find searchTab].
  destruct (hasTabId id (mkTab props children)); [reflexivity|].
  destruct children as [children|]; [|reflexivity].
  induction children as [|child rest IHrest]; [reflexivity|].
  rewrite List.map_app, IHrest, (IH child (S tabLevel)). clear.
  induction (List.map fst (addCurrentAndChildTabs child (S tabLevel)))
    as [|x l IHl]; simpl; [reflexivity|].
  destruct (hasTabId id x); [reflexivity|exact IHl].
Qed.

Lemma find_flat_map_fst {A B C} (p : A -> bool) (f : C -> list (A * B))
    (l : list C) :
  List.find p (List.map fst (flat_map f l))
  = List.find p (flat_map (fun x => List.map fst (f x)) l).
Proof.
  f_equal. induction l as [|x l IH]; simpl; [reflexivity|].
  now rewrite List.map_app, IH.
Qed.

(** X14. [findTabById] returns the first tab of the list of [getAllTabs]
    (the tabs in document order, every tab before its children) whose
    [tabProperties.tabId] is the given id, and [null] when that list has no
    such tab. *)
Theorem findTabById_first_in_document_order (doc : Document) (id : jsstring) :
  findTabById doc id
  = List.find (hasTabId id) (List.map fst (getAllTabs doc)).
Proof.
  unfold findTabById, getAllTabs.
  destruct (tabs doc) as [[|tab rest]|]; try reflexivity.
  rewrite find_flat_map_fst.
  apply (searchTabs_find id
           (fun tab => List.map fst (addCurrentAndChildTabs tab 0))).
  apply Forall_forall. intros t _. apply searchTab_preorder.
Qed.
(** ** Translation of the offsets *)

Lemma last_map {A B} (f : A -> B) (l : list A) :
  last (List.map f l) = option_map f (last l).
Proof.
  induction l as [|x [|y l] IH]; try reflexivity. exact IH.
Qed.

Lemma lookup_map {A B} (f : A -> B) (l : list A) (i : nat) :
  List.map f l !! i = option_map f (l !! i).
Proof.
  revert i. induction l as [|x l IH]; intros [|i]; try reflexivity.
  apply IH.
Qed.

Lemma insert_map {A B} (f : A -> B) (l : list A) (i : nat) (x : A) :
  <[i := f x]> (List.map f l) = List.map f (<[i := x]> l).
Proof.
  revert i. induction l as [|y l IH]; intros [|i]; try reflexivity.
  simpl. f_equal. apply IH.
Qed.

Lemma shift_ltb (a b d : Z) : (a + d <? b + d) = (a <? b).
Proof. destruct (Z.ltb_spec (a + d) (b + d)), (Z.ltb_spec a b); lia. Qed.

Section Shift.

Variable d : Z.

Lemma shift_insertText t c :
  insertText t (shiftContext d c) = shiftContext d (insertText t c).
Proof.
  unfold shiftContext, insertText, set_insert; cbn. f_equal; [lia|].
  now rewrite List.map_app.
Qed.

Lemma shift_lastInsert c : lastInsert (shiftContext d c) = lastInsert c.
Proof.
  unfold lastInsert, shiftContext; cbn. rewrite last_map.
  now destruct (last (insertRequests c)) as [[]|].
Qed.

Lemma shift_lastInsertEndsWithNewline c :
  lastInsertEndsWithNewline (shiftContext d c) = lastInsertEndsWithNewline c.
Proof. unfold lastInsertEndsWithNewline. now rewrite shift_lastInsert. Qed.

Lemma shift_lastInsertEndsWithDoubleNewline c :
  lastInsertEndsWithDoubleNewline (shiftContext d c)
  = lastInsertEndsWithDoubleNewline c.
Proof. unfold lastInsertEndsWithDoubleNewline. now rewrite shift_lastInsert. Qed.

Lemma shift_getCurrentOpenListItem c :
  getCurrentOpenListItem (shiftContext d c)
  = option_map (shiftOpenItem d) (getCurrentOpenListItem c).
Proof.
  unfold getCurrentOpenListItem, shiftContext; cbn.
  destruct (last (openListItemStack c)) as [i|]; [|reflexivity].
  rewrite lookup_map. now destruct (pendingListItems c !! i).
Qed.

Lemma shift_storeListItem i it c :
  storeListItem i (shiftItem d it) (shiftContext d c)
  = shiftContext d (storeListItem i it c).
Proof.
  unfold storeListItem, set_pendingListItems, shiftContext; cbn.
  now rewrite insert_map.
Qed.

Lemma shift_currentIndex c :
  currentIndex (shiftContext d c) = currentIndex c + d.
Proof. reflexivity. Qed.

Lemma shift_handleHeadingOpen t c :
  handleHeadingOpen t (shiftContext d c)
  = shiftContext d (handleHeadingOpen t c).
Proof. unfold handleHeadingOpen. now destruct (truthyNumber _). Qed.

Lemma shift_handleHeadingClose c :
  handleHeadingClose (shiftContext d c) = shiftContext d (handleHeadingClose c).
Proof.
  unfold handleHeadingClose.
  cbn [shiftContext currentHeadingLevel currentParagraphStart].
  destruct (currentHeadingLevel c) as [l|]; [|reflexivity].
  destruct (currentParagraphStart c) as [p|]; [|reflexivity].
  cbn [shiftOffset]. destruct (truthyNumber (Some l)); [|reflexivity].
  unfold shiftContext, insertText, set_insert, set_paragraphRanges,
    set_currentParagraphStart, set_currentHeadingLevel; cbn.
  f_equal; [lia| |]; now rewrite List.map_app.
Qed.

Lemma shift_handleHorizontalRule c :
  handleHorizontalRule (shiftContext d c)
  = shiftContext d (handleHorizontalRule c).
Proof.
  unfold handleHorizontalRule. rewrite shift_lastInsertEndsWithNewline.
  assert (E : (if negb (lastInsertEndsWithNewline c)
               then insertText [LF] (shiftContext d c) else shiftContext d c)
              = shiftContext d (if negb (lastInsertEndsWithNewline c)
                                then insertText [LF] c else c)).
  { destruct (negb _); [apply shift_insertText|reflexivity]. }
  rewrite E. generalize (if negb (lastInsertEndsWithNewline c)
                         then insertText [LF] c else c). clear. intros c.
  unfold shiftContext, insertText, set_insert, set_hrRanges; cbn.
  f_equal; [lia| |]; rewrite List.map_app; [reflexivity|].
  cbn. do 2 f_equal. unfold shiftHrRange; cbn. f_equal. lia.
Qed.

Lemma shift_handleParagraphOpen c :
  handleParagraphOpen (shiftContext d c)
  = shiftContext d (handleParagraphOpen c).
Proof.
  unfold handleParagraphOpen. cbn [shiftContext listStack].
  now destruct (listStack c).
Qed.

(** The end offset a paragraph or an item gets: the current offset, less
    the line feed that ends the last insertion. *)
Lemma shift_setEnd (nl : bool) i it c :
  (if item_startIndex (shiftItem d it)
      <? (if nl then currentIndex (shiftContext d c) - 1
          else currentIndex (shiftContext d c))
   then storeListItem i
          (set_endIndex
             (Some (if nl then currentIndex (shiftContext d c) - 1
                    else currentIndex (shiftContext d c)))
             (shiftItem d it)) (shiftContext d c)
   else shiftContext d c)
  = shiftContext d
      (if item_startIndex it
          <? (if nl then currentIndex c - 1 else currentIndex c)
       then storeListItem i
              (set_endIndex
                 (Some (if nl then currentIndex c - 1 else currentIndex c))
                 it) c
       else c).
Proof.
  rewrite shift_currentIndex. cbn [shiftItem item_startIndex].
  replace (if nl then currentIndex c + d - 1 else currentIndex c + d)
    with ((if nl then currentIndex c - 1 else currentIndex c) + d)
    by (destruct nl; lia).
  rewrite shift_ltb. destruct (_ <? _); [|reflexivity].
  rewrite <- shift_storeListItem. reflexivity.
Qed.

Lemma shift_handleParagraphClose c :
  handleParagraphClose (shiftContext d c)
  = shiftContext d (handleParagraphClose c).
Proof.
  unfold handleParagraphClose. cbn [shiftContext listStack].
  fold (shiftContext d c). rewrite shift_lastInsertEndsWithNewline.
  set (c1 := match listStack c with
             | [] => insertText [LF; LF] c
             | _ => if negb (lastInsertEndsWithNewline c)
                    then insertText [LF] c else c
             end).
  assert (E : match listStack c with
              | [] => insertText [LF; LF] (shiftContext d c)
              | _ => if negb (lastInsertEndsWithNewline c)
                     then insertText [LF] (shiftContext d c)
                     else shiftContext d c
              end = shiftContext d c1).
  { unfold c1. destruct (listStack c); [apply shift_insertText|].
    destruct (negb _); [apply shift_insertText|reflexivity]. }
  rewrite E. clearbody c1. clear E.
  rewrite shift_getCurrentOpenListItem, shift_lastInsertEndsWithNewline.
  destruct (getCurrentOpenListItem c1) as [[i it]|]; [|reflexivity].
  cbn [option_map shiftOpenItem fst snd].
  rewrite shift_setEnd. reflexivity.
Qed.

Lemma shift_handleListItemOpen c :
  handleListItemOpen (shiftContext d c)
  = mapResult (shiftContext d) (handleListItemOpen c).
Proof.
  unfold handleListItemOpen. cbn [shiftContext listStack].
  fold (shiftContext d c).
  destruct (last (listStack c)) as [l|]; [|reflexivity].
  unfold Ok. cbn [mapResult]. f_equal.
  destruct (0 <? level l)%nat.
  - rewrite shift_insertText.
    unfold shiftContext, insertText, set_insert, set_pendingListItems,
      set_openListItemStack; cbn.
    rewrite !List.map_app, !length_app, length_map. reflexivity.
  - unfold shiftContext, set_pendingListItems, set_openListItemStack; cbn.
    rewrite !List.map_app, !length_app, length_map. reflexivity.
Qed.

Lemma shift_handleListItemClose c :
  handleListItemClose (shiftContext d c)
  = mapResult (shiftContext d) (handleListItemClose c).
Proof.
  unfold handleListItemClose. cbn [shiftContext openListItemStack].
  fold (shiftContext d c).
  destruct (last (openListItemStack c)) as [i|]; [|reflexivity].
  change (set_openListItemStack (removelast (openListItemStack c))
            (shiftContext d c))
    with (shiftContext d
            (set_openListItemStack (removelast (openListItemStack c)) c)).
  generalize (set_openListItemStack (removelast (openListItemStack c)) c).
  clear c. intros c.
  cbn [shiftContext pendingListItems]. fold (shiftContext d c).
  rewrite lookup_map.
  destruct (pendingListItems c !! i) as [it|]; [|reflexivity].
  cbn [option_map]. unfold Ok. cbn [mapResult]. f_equal.
  cbn [shiftItem item_endIndex].
  destruct (item_endIndex it) as [e|]; cbn [shiftOffset].
  - rewrite shift_lastInsertEndsWithNewline.
    destruct (negb _); [apply shift_insertText|reflexivity].
  - rewrite shift_lastInsertEndsWithNewline.
    pose proof (shift_setEnd (lastInsertEndsWithNewline c) i it c) as E.
    rewrite E. rewrite shift_lastInsertEndsWithNewline.
    destruct (negb _); [apply shift_insertText|reflexivity].
Qed.

Lemma shift_insertFormattedText t c :
  insertFormattedText t (shiftContext d c)
  = shiftContext d (insertFormattedText t c).
Proof.
  unfold insertFormattedText. rewrite shift_insertText.
  cbn [shiftContext formattingStack currentIndex].
  destruct (hasFormatting _); [|reflexivity].
  unfold shiftContext, insertText, set_insert, set_textRanges; cbn.
  f_equal. rewrite List.map_app. cbn. do 2 f_equal.
  unfold shiftTextRange; cbn. f_equal; lia.
Qed.

Lemma shift_handleTextToken t c :
  handleTextToken t (shiftContext d c) = shiftContext d (handleTextToken t c).
Proof.
  unfold handleTextToken. destruct (negb (truthy (content t))); [reflexivity|].
  rewrite shift_getCurrentOpenListItem.
  destruct (getCurrentOpenListItem c) as [[i it]|];
    [|apply shift_insertFormattedText].
  cbn [option_map shiftOpenItem fst snd shiftItem taskPrefixProcessed].
  destruct (negb (taskPrefixProcessed it));
    [|apply shift_insertFormattedText].
  destruct (matchTaskPrefix (content t)) as [n|].
  - change (storeListItem i _ (shiftContext d c))
      with (storeListItem i
              (shiftItem d (set_bulletPreset BULLET_CHECKBOX
                              (set_taskPrefixProcessed true it)))
              (shiftContext d c)).
    rewrite shift_storeListItem.
    destruct (negb _); [reflexivity|apply shift_insertFormattedText].
  - change (storeListItem i _ (shiftContext d c))
      with (storeListItem i (shiftItem d (set_taskPrefixProcessed true it))
              (shiftContext d c)).
    rewrite shift_storeListItem. apply shift_insertFormattedText.
Qed.

Lemma shift_handleCodeInlineToken t c :
  handleCodeInlineToken t (shiftContext d c)
  = shiftContext d (handleCodeInlineToken t c).
Proof.
  unfold handleCodeInlineToken.
  change (pushFormatting codeFormatting (shiftContext d c))
    with (shiftContext d (pushFormatting codeFormatting c)).
  rewrite shift_handleTextToken. reflexivity.
Qed.

Lemma shift_insertCodeLine c line :
  insertCodeLine (shiftContext d c) line
  = shiftContext d (insertCodeLine c line).
Proof.
  unfold insertCodeLine.
  assert (E : match line with
              | [] => insertText (js " ") (shiftContext d c)
              | _ :: _ => insertText line (shiftContext d c)
              end
              = shiftContext d match line with
                               | [] => insertText (js " ") c
                               | _ :: _ => insertText line c
                               end).
  { destruct line; apply shift_insertText. }
  rewrite E. generalize (match line with
                         | [] => insertText (js " ") c
                         | _ :: _ => insertText line c
                         end). clear. intros c1.
  rewrite <- shift_insertText. f_equal.
  unfold shiftContext, set_textRanges; cbn. f_equal.
  rewrite List.map_app. cbn. do 2 f_equal.
Qed.

Lemma shift_insertCodeLines lines : forall c,
  fold_left insertCodeLine lines (shiftContext d c)
  = shiftContext d (fold_left insertCodeLine lines c).
Proof.
  induction lines as [|l lines IH]; intros c; simpl; [reflexivity|].
  now rewrite shift_insertCodeLine, IH.
Qed.

Lemma shift_handleCodeBlockToken t c :
  handleCodeBlockToken t (shiftContext d c)
  = shiftContext d (handleCodeBlockToken t c).
Proof.
  unfold handleCodeBlockToken. rewrite shift_insertCodeLines.
  rewrite shift_lastInsertEndsWithDoubleNewline.
  destruct (negb _); [apply shift_insertText|reflexivity].
Qed.

Lemma shift_pushFormatting s c :
  pushFormatting s (shiftContext d c) = shiftContext d (pushFormatting s c).
Proof. reflexivity. Qed.

Lemma shift_popFormatting key c :
  popFormatting (shiftContext d c) key = shiftContext d (popFormatting c key).
Proof. reflexivity. Qed.

Lemma shift_pushList ty c :
  pushList ty (shiftContext d c) = shiftContext d (pushList ty c).
Proof. reflexivity. Qed.

Lemma shift_popList c : popList (shiftContext d c) = shiftContext d (popList c).
Proof. reflexivity. Qed.

Lemma shift_processToken t c :
  isLeaf t ->
  processToken t (shiftContext d c)
  = mapResult (shiftContext d) (processToken t c).
Proof.
  unfold isLeaf. destruct t as [ty tg a ct ch]. cbn [processToken type].
  intros L. destruct (kindOf ty) eqn:K; try congruence;
    unfold Ok; cbn [mapResult].
  - rewrite shift_handleHeadingOpen. reflexivity.
  - rewrite shift_handleHeadingClose. reflexivity.
  - rewrite shift_handleParagraphOpen. reflexivity.
  - rewrite shift_handleParagraphClose. reflexivity.
  - rewrite shift_handleTextToken. reflexivity.
  - rewrite shift_handleCodeInlineToken. reflexivity.
  - reflexivity.
  - reflexivity.
  - reflexivity.
  - reflexivity.
  - reflexivity.
  - reflexivity.
  - destruct (getLinkHref _) as [href|]; [|reflexivity].
    destruct (truthy href); reflexivity.
  - reflexivity.
  - reflexivity.
  - reflexivity.
  - reflexivity.
  - reflexivity.
  - apply shift_handleListItemOpen.
  - apply shift_handleListItemClose.
  - rewrite shift_insertText. reflexivity.
  - rewrite shift_insertText. reflexivity.
  - reflexivity.
  - rewrite shift_handleCodeBlockToken. reflexivity.
  - rewrite shift_handleCodeBlockToken. reflexivity.
  - rewrite shift_handleCodeBlockToken. reflexivity.
  - rewrite shift_handleHorizontalRule. reflexivity.
  - reflexivity.
  - reflexivity.
  - reflexivity.
Qed.

Lemma shift_processTokens ts c :
  processTokens ts (shiftContext d c)
  = mapResult (shiftContext d) (processTokens ts c).
Proof.
  rewrite (processTokens_allLeaves ts (shiftContext d c)),
    (processTokens_allLeaves ts c).
  pose proof (allLeaves_isLeaf ts) as HL. revert c.
  induction HL as [|t l Ht _ IH]; intros c; simpl; [reflexivity|].
  rewrite shift_processToken by exact Ht.
  destruct (processToken t c) as [e|c1]; simpl; [reflexivity|apply IH].
Qed.

End Shift.

Section ShiftFinal.

Variable hexToRgbColor : jsstring -> option RgbColor.
Variable d : Z.

Lemma shift_styleRequest a b style tab :
  (let! request :=
     buildUpdateTextStyleRequest hexToRgbColor (a + d) (b + d) style tab in
   Ok (match request with Some r => [fst r] | None => [] end))
  = mapResult (List.map (shiftRequest d))
      (let! request :=
         buildUpdateTextStyleRequest hexToRgbColor a b style tab in
       Ok (match request with Some r => [fst r] | None => [] end)).
Proof.
  unfold buildUpdateTextStyleRequest.
  destruct (parseColor hexToRgbColor "foreground" _) as [e|fg];
    [reflexivity|].
  destruct (parseColor hexToRgbColor "background" _) as [e|bg];
    [reflexivity|].
  cbn [bind]. now destruct (_ ++ _).
Qed.

Lemma bind_mapResult_app (style : list Request) (r : Result (list Request)) :
  (let! l := mapResult (List.map (shiftRequest d)) r in
   Ok (List.map (shiftRequest d) style ++ l))
  = mapResult (List.map (shiftRequest d)) (let! l := r in Ok (style ++ l)).
Proof.
  destruct r as [e|l]; [reflexivity|]. cbn. now rewrite List.map_app.
Qed.

Lemma shift_textRangeRequests tab range :
  textRangeRequests hexToRgbColor tab (shiftTextRange d range)
  = mapResult (List.map (shiftRequest d))
      (textRangeRequests hexToRgbColor tab range).
Proof.
  unfold textRangeRequests.
  cbn [shiftTextRange startIndex endIndex formatting].
  set (f := formatting range).
  assert (E1 :
    (if isTrue (bold f) || isTrue (italic f) || isTrue (strikethrough f)
        || isTrue (code f)
     then
       let! styleRequest :=
         buildUpdateTextStyleRequest hexToRgbColor
           (startIndex range + d) (endIndex range + d)
           {| arg_bold := bold f; arg_italic := italic f;
              arg_underline := None; arg_strikethrough := strikethrough f;
              arg_fontSize := None;
              arg_fontFamily := whenCode f CODE_FONT_FAMILY;
              arg_foregroundColor := whenCode f CODE_TEXT_HEX;
              arg_backgroundColor := whenCode f CODE_BACKGROUND_HEX;
              arg_linkUrl := None |} tab in
       Ok (match styleRequest with Some r => [fst r] | None => [] end)
     else Ok [])
    = mapResult (List.map (shiftRequest d))
        (if isTrue (bold f) || isTrue (italic f) || isTrue (strikethrough f)
            || isTrue (code f)
         then
           let! styleRequest :=
             buildUpdateTextStyleRequest hexToRgbColor
               (startIndex range) (endIndex range)
               {| arg_bold := bold f; arg_italic := italic f;
                  arg_underline := None; arg_strikethrough := strikethrough f;
                  arg_fontSize := None;
                  arg_fontFamily := whenCode f CODE_FONT_FAMILY;
                  arg_foregroundColor := whenCode f CODE_TEXT_HEX;
                  arg_backgroundColor := whenCode f CODE_BACKGROUND_HEX;
                  arg_linkUrl := None |} tab in
           Ok (match styleRequest with Some r => [fst r] | None => [] end)
         else Ok [])).
  { destruct (_ || _); [apply shift_styleRequest|reflexivity]. }
  rewrite E1. clear E1.
  destruct (if isTrue (bold f) || isTrue (italic f)
               || isTrue (strikethrough f) || isTrue (code f)
            then _ else _) as [e|style]; [reflexivity|].
  cbn [mapResult bind].
  destruct (link f) as [url|]; [|cbn; now rewrite List.map_app].
  destruct (truthy url); [|cbn; now rewrite List.map_app].
  rewrite shift_styleRequest. apply bind_mapResult_app.
Qed.

Lemma shift_textStyleRequests tab ranges :
  textStyleRequests hexToRgbColor tab (List.map (shiftTextRange d) ranges)
  = mapResult (List.map (shiftRequest d))
      (textStyleRequests hexToRgbColor tab ranges).
Proof.
  induction ranges as [|r ranges IH]; [reflexivity|].
  cbn [List.map textStyleRequests]. rewrite shift_textRangeRequests, IH.
  destruct (textRangeRequests hexToRgbColor tab r) as [e|here];
    [reflexivity|].
  destruct (textStyleRequests hexToRgbColor tab ranges) as [e|after];
    [reflexivity|].
  cbn. now rewrite List.map_app.
Qed.

Lemma shift_paragraphRequest tab p :
  paragraphRequest tab (shiftParagraphRange d p)
  = List.map (shiftRequest d) (paragraphRequest tab p).
Proof.
  unfold paragraphRequest. cbn [shiftParagraphRange namedStyleType].
  destruct (namedStyleType p) as [name|]; [|reflexivity].
  destruct (truthy name); reflexivity.
Qed.

Lemma shift_bulletRequest tab it :
  bulletRequest tab (shiftItem d it)
  = List.map (shiftRequest d) (bulletRequest tab it).
Proof.
  unfold bulletRequest. cbn [shiftItem item_endIndex item_startIndex].
  destruct (item_endIndex it) as [e|]; [|reflexivity].
  cbn [shiftOffset]. rewrite shift_ltb. now destruct (_ <? _).
Qed.

Lemma shift_hasRange it : hasRange (shiftItem d it) = hasRange it.
Proof.
  unfold hasRange. cbn [shiftItem item_endIndex item_startIndex].
  destruct (item_endIndex it) as [e|]; [|reflexivity].
  apply shift_ltb.
Qed.

Lemma shift_filter_hasRange l :
  List.filter hasRange (List.map (shiftItem d) l)
  = List.map (shiftItem d) (List.filter hasRange l).
Proof.
  induction l as [|a l IH]; [reflexivity|].
  cbn [List.map List.filter]. rewrite shift_hasRange, IH.
  now destruct (hasRange a).
Qed.

Lemma shift_insertByStartDesc a l :
  insertByStartDesc (shiftItem d a) (List.map (shiftItem d) l)
  = List.map (shiftItem d) (insertByStartDesc a l).
Proof.
  induction l as [|b l IH]; [reflexivity|].
  cbn [List.map insertByStartDesc].
  change (item_startIndex (shiftItem d a)) with (item_startIndex a + d).
  change (item_startIndex (shiftItem d b)) with (item_startIndex b + d).
  rewrite shift_ltb. destruct (_ <? _); [|reflexivity].
  cbn [List.map]. now rewrite IH.
Qed.

Lemma shift_sortByStartDesc l :
  sortByStartDesc (List.map (shiftItem d) l)
  = List.map (shiftItem d) (sortByStartDesc l).
Proof.
  induction l as [|a l IH]; [reflexivity|].
  cbn [List.map sortByStartDesc]. now rewrite IH, shift_insertByStartDesc.
Qed.

Lemma concat_map_shift {A} (g : A -> A) (f : A -> list Request) l :
  (forall x, f (g x) = List.map (shiftRequest d) (f x)) ->
  concat (List.map f (List.map g l))
  = List.map (shiftRequest d) (concat (List.map f l)).
Proof.
  intros H. induction l as [|x l IH]; [reflexivity|].
  cbn [List.map concat]. now rewrite H, IH, List.map_app.
Qed.

Lemma shift_finalizeFormatting c :
  finalizeFormatting hexToRgbColor (shiftContext d c)
  = mapResult (shiftContext d) (finalizeFormatting hexToRgbColor c).
Proof.
  unfold finalizeFormatting, listItemsForFormatting.
  cbn [shiftContext tabId textRanges paragraphRanges hrRanges
       pendingListItems formatRequests].
  fold (shiftContext d c).
  rewrite shift_textStyleRequests.
  destruct (textStyleRequests hexToRgbColor (tabId c) (textRanges c))
    as [e|styles]; [reflexivity|].
  cbn [mapResult bind]. unfold Ok. f_equal.
  rewrite shift_filter_hasRange, shift_sortByStartDesc.
  rewrite (concat_map_shift _ _ _ (shift_paragraphRequest (tabId c))).
  rewrite (concat_map_shift _ _ _ (shift_bulletRequest (tabId c))).
  unfold shiftContext, set_formatRequests; cbn.
  rewrite !List.map_app, !List.map_map. reflexivity.
Qed.

Lemma shift_convertTokens tokens startIndex region :
  convertTokens hexToRgbColor tokens (startIndex + d) region
  = mapResult (List.map (shiftRequest d))
      (convertTokens hexToRgbColor tokens startIndex region).
Proof.
  unfold convertTokens.
  change (initialContext (startIndex + d) region)
    with (shiftContext d (initialContext startIndex region)).
  rewrite shift_processTokens.
  destruct (processTokens tokens (initialContext startIndex region))
    as [e|c]; [reflexivity|].
  cbn [mapResult bind]. rewrite shift_finalizeFormatting.
  destruct (finalizeFormatting hexToRgbColor c) as [e|c']; [reflexivity|].
  cbn [mapResult bind shiftContext insertRequests formatRequests].
  unfold Ok. cbn [mapResult]. now rewrite List.map_app.
Qed.

End ShiftFinal.

(** X15. The conversion does not depend on where the text goes: started at
    an offset moved by [d], it fails with the same error or returns the
    same requests with every offset moved by [d] and nothing else
    changed. *)
Theorem conversion_translates (hexToRgbColor : jsstring -> option RgbColor)
    (parseMarkdown : jsstring -> list Token) (markdown : jsstring)
    (startIndex d : Z) (region : option jsstring) :
  convertMarkdownToRequests hexToRgbColor parseMarkdown markdown
    (startIndex + d) region
  = mapResult (List.map (shiftRequest d))
      (convertMarkdownToRequests hexToRgbColor parseMarkdown markdown
         startIndex region).
Proof.
  unfold convertMarkdownToRequests.
  destruct (_ || _); [reflexivity|apply shift_convertTokens].
Qed.
(** ** The style request builders *)

(** X16. [buildUpdateTextStyleRequest] throws only the [UserError] that
    names a given colour [hexToRgbColor] does not read; it returns [null]
    only when no option is given; and the request it returns otherwise is
    over the given range, with the names of the given options, joined by
    commas, as its field mask. *)
Theorem text_style_builder_outcomes
    (hexToRgbColor : jsstring -> option RgbColor)
    (startIndex endIndex : Z) (style : TextStyleArgs)
    (tabId : option jsstring) :
  match buildUpdateTextStyleRequest hexToRgbColor startIndex endIndex
          style tabId with
  | inl e =>
      exists what h,
        e = UserError (js "Invalid " ++ js what
                         ++ js " hex color format: " ++ h)
        /\ hexToRgbColor h = None
        /\ ((what = "foreground"%string
             /\ arg_foregroundColor style = Some h)
            \/ (what = "background"%string
                /\ arg_backgroundColor style = Some h))
  | inr None => style = noTextStyleArgs
  | inr (Some (request, fields)) =>
      style <> noTextStyleArgs
      /\ fields <> []
      /\ (forall h, arg_foregroundColor style = Some h ->
                    hexToRgbColor h <> None)
      /\ (forall h, arg_backgroundColor style = Some h ->
                    hexToRgbColor h <> None)
      /\ exists textStyle,
           request
           = updateTextStyle
               {| range_startIndex := startIndex;
                  range_endIndex := endIndex;
                  range_tabId := keepTabId tabId |}
               textStyle (join (js ",") fields)
  end.
Proof.
  destruct style as [bo it un st fs ff fg bg li].
  unfold buildUpdateTextStyleRequest, parseColor.
  cbn [arg_bold arg_italic arg_underline arg_strikethrough arg_fontSize
       arg_fontFamily arg_foregroundColor arg_backgroundColor arg_linkUrl].
  destruct fg as [f|]; [destruct (hexToRgbColor f) as [rgb|] eqn:Ef|].
  2:{ cbn [bind]. exists "foreground"%string, f. auto. }
  all: cbn [bind];
    (destruct bg as [g|]; [destruct (hexToRgbColor g) as [rgb'|] eqn:Eg|]);
    cbn [bind].
  all: try (exists "background"%string, g; now auto).
  all: destruct bo, it, un, st, fs, ff, li; cbn [field app];
    try reflexivity;
    (split; [discriminate|]; split; [discriminate|];
     split; [intros h [= <-]; congruence || discriminate
            |split; [intros h [= <-]; congruence || discriminate|]];
     eexists; reflexivity).
Qed.

(** X17. [buildUpdateParagraphStyleRequest] returns [null] exactly when no
    option is given; the request it returns otherwise is over the given
    range, sets no border, and has the names of the given options, joined
    by commas, as its field mask. *)
Theorem paragraph_style_builder_outcomes
    (startIndex endIndex : Z) (style : ParagraphStyleArgs)
    (tabId : option jsstring) :
  (buildUpdateParagraphStyleRequest startIndex endIndex style tabId = None
   <-> style = noParagraphStyleArgs)
  /\ forall request fields,
       buildUpdateParagraphStyleRequest startIndex endIndex style tabId
       = Some (request, fields) ->
       fields <> []
       /\ exists paragraphStyle,
            ps_borderBottom paragraphStyle = None
            /\ request
               = updateParagraphStyle
                   {| range_startIndex := startIndex;
                      range_endIndex := endIndex;
                      range_tabId := keepTabId tabId |}
                   paragraphStyle (join (js ",") fields).
Proof.
  destruct style as [al i1 i2 sa sb ns kn].
  unfold buildUpdateParagraphStyleRequest.
  cbn [arg_alignment arg_indentStart arg_indentEnd arg_spaceAbove
       arg_spaceBelow arg_namedStyleType arg_keepWithNext].
  destruct al, i1, i2, sa, sb, ns, kn; cbn [field app];
    (split; [split; [discriminate || reflexivity
                    |discriminate || reflexivity]|]);
    intros request fields [= <- <-] || discriminate;
    (split; [discriminate|]); eexists; (split; [|reflexivity]); reflexivity.
Qed.

(** ** Conversions of a heading and of a link *)

(** X18. A heading of level 1 to 6 with a text that is not empty is
    converted to the insertion of the text at the start offset, the
    insertion of one line feed after it, and one paragraph style request
    that gives the range of the text, without the line feed, the named
    style [HEADING_<level>]. *)
Theorem heading_conversion (hexToRgbColor : jsstring -> option RgbColor)
    (n : Z) (t : jsstring) (startIndex : Z) (region : option jsstring) :
  1 <= n <= 6 -> t <> [] ->
  convertTokens hexToRgbColor (headingTokens n t) startIndex region
  = Ok [ insertTextRequest
           {| index := startIndex; location_tabId := keepTabId region |} t;
         insertTextRequest
           {| index := startIndex + jslength t;
              location_tabId := keepTabId region |} [LF];
         updateParagraphStyle
           {| range_startIndex := startIndex;
              range_endIndex := startIndex + jslength t;
              range_tabId := keepTabId region |}
           (namedStyle (js "HEADING_" ++ numberToString n))
           (js "namedStyleType") ].
Proof.
  intros Hn Ht. destruct t as [|u t]; [congruence|].
  assert (E : n = 1 \/ n = 2 \/ n = 3 \/ n = 4 \/ n = 5 \/ n = 6) by lia.
  destruct E as [->|[->|[->|[->|[->| ->]]]]]; vm_compute; reflexivity.
Qed.

(** X19. A paragraph that holds one link with a text that is not empty is
    converted to the insertion of the text, the insertion of two line
    feeds, and, when the target is not the empty string, one character
    style request that sets the link on the range of the text with the
    field mask [link]; with an empty target no style request is made. *)
Theorem link_conversion (hexToRgbColor : jsstring -> option RgbColor)
    (url t : jsstring) (startIndex : Z) (region : option jsstring) :
  t <> [] ->
  convertTokens hexToRgbColor (linkTokens url t) startIndex region
  = Ok ([ insertTextRequest
            {| index := startIndex; location_tabId := keepTabId region |} t;
          insertTextRequest
            {| index := startIndex + jslength t;
               location_tabId := keepTabId region |} [LF; LF] ]
        ++ match url with
           | [] => []
           | _ :: _ =>
               [ updateTextStyle
                   {| range_startIndex := startIndex;
                      range_endIndex := startIndex + jslength t;
                      range_tabId := keepTabId region |}
                   (linkOnly url) (js "link") ]
           end).
Proof.
  intros Ht. destruct t as [|u t]; [congruence|].
  destruct url as [|v url]; vm_compute; reflexivity.
Qed.
(** ** What the walk leaves in place *)

Lemma extends_refl c : extends c c.
Proof. split; reflexivity || lia. Qed.

Lemma extends_trans c1 c2 c3 : extends c1 c2 -> extends c2 c3 -> extends c1 c3.
Proof.
  intros [] []. split; try (etransitivity; eassumption); try lia; congruence.
Qed.

Section Extends.

Variable c : ConversionContext.

Lemma ext_insertText t x : extends c x -> extends c (insertText t x).
Proof.
  intros H. apply (extends_trans _ _ _ H). pose proof (jslength_nonneg t).
  split; ctx_simpl; try reflexivity; try lia. now apply prefix_app_r.
Qed.

Lemma ext_textRanges l x :
  extends c x -> extends c (set_textRanges (textRanges x ++ l) x).
Proof.
  intros H. apply (extends_trans _ _ _ H).
  split; ctx_simpl; try reflexivity; try lia. now apply prefix_app_r.
Qed.

Lemma ext_paragraphRanges l x :
  extends c x -> extends c (set_paragraphRanges (paragraphRanges x ++ l) x).
Proof.
  intros H. apply (extends_trans _ _ _ H).
  split; ctx_simpl; try reflexivity; try lia. now apply prefix_app_r.
Qed.

Lemma ext_hrRanges l x :
  extends c x -> extends c (set_hrRanges (hrRanges x ++ l) x).
Proof.
  intros H. apply (extends_trans _ _ _ H).
  split; ctx_simpl; try reflexivity; try lia. now apply prefix_app_r.
Qed.

Lemma ext_pendingListItems l x :
  extends c x ->
  extends c (set_pendingListItems (pendingListItems x ++ l) x).
Proof.
  intros H. apply (extends_trans _ _ _ H).
  split; ctx_simpl; try reflexivity; try lia. rewrite length_app. lia.
Qed.

Lemma ext_storeListItem i it x :
  extends c x -> extends c (storeListItem i it x).
Proof.
  intros H. apply (extends_trans _ _ _ H).
  split; ctx_simpl; try reflexivity; try lia. rewrite length_insert. lia.
Qed.

Lemma ext_formattingStack v x :
  extends c x -> extends c (set_formattingStack v x).
Proof. intros H. apply (extends_trans _ _ _ H). split; reflexivity || lia. Qed.

Lemma ext_listStack v x : extends c x -> extends c (set_listStack v x).
Proof. intros H. apply (extends_trans _ _ _ H). split; reflexivity || lia. Qed.

Lemma ext_openListItemStack v x :
  extends c x -> extends c (set_openListItemStack v x).
Proof. intros H. apply (extends_trans _ _ _ H). split; reflexivity || lia. Qed.

Lemma ext_currentParagraphStart v x :
  extends c x -> extends c (set_currentParagraphStart v x).
Proof. intros H. apply (extends_trans _ _ _ H). split; reflexivity || lia. Qed.

Lemma ext_currentHeadingLevel v x :
  extends c x -> extends c (set_currentHeadingLevel v x).
Proof. intros H. apply (extends_trans _ _ _ H). split; reflexivity || lia. Qed.

End Extends.

(** Follows the assignments of a handler, one after the other. *)
Ltac ext_steps :=
  repeat first
    [ apply extends_refl
    | assumption
    | apply ext_insertText
    | apply ext_textRanges
    | apply ext_paragraphRanges
    | apply ext_hrRanges
    | apply ext_pendingListItems
    | apply ext_storeListItem
    | apply ext_formattingStack
    | apply ext_listStack
    | apply ext_openListItemStack
    | apply ext_currentParagraphStart
    | apply ext_currentHeadingLevel
    | case_match ].

Lemma ext_insertFormattedText c t x :
  extends c x -> extends c (insertFormattedText t x).
Proof. intros H. unfold insertFormattedText. ext_steps. Qed.

Lemma ext_handleTextToken c t x :
  extends c x -> extends c (handleTextToken t x).
Proof.
  intros H. unfold handleTextToken.
  repeat first [ assumption | apply ext_insertFormattedText
               | apply ext_storeListItem | case_match ].
Qed.

Lemma ext_insertCodeLine c x line :
  extends c x -> extends c (insertCodeLine x line).
Proof. intros H. unfold insertCodeLine. ext_steps. Qed.

Lemma ext_insertCodeLines c lines : forall x,
  extends c x -> extends c (fold_left insertCodeLine lines x).
Proof.
  induction lines as [|l lines IH]; intros x H; simpl; [exact H|].
  apply IH, ext_insertCodeLine, H.
Qed.

Lemma ext_handleCodeBlockToken c t x :
  extends c x -> extends c (handleCodeBlockToken t x).
Proof.
  intros H. unfold handleCodeBlockToken.
  destruct (negb _); [apply ext_insertText|]; apply ext_insertCodeLines, H.
Qed.

Lemma extends_processToken t c c' :
  isLeaf t -> processToken t c = Ok c' -> extends c c'.
Proof.
  unfold isLeaf. destruct t as [ty tg a ct ch]. cbn [processToken type].
  intros L. destruct (kindOf ty) eqn:K; try congruence;
    try (intros [= <-]; apply extends_refl).
  - intros [= <-]. unfold handleHeadingOpen. ext_steps.
  - intros [= <-]. unfold handleHeadingClose. ext_steps.
  - intros [= <-]. unfold handleParagraphOpen. ext_steps.
  - intros [= <-]. unfold handleParagraphClose. ext_steps.
  - intros [= <-]. apply ext_handleTextToken, extends_refl.
  - intros [= <-]. unfold handleCodeInlineToken, popFormatting.
    apply ext_formattingStack, ext_handleTextToken.
    unfold pushFormatting. ext_steps.
  - intros [= <-]. unfold pushFormatting. ext_steps.
  - intros [= <-]. unfold popFormatting. ext_steps.
  - intros [= <-]. unfold pushFormatting. ext_steps.
  - intros [= <-]. unfold popFormatting. ext_steps.
  - intros [= <-]. unfold pushFormatting. ext_steps.
  - intros [= <-]. unfold popFormatting. ext_steps.
  - repeat case_match; intros [= <-]; unfold pushFormatting; ext_steps.
  - intros [= <-]. unfold popFormatting. ext_steps.
  - intros [= <-]. unfold pushList. ext_steps.
  - intros [= <-]. unfold popList. ext_steps.
  - intros [= <-]. unfold pushList. ext_steps.
  - intros [= <-]. unfold popList. ext_steps.
  - unfold handleListItemOpen. case_match; [|discriminate].
    intros [= <-]. ext_steps.
  - unfold handleListItemClose. repeat case_match; try discriminate;
      intros [= <-]; ext_steps.
  - intros [= <-]. ext_steps.
  - intros [= <-]. ext_steps.
  - intros [= <-]. apply ext_handleCodeBlockToken, extends_refl.
  - intros [= <-]. apply ext_handleCodeBlockToken, extends_refl.
  - intros [= <-]. apply ext_handleCodeBlockToken, extends_refl.
  - intros [= <-]. unfold handleHorizontalRule. ext_steps.
Qed.

Lemma extends_processTokens ts c c' :
  processTokens ts c = Ok c' -> extends c c'.
Proof.
  apply (processTokens_invariant (extends c)).
  - intros t c0 c1 L H E. apply (extends_trans _ _ _ H).
    eapply extends_processToken; eassumption.
  - apply extends_refl.
Qed.

Lemma processTokens_app_Ok ts1 ts2 c c2 :
  processTokens (ts1 ++ ts2) c = Ok c2 ->
  exists c1, processTokens ts1 c = Ok c1 /\ processTokens ts2 c1 = Ok c2.
Proof.
  rewrite processTokens_app. intros H.
  apply bind_Ok in H as (c1 & H1 & H2). eauto.
Qed.

(** X20. What the walk over the first tokens of a list has emitted and
    recorded is left in place by the walk over the rest: the insertions,
    the styled spans, the paragraph ranges and the rule ranges of the whole
    list begin with those of its first part, no pending item is dropped,
    and the current offset does not decrease. *)
Theorem later_tokens_only_append (first rest : list Token)
    (c c2 : ConversionContext) :
  processTokens (first ++ rest) c = Ok c2 ->
  exists c1,
    processTokens first c = Ok c1
    /\ insertRequests c1 `prefix_of` insertRequests c2
    /\ textRanges c1 `prefix_of` textRanges c2
    /\ paragraphRanges c1 `prefix_of` paragraphRanges c2
    /\ hrRanges c1 `prefix_of` hrRanges c2
    /\ (length (pendingListItems c1) <= length (pendingListItems c2))%nat
    /\ currentIndex c1 <= currentIndex c2.
Proof.
  intros H. apply processTokens_app_Ok in H as (c1 & H1 & H2).
  exists c1. split; [exact H1|].
  apply extends_processTokens in H2 as [].
  repeat split; assumption.
Qed.
(** ** The further properties at concrete inputs *)

Lemma region_on_every_request_witness :
  convertTokens rejectHex tokens_heading_rule 1 region_tab
  = Ok requests_in_tab
  /\ Forall (fun q => requestTabId q = keepTabId region_tab) requests_in_tab.
Proof.
  assert (E : convertTokens rejectHex tokens_heading_rule 1 region_tab
              = Ok requests_in_tab) by (vm_compute; reflexivity).
  split; [exact E|].
  exact (region_on_every_request rejectHex tokens_heading_rule 1 region_tab
           requests_in_tab E).
Defined.

Lemma requests_in_phase_order_witness :
  convertTokens rejectHex tokens_nested_items 1 None
  = Ok requests_nested_items
  /\ rankOrdered requests_nested_items.
Proof.
  assert (E : convertTokens rejectHex tokens_nested_items 1 None
              = Ok requests_nested_items) by (vm_compute; reflexivity).
  split; [exact E|].
  exact (requests_in_phase_order rejectHex tokens_nested_items 1 None
           requests_nested_items E).
Defined.

Lemma fails_only_on_orphan_item_witness :
  (orphanListItem tokens_bold_text
   /\ convertTokens acceptHex tokens_bold_text 1 None
      = Throw listItemOutsideList)
  \/ (~ orphanListItem tokens_bold_text
      /\ exists reqs,
           convertTokens acceptHex tokens_bold_text 1 None = Ok reqs).
Proof.
  apply (fails_only_on_orphan_item acceptHex tokens_bold_text 1 None);
    intros H; vm_compute in H; discriminate H.
Defined.

Lemma item_nesting_is_list_depth_witness :
  processTokens tokens_two_lists (initialContext 1 None)
  = Ok context_two_lists
  /\ handleListItemOpen context_two_lists = Ok context_two_lists_item
  /\ exists it,
       pendingListItems context_two_lists_item
       = pendingListItems context_two_lists ++ [it]
       /\ nestingLevel it = (length (listStack context_two_lists) - 1)%nat
       /\ item_startIndex it = currentIndex context_two_lists
       /\ item_endIndex it = None
       /\ currentIndex context_two_lists_item
          = currentIndex context_two_lists
            + Z.of_nat (length (listStack context_two_lists) - 1)
       /\ insertedTexts (insertRequests context_two_lists_item)
          = insertedTexts (insertRequests context_two_lists)
              ++ (if (1 <? length (listStack context_two_lists))%nat
                  then [repeatUnit TAB
                          (length (listStack context_two_lists) - 1)]
                  else []).
Proof.
  assert (E1 : processTokens tokens_two_lists (initialContext 1 None)
               = Ok context_two_lists) by (vm_compute; reflexivity).
  assert (E2 : handleListItemOpen context_two_lists
               = Ok context_two_lists_item) by (vm_compute; reflexivity).
  split; [exact E1|]. split; [exact E2|].
  exact (item_nesting_is_list_depth tokens_two_lists 1 None
           context_two_lists context_two_lists_item E1 E2).
Defined.

Lemma paragraph_requests_shape_witness :
  convertTokens rejectHex tokens_heading_rule 1 None
  = Ok requests_heading_rule
  /\ Forall (fun q =>
               match q with
               | updateParagraphStyle r ps fields =>
                   match ps_borderBottom ps with
                   | Some border =>
                       range_endIndex r = range_startIndex r + 1
                       /\ border = hrBorder /\ ps_namedStyleType ps = None
                       /\ fields = js "borderBottom"
                   | None =>
                       (exists h, 1 <= h <= 9
                                  /\ ps_namedStyleType ps
                                     = Some (headingStyle h))
                       /\ fields = js "namedStyleType"
                   end
               | _ => True
               end) requests_heading_rule.
Proof.
  assert (E : convertTokens rejectHex tokens_heading_rule 1 None
              = Ok requests_heading_rule) by (vm_compute; reflexivity).
  split; [exact E|].
  exact (paragraph_requests_shape rejectHex tokens_heading_rule 1 None
           requests_heading_rule E).
Defined.

Lemma style_ranges_ascending_witness :
  spansFrom 1 (textRanges context_bold_paragraph)
  /\ rangesAscending (List.filter isTextStyle requests_bold_text)
  /\ Forall (fun q => forall a b, requestRange q = Some (a, b) -> a < b)
       (List.filter isTextStyle requests_bold_text).
Proof.
  assert (E1 : processTokens tokens_bold_text (initialContext 1 None)
               = Ok context_bold_paragraph) by (vm_compute; reflexivity).
  assert (E2 : convertTokens rejectHex tokens_bold_text 1 None
               = Ok requests_bold_text) by (vm_compute; reflexivity).
  destruct (style_ranges_ascending rejectHex tokens_bold_text 1 None)
    as [H1 H2].
  split; [exact (H1 _ E1)|exact (H2 _ E2)].
Defined.

Lemma insertions_nonempty_increasing_witness :
  convertTokens rejectHex tokens_nested_items 1 None
  = Ok requests_nested_items
  /\ Forall (fun t => t <> []) (insertedTexts requests_nested_items)
  /\ StronglySorted Z.lt (insertIndices requests_nested_items).
Proof.
  assert (E : convertTokens rejectHex tokens_nested_items 1 None
              = Ok requests_nested_items) by (vm_compute; reflexivity).
  split; [exact E|].
  exact (insertions_nonempty_increasing rejectHex tokens_nested_items 1 None
           requests_nested_items E).
Defined.

Lemma every_span_styled_witness :
  In {| startIndex := 1; endIndex := 10; formatting := boldFormatting |}
    (textRanges context_bold_paragraph)
  /\ exists q,
       In q requests_bold_text /\ isTextStyle q = true
       /\ requestRange q = Some (1, 10).
Proof.
  assert (E1 : processTokens tokens_bold_text (initialContext 1 None)
               = Ok context_bold_paragraph) by (vm_compute; reflexivity).
  assert (E2 : convertTokens rejectHex tokens_bold_text 1 None
               = Ok requests_bold_text) by (vm_compute; reflexivity).
  assert (Hin : In {| startIndex := 1; endIndex := 10;
                      formatting := boldFormatting |}
                  (textRanges context_bold_paragraph))
    by (vm_compute; left; reflexivity).
  split; [exact Hin|].
  exact (every_span_styled rejectHex tokens_bold_text 1 None
           requests_bold_text context_bold_paragraph _ E1 E2 Hin).
Defined.

Lemma popFormatting_removes_newest_witness :
  formattingStack context_bold_open = [] ++ boldFormatting :: []
  /\ popFormatting context_bold_open key_bold
     = set_formattingStack ([] ++ []) context_bold_open
  /\ (@nil FormattingState = [] ->
      popFormatting (pushFormatting boldFormatting context_bold_open) key_bold
      = context_bold_open).
Proof.
  assert (E : formattingStack context_bold_open = [] ++ boldFormatting :: [])
    by (vm_compute; reflexivity).
  split; [exact E|].
  apply (popFormatting_removes_newest context_bold_open key_bold [] []
           boldFormatting E); [reflexivity|constructor].
Defined.

Lemma table_tokens_processed_as_code_witness :
  exists c',
    processToken (token "tr_open") (initialContext 1 None) = Ok c'
    /\ insertedTexts (insertRequests c')
       = insertedTexts (insertRequests (initialContext 1 None))
           ++ [js " "; [LF]; [LF]]
    /\ textRanges c'
       = textRanges (initialContext 1 None)
           ++ [{| startIndex := currentIndex (initialContext 1 None);
                  endIndex := currentIndex (initialContext 1 None) + 1;
                  formatting := codeFormatting |}]
    /\ currentIndex c' = currentIndex (initialContext 1 None) + 3.
Proof.
  apply (table_tokens_processed_as_code (token "tr_open")
           (initialContext 1 None)); vm_compute; reflexivity.
Defined.

Lemma batches_bounded_ordered_until_error_witness :
  executeBatchUpdateWithSplitting (fun _ => false) isInsert (fun _ => None)
    requests_bold_text = (sent_bold_text, None)
  /\ Forall (fun batch => batch <> [] /\ (length batch <= 50)%nat)
       sent_bold_text
  /\ concat sent_bold_text
     = List.filter (fun _ => false) requests_bold_text
         ++ List.filter isInsert requests_bold_text
         ++ List.filter (fun r => negb false && negb (isInsert r))
              requests_bold_text.
Proof.
  assert (E : executeBatchUpdateWithSplitting (fun _ => false) isInsert
                (fun _ => None) requests_bold_text = (sent_bold_text, None))
    by (vm_compute; reflexivity).
  destruct (batches_bounded_ordered_until_error (fun _ => false) isInsert
              (fun _ => None) requests_bold_text sent_bold_text None E)
    as (H1 & _ & H3 & _).
  split; [exact E|]. split; [exact H1|exact (H3 eq_refl)].
Defined.

Lemma converted_requests_sent_in_order_witness :
  concat sent_bold_text `prefix_of` requests_bold_text
  /\ (@None JsError = None -> concat sent_bold_text = requests_bold_text)
  /\ Forall (fun batch => Forall (fun q => isInsert q = true) batch
                          \/ Forall (fun q => isInsert q = false) batch)
       sent_bold_text.
Proof.
  assert (Ec : convertTokens rejectHex tokens_bold_text 1 None
               = Ok requests_bold_text) by (vm_compute; reflexivity).
  assert (Es : executeBatchUpdateWithSplitting (fun _ => false) isInsert
                 (fun _ => None) requests_bold_text = (sent_bold_text, None))
    by (vm_compute; reflexivity).
  exact (converted_requests_sent_in_order rejectHex (fun _ => None)
           tokens_bold_text 1 None requests_bold_text sent_bold_text None
           Ec Es).
Defined.

Lemma heading_conversion_witness :
  convertTokens rejectHex (headingTokens 2 (js "Title")) 1 None
  = Ok [ insertTextRequest
           {| index := 1; location_tabId := keepTabId None |} (js "Title");
         insertTextRequest
           {| index := 1 + jslength (js "Title");
              location_tabId := keepTabId None |} [LF];
         updateParagraphStyle
           {| range_startIndex := 1;
              range_endIndex := 1 + jslength (js "Title");
              range_tabId := keepTabId None |}
           (namedStyle (js "HEADING_" ++ numberToString 2))
           (js "namedStyleType") ].
Proof.
  apply (heading_conversion rejectHex 2 (js "Title") 1 None); [lia|].
  intros H; vm_compute in H; discriminate H.
Defined.

Lemma link_conversion_witness :
  convertTokens rejectHex
    (linkTokens (js "https://example.com") (js "site")) 1 None
  = Ok ([ insertTextRequest
            {| index := 1; location_tabId := keepTabId None |} (js "site");
          insertTextRequest
            {| index := 1 + jslength (js "site");
               location_tabId := keepTabId None |} [LF; LF] ]
        ++ match js "https://example.com" with
           | [] => []
           | _ :: _ =>
               [ updateTextStyle
                   {| range_startIndex := 1;
                      range_endIndex := 1 + jslength (js "site");
                      range_tabId := keepTabId None |}
                   (linkOnly (js "https://example.com")) (js "link") ]
           end).
Proof.
  apply (link_conversion rejectHex (js "https://example.com") (js "site")
           1 None).
  intros H; vm_compute in H; discriminate H.
Defined.

Lemma later_tokens_only_append_witness :
  exists c1,
    processTokens [token "paragraph_open"; token "strong_open"]
      (initialContext 1 None) = Ok c1
    /\ insertRequests c1 `prefix_of` insertRequests context_bold_text
    /\ textRanges c1 `prefix_of` textRanges context_bold_text
    /\ paragraphRanges c1 `prefix_of` paragraphRanges context_bold_text
    /\ hrRanges c1 `prefix_of` hrRanges context_bold_text
    /\ (length (pendingListItems c1)
        <= length (pendingListItems context_bold_text))%nat
    /\ currentIndex c1 <= currentIndex context_bold_text.
Proof.
  apply (later_tokens_only_append
           [token "paragraph_open"; token "strong_open"]
           [textToken "bold text"] (initialContext 1 None) context_bold_text).
  vm_compute; reflexivity.
Defined.
